(** * AutoSection: spacing detection, layout classification and section layout

    A shallow embedding of [code.ts], the main file of the AutoSection Figma
    plugin, and the properties of its geometric core.

    Numbers.  JavaScript numbers are embedded as exact rationals ([Q]):
    the constants [1.2], [0.2], [0.5] and [0.05] are [6/5], [1/5], [1/2] and
    [1/20], and [+], [-], [*], [/] are exact.  The rounding error of IEEE
    doubles, [NaN] and the infinities are outside this part of the model;
    where the code starts a running minimum or maximum at an infinity, the
    model starts it at "no value yet".  Values that are integers in the
    code after [Math.round] are embedded as [Z].  What is said below of a
    branch, of a test against a threshold or of the structure of a result
    does not depend on the rounding.  What is said of the exact value of a
    gap does: for that the two arrangement loops are embedded a second
    time on binary64 numbers (module [Doubles]), where every operation
    rounds as in the code.

    Host objects.  [Array.prototype.sort] is the stable insertion sort
    [Array_sort]: with a comparator that orders its arguments, as
    [a.x - b.x] does, this is the result of every stable sort; the first
    comparator of [detectSpacing] is not transitive, and what is proved of
    [detectSpacing] below uses no property of the sort.  A write to
    [node.x] or [node.y] is taken to succeed. *)

From Stdlib Require Import QArith Qround Qabs Qminmax Lqa ZArith List Bool.
From Stdlib Require Import Permutation Sorted Lia.
From Stdlib Require String.
From Stdlib Require Floats.
Import ListNotations.

Open Scope Q_scope.

(** Arithmetic on numbers stays folded under [simpl]. *)
Arguments Qplus : simpl never.
Arguments Qminus : simpl never.
Arguments Qmult : simpl never.
Arguments Qopp : simpl never.
Arguments Qdiv : simpl never.
Arguments Qabs : simpl never.
Arguments Qmin : simpl never.
Arguments Qmax : simpl never.
Arguments Qle_bool : simpl never.
Arguments inject_Z : simpl never.

(* ------------------------------------------------------------------ *)
(** ** Numbers and arrays of the host language *)

Module JS.

(** [a < b] on numbers. *)
Definition ltb (a b : Q) : bool := negb (Qle_bool b a).

(** [a <= b] on numbers. *)
Definition leb (a b : Q) : bool := Qle_bool a b.

(** [Math.round]: the nearest integer, halves going up. *)
Definition Math_round (q : Q) : Z := Qfloor (q + (1 # 2)).

(** A count (an array length) as a number. *)
Definition num (n : nat) : Q := inject_Z (Z.of_nat n).

Section Sort.
Context {A : Type}.
Variable compareFn : A -> A -> Q.

(** [a] is put in front of the first element it does not follow. *)
Fixpoint insert (a : A) (l : list A) : list A :=
  match l with
  | [] => [a]
  | b :: l' =>
      if leb (compareFn a b) 0 then a :: b :: l' else b :: insert a l'
  end.

(** [Array.prototype.sort(compareFn)], stable. *)
Fixpoint Array_sort (l : list A) : list A :=
  match l with
  | [] => []
  | a :: l' => insert a (Array_sort l')
  end.
End Sort.

(** [l[i] = v], for an index of the array. *)
Fixpoint write {A : Type} (i : nat) (v : A) (l : list A) : list A :=
  match l, i with
  | [], _ => []
  | _ :: tl, O => v :: tl
  | a :: tl, S j => a :: write j v tl
  end.

(** [Math.max(...l)] and [Math.min(...l)]; [None] on the empty list, where
    the code has an infinity. *)
Definition Math_max (l : list Q) : option Q :=
  match l with
  | [] => None
  | a :: l' => Some (fold_left Qmax l' a)
  end.

Definition Math_min (l : list Q) : option Q :=
  match l with
  | [] => None
  | a :: l' => Some (fold_left Qmin l' a)
  end.

End JS.

(* ------------------------------------------------------------------ *)
(** ** Data of the plugin *)

(** The geometry of a [PositionedNode]. *)
Record PositionedNode : Type := mkFrame
  { frame_x : Q; frame_y : Q; frame_width : Q; frame_height : Q }.

Record Padding : Type := mkPadding
  { pad_top : Q; pad_right : Q; pad_bottom : Q; pad_left : Q }.

Inductive Layout : Type := horizontal | vertical | maintain.

Inductive Alignment : Type := top | center | bottom | left | right.

(** The payload of an [ApplyMessage], which is also what is stored on a
    section as its settings. *)
Record Settings : Type := mkSettings
  { padding : Padding; spacing : Q; layout : Layout; alignment : Alignment }.

(* ------------------------------------------------------------------ *)
(** ** [detectSpacing] *)

Module Spacing.

(** The comparator of the first sort: by [x] inside a row, else by [y]. *)
Definition rowCompare (a b : PositionedNode) : Q :=
  if JS.ltb (Qabs (frame_y a - frame_y b)) 10
  then frame_x a - frame_x b
  else frame_y a - frame_y b.

Definition xCompare (a b : PositionedNode) : Q := frame_x a - frame_x b.

Definition sortFrames (frames : list PositionedNode) : list PositionedNode :=
  JS.Array_sort rowCompare frames.

(** [rows.push(currentRow)] under [if (currentRow.length > 0)]. *)
Definition pushRow (rows : list (list PositionedNode))
    (currentRow : list PositionedNode) : list (list PositionedNode) :=
  match currentRow with
  | [] => rows
  | _ :: _ => rows ++ [currentRow]
  end.

(** The grouping loop, with its three variables. *)
Fixpoint groupLoop (sortedFrames : list PositionedNode)
    (rows : list (list PositionedNode)) (currentRow : list PositionedNode)
    (currentRowY : Q) : list (list PositionedNode) :=
  match sortedFrames with
  | [] => pushRow rows currentRow
  | frame :: rest =>
      if JS.ltb (Qabs (frame_y frame - currentRowY)) 10
      then groupLoop rest rows (currentRow ++ [frame]) currentRowY
      else groupLoop rest (pushRow rows currentRow) [frame] (frame_y frame)
  end.

(** [sortedFrames[0]?.y ?? 0]. *)
Definition firstY (sortedFrames : list PositionedNode) : Q :=
  match sortedFrames with
  | [] => 0
  | f :: _ => frame_y f
  end.

Definition groupRows (sortedFrames : list PositionedNode)
  : list (list PositionedNode) :=
  groupLoop sortedFrames [] [] (firstY sortedFrames).

(** [row[i + 1].x - (row[i].x + row[i].width)] for each adjacent pair. *)
Fixpoint adjacentGaps (row : list PositionedNode) : list Q :=
  match row with
  | a :: (b :: _) as tl =>
      (frame_x b - (frame_x a + frame_width a)) :: adjacentGaps tl
  | _ => []
  end.

Definition nonNegative (l : list Q) : list Q :=
  filter (fun s => JS.leb 0 s) l.

Definition rowSpacings (row : list PositionedNode) : list Q :=
  if (length row <? 2)%nat then []
  else nonNegative (adjacentGaps (JS.Array_sort xCompare row)).

Definition horizontalSpacings (rows : list (list PositionedNode)) : list Q :=
  flat_map rowSpacings rows.

(** The gap between two consecutive rows; no gap where a row is empty
    (the loop above pushes no empty row, see [groupRows_nonempty]). *)
Definition rowGap (currentRow nextRow : list PositionedNode) : list Q :=
  match JS.Math_max (map (fun f => frame_y f + frame_height f) currentRow),
        JS.Math_min (map frame_y nextRow) with
  | Some currentRowBottom, Some nextRowTop =>
      nonNegative [nextRowTop - currentRowBottom]
  | _, _ => []
  end.

Fixpoint verticalSpacings (rows : list (list PositionedNode)) : list Q :=
  match rows with
  | currentRow :: (nextRow :: _) as tl =>
      rowGap currentRow nextRow ++ verticalSpacings tl
  | _ => []
  end.

Definition allSpacings (frames : list PositionedNode) : list Q :=
  let rows := groupRows (sortFrames frames) in
  horizontalSpacings rows ++ verticalSpacings rows.

(** *** The object [spacingGroups]

    Its keys are the rounded gaps.  [for ... in] visits the keys that are
    array indices (integers from [0] to [2^32 - 2]) in ascending order
    and then the other keys in the order of their creation; the list
    below is kept in that order.  [parseInt] of a key gives the rounded
    gap back (the key of an integer below [10^21] is its decimal
    writing). *)
Definition Groups : Type := list (Z * list Q).

Definition isArrayIndex (k : Z) : bool :=
  ((0 <=? k) && (k <? 2 ^ 32 - 1))%Z.

Definition hasKey (k : Z) (groups : Groups) : bool :=
  existsb (fun g => (fst g =? k)%Z) groups.

(** A new key takes its place in the enumeration order. *)
Fixpoint newKey (k : Z) (s : Q) (groups : Groups) : Groups :=
  match groups with
  | [] => [(k, [s])]
  | (k', vs) :: rest =>
      if isArrayIndex k && (negb (isArrayIndex k') || (k <? k')%Z)
      then (k, [s]) :: (k', vs) :: rest
      else (k', vs) :: newKey k s rest
  end.

(** [spacingGroups[rounded].push(spacing)], creating the group first when
    it is not there. *)
Definition pushSpacing (groups : Groups) (s : Q) : Groups :=
  let rounded := JS.Math_round s in
  if hasKey rounded groups
  then map (fun g => if (fst g =? rounded)%Z
                     then (fst g, snd g ++ [s]) else g) groups
  else newKey rounded s groups.

Definition spacingGroups (allSpacings : list Q) : Groups :=
  fold_left pushSpacing allSpacings [].

(** The scan for the most common rounded gap: [(maxCount,
    mostCommonSpacing)]. *)
Definition mostCommon (groups : Groups) : nat * option Z :=
  fold_left
    (fun acc g =>
       if (fst acc <? length (snd g))%nat
       then (length (snd g), Some (fst g)) else acc)
    groups (0%nat, None).

(** The scan of the 20% branch: [(bestNonZeroCount, bestNonZeroSpacing)]
    among the positive keys with at least 2 members and 5% of the gaps. *)
Definition bestNonZeroShare (groups : Groups) (total : nat)
  : nat * option Z :=
  fold_left
    (fun acc g =>
       if (0 <? fst g)%Z
          && (fst acc <? length (snd g))%nat
          && (2 <=? length (snd g))%nat
          && JS.leb (JS.num total * (1 # 20)) (JS.num (length (snd g)))
       then (length (snd g), Some (fst g)) else acc)
    groups (0%nat, None).

(** The scan of the last branch: positive keys with at least 2 members. *)
Definition bestNonZero (groups : Groups) : nat * option Z :=
  fold_left
    (fun acc g =>
       if (0 <? fst g)%Z && (2 <=? length (snd g))%nat
          && (fst acc <? length (snd g))%nat
       then (length (snd g), Some (fst g)) else acc)
    groups (0%nat, None).

Definition isZero (o : option Z) : bool :=
  match o with Some 0%Z => true | _ => false end.

Definition isSome {A} (o : option A) : bool :=
  match o with Some _ => true | None => false end.

Definition isEven (allSpacings : list Q) (firstSpacing : Q) : bool :=
  forallb (fun s => JS.leb (Qabs (s - firstSpacing)) 2) allSpacings.

(** What [detectSpacing] does once the gaps are merged. *)
Definition pickSpacing (allSpacings : list Q) : option Z :=
  match allSpacings with
  | [] => None
  | firstSpacing :: _ =>
      if isEven allSpacings firstSpacing && JS.leb 0 firstSpacing
      then Some (JS.Math_round firstSpacing)
      else
        let groups := spacingGroups allSpacings in
        let total := JS.num (length allSpacings) in
        let '(maxCount, mostCommonSpacing) := mostCommon groups in
        if isSome mostCommonSpacing
           && JS.leb (total * (1 # 5)) (JS.num maxCount)
        then
          if isZero mostCommonSpacing
             && JS.ltb (JS.num maxCount) (total * (1 # 2))
          then
            match snd (bestNonZeroShare groups (length allSpacings)) with
            | Some best => Some best
            | None => mostCommonSpacing
            end
          else mostCommonSpacing
        else if isZero mostCommonSpacing
                || (isSome mostCommonSpacing
                    && JS.ltb (JS.num maxCount) (total * (1 # 5)))
        then snd (bestNonZero groups)
        else None
  end.

Definition detectSpacing (frames : list PositionedNode) : option Z :=
  if (length frames <? 2)%nat then None
  else pickSpacing (allSpacings frames).

End Spacing.

(* ------------------------------------------------------------------ *)
(** ** The bounding box loop *)

Module Geometry.

Record Bounds : Type := mkBounds { minX : Q; minY : Q; maxX : Q; maxY : Q }.

(** The box after the first frame: [Math.min(Infinity, v)] is [v]. *)
Definition boundsOf (frame : PositionedNode) : Bounds :=
  mkBounds (frame_x frame) (frame_y frame)
           (frame_x frame + frame_width frame)
           (frame_y frame + frame_height frame).

(** One turn of the loop. *)
Definition extend (b : Bounds) (frame : PositionedNode) : Bounds :=
  mkBounds (Qmin (minX b) (frame_x frame))
           (Qmin (minY b) (frame_y frame))
           (Qmax (maxX b) (frame_x frame + frame_width frame))
           (Qmax (maxY b) (frame_y frame + frame_height frame)).

(** The loop over a list with a first frame. *)
Definition boundingBox (first : PositionedNode) (rest : list PositionedNode)
  : Bounds :=
  fold_left extend rest (boundsOf first).

End Geometry.

(* ------------------------------------------------------------------ *)
(** ** [detectLayoutAndAlignment] *)

Module Classifier.
Import Geometry.

(** [values.every(v => Math.abs(v - reference) <= tolerance)]. *)
Definition aligned (values : list Q) (reference : Q) : bool :=
  forallb (fun v => JS.leb (Qabs (v - reference)) 2) values.

(** [values.reduce((a, b) => a + b, 0) / values.length]. *)
Definition average (values : list Q) : Q :=
  fold_left Qplus values 0 / JS.num (length values).

Definition detectLayoutAndAlignment (frames : list PositionedNode)
  : Layout * Alignment :=
  match frames with
  | [] | [_] => (horizontal, top)
  | first :: rest =>
      let b := boundingBox first rest in
      let width := maxX b - minX b in
      let height := maxY b - minY b in
      let isHorizontal := JS.ltb (height * (6 # 5)) width in
      let isVertical := JS.ltb (width * (6 # 5)) height in
      if isHorizontal then
        let topYs := map frame_y frames in
        let bottomYs := map (fun f => frame_y f + frame_height f) frames in
        let centerYs :=
          map (fun f => frame_y f + frame_height f / 2) frames in
        let topAligned := aligned topYs (hd 0 topYs) in
        let bottomAligned := aligned bottomYs (hd 0 bottomYs) in
        let centerAligned := aligned centerYs (average centerYs) in
        if topAligned then (horizontal, top)
        else if bottomAligned then (horizontal, bottom)
        else if centerAligned then (horizontal, center)
        else (horizontal, top)
      else if isVertical then
        let leftXs := map frame_x frames in
        let rightXs := map (fun f => frame_x f + frame_width f) frames in
        let centerXs :=
          map (fun f => frame_x f + frame_width f / 2) frames in
        let leftAligned := aligned leftXs (hd 0 leftXs) in
        let rightAligned := aligned rightXs (hd 0 rightXs) in
        let centerAligned := aligned centerXs (average centerXs) in
        if leftAligned then (vertical, left)
        else if rightAligned then (vertical, right)
        else if centerAligned then (vertical, center)
        else (vertical, left)
      else (maintain, top)
  end.

End Classifier.

(* ------------------------------------------------------------------ *)
(** ** The arrangement functions

    The array [frames] is the store of the frame objects: the object at
    index [i].  [sortedFrames] is a second array of the same objects, here
    a list of indices, each with the frame as it was read when the array
    was built.  The loop writes [x] and [y] of the object at its index and
    reads its [width] and [height], which nothing writes. *)

Module Arrange.

Definition indexed (frames : list PositionedNode)
  : list (nat * PositionedNode) :=
  combine (seq 0 (length frames)) frames.

(** [[...frames].sort((a, b) => a.x - b.x)]. *)
Definition sortedByX (frames : list PositionedNode)
  : list (nat * PositionedNode) :=
  JS.Array_sort (fun a b => frame_x (snd a) - frame_x (snd b))
                (indexed frames).

(** [[...frames].sort((a, b) => a.y - b.y)]. *)
Definition sortedByY (frames : list PositionedNode)
  : list (nat * PositionedNode) :=
  JS.Array_sort (fun a b => frame_y (snd a) - frame_y (snd b))
                (indexed frames).

(** The alignment argument is a cast of [msg.alignment]: a value that is
    neither ['top'] nor ['center'] takes the last branch. *)
Definition arrangeFramesHorizontal (frames : list PositionedNode)
    (spacing startX startY : Q) (alignment : Alignment)
  : list PositionedNode :=
  let sortedFrames := sortedByX frames in
  match JS.Math_max (map (fun e => frame_height (snd e)) sortedFrames) with
  | None => frames
  | Some maxHeight =>
      let baseY :=
        match alignment with
        | top => startY
        | center => startY + maxHeight / 2
        | _ => startY + maxHeight
        end in
      fst (fold_left
             (fun (st : list PositionedNode * Q) (e : nat * PositionedNode) =>
                (JS.write (fst e)
                   (mkFrame (snd st)
                      match alignment with
                      | top => baseY
                      | center => baseY - frame_height (snd e) / 2
                      | _ => baseY - frame_height (snd e)
                      end
                      (frame_width (snd e)) (frame_height (snd e)))
                   (fst st),
                 snd st + (frame_width (snd e) + spacing)))
             sortedFrames (frames, startX))
  end.

Definition arrangeFramesVertical (frames : list PositionedNode)
    (spacing startX startY : Q) (alignment : Alignment)
  : list PositionedNode :=
  let sortedFrames := sortedByY frames in
  match JS.Math_max (map (fun e => frame_width (snd e)) sortedFrames) with
  | None => frames
  | Some maxWidth =>
      let baseX :=
        match alignment with
        | left => startX
        | center => startX + maxWidth / 2
        | _ => startX + maxWidth
        end in
      fst (fold_left
             (fun (st : list PositionedNode * Q) (e : nat * PositionedNode) =>
                (JS.write (fst e)
                   (mkFrame
                      match alignment with
                      | left => baseX
                      | center => baseX - frame_width (snd e) / 2
                      | _ => baseX - frame_width (snd e)
                      end
                      (snd st)
                      (frame_width (snd e)) (frame_height (snd e)))
                   (fst st),
                 snd st + (frame_height (snd e) + spacing)))
             sortedFrames (frames, startY))
  end.

(** [arrangeFramesMaintain] moves nothing. *)
Definition arrangeFramesMaintain (frames : list PositionedNode)
    (spacing : Q) : list PositionedNode := frames.

(** The sorted array after the loop: the objects of [sortedFrames], read
    again. *)
Definition readAll (frames : list PositionedNode) (indices : list nat)
  : list PositionedNode :=
  flat_map (fun i => match nth_error frames i with
                     | Some f => [f]
                     | None => []
                     end) indices.

End Arrange.

(* ------------------------------------------------------------------ *)
(** ** Sections *)

Module Sections.
Import Geometry Arrange.

Inductive NodeType : Type := SECTION | FRAME | GROUP | OTHER.

(** The string that [getPluginData('autosection-settings')] returns, by
    what the code does with it: the empty string, a string on which
    [JSON.parse] throws, or the writing of a settings object
    ([JSON.stringify] of one). *)
Inductive PluginData : Type :=
| noData
| unreadable
| storedSettings (settings : Settings).

(** A scene node.  [hasPositionAndSize] tells whether [x], [y], [width]
    and [height] are numbers; [geometry] holds them. *)
#[warnings="-register-all"]
Inductive SceneNode : Type := mkNode
  { node_type : NodeType;
    hasPositionAndSize : bool;
    geometry : PositionedNode;
    pluginData : PluginData;
    children : list SceneNode }.

Definition findFramesInSection (section : SceneNode) : list SceneNode :=
  filter hasPositionAndSize (children section).

Definition setGeometry (node : SceneNode) (g : PositionedNode) : SceneNode :=
  mkNode (node_type node) (hasPositionAndSize node) g (pluginData node)
         (children node).

(** The branch on [msg.layout]. *)
Definition arrange (msg : Settings) (frames : list PositionedNode)
    (minX minY : Q) : list PositionedNode :=
  match layout msg with
  | horizontal =>
      arrangeFramesHorizontal frames (spacing msg) minX minY (alignment msg)
  | vertical =>
      arrangeFramesVertical frames (spacing msg) minX minY (alignment msg)
  | maintain => arrangeFramesMaintain frames (spacing msg)
  end.

(** [(frame.x - newMinX) + msg.padding.left] and the same for [y]. *)
Definition relativeTo (msg : Settings) (newMinX newMinY : Q)
    (frame : PositionedNode) : PositionedNode :=
  mkFrame ((frame_x frame - newMinX) + pad_left (padding msg))
          ((frame_y frame - newMinY) + pad_top (padding msg))
          (frame_width frame) (frame_height frame).

(** The loop for [maxRelativeX] and [maxRelativeY], both from 0. *)
Definition maxRelative (relative : list PositionedNode) : Q * Q :=
  fold_left
    (fun m f => (Qmax (fst m) (frame_x f + frame_width f),
                 Qmax (snd m) (frame_y f + frame_height f)))
    relative (0, 0).

(** What [createSection] and [updateSection] both do with the frames in
    absolute coordinates: the box of the section and the frames relative
    to it.  [None] stands for the empty array, which both functions
    refuse before; the arrangement keeps the length of the array. *)
Definition fitSection (msg : Settings) (frames : list PositionedNode)
  : option (PositionedNode * list PositionedNode) :=
  match frames with
  | [] => None
  | first :: rest =>
      let b := boundingBox first rest in
      match arrange msg frames (minX b) (minY b) with
      | [] => None
      | moved :: others =>
          let nb := boundingBox moved others in
          let relative :=
            map (relativeTo msg (minX nb) (minY nb)) (moved :: others) in
          let m := maxRelative relative in
          Some (mkFrame (minX nb - pad_left (padding msg))
                        (minY nb - pad_top (padding msg))
                        (fst m + pad_right (padding msg))
                        (snd m + pad_bottom (padding msg)),
                relative)
      end
  end.

Definition withGeometry (nodes : list SceneNode)
    (geometries : list PositionedNode) : list SceneNode :=
  map (fun ng => setGeometry (fst ng) (snd ng)) (combine nodes geometries).

(** [createSection], as the section it creates from the selected nodes;
    [None] where it notifies and closes.  Leaving the former parents and
    joining the page are not part of this value. *)
Definition createSection (selection : list SceneNode) (msg : Settings)
  : option SceneNode :=
  let frames := filter hasPositionAndSize selection in
  match fitSection msg (map geometry frames) with
  | None => None
  | Some (box, relative) =>
      Some (mkNode SECTION true box (storedSettings msg)
                   (withGeometry frames relative))
  end.

(** [frame.x = originalSectionX + relativeX]. *)
Definition toAbsolute (section : SceneNode) (frame : PositionedNode)
  : PositionedNode :=
  mkFrame (frame_x (geometry section) + frame_x frame)
          (frame_y (geometry section) + frame_y frame)
          (frame_width frame) (frame_height frame).

(** The body of [updateSection] on the selected section: the section
    afterwards.  Its frames leave it for its parent and come back at the
    end of its children, in their order. *)
Definition rearrange (section : SceneNode) (msg : Settings)
  : option SceneNode :=
  let frames := findFramesInSection section in
  match fitSection msg (map (toAbsolute section) (map geometry frames)) with
  | None => None
  | Some (box, relative) =>
      Some (mkNode (node_type section) (hasPositionAndSize section) box
                   (storedSettings msg)
                   (filter (fun n => negb (hasPositionAndSize n))
                           (children section)
                    ++ withGeometry frames relative))
  end.

End Sections.

(* ------------------------------------------------------------------ *)
(** ** The document and the commands *)

Module Plugin.
Import Geometry Sections.

(** A node of the page, by the indices that lead to it, the innermost
    first: the tail of a path is the parent, and [[]] is the page. *)
Definition Path : Type := list nat.

Fixpoint descend (nodes : list SceneNode) (route : list nat)
  : option SceneNode :=
  match route with
  | [] => None
  | i :: rest =>
      match nth_error nodes i with
      | None => None
      | Some n =>
          match rest with
          | [] => Some n
          | _ :: _ => descend (children n) rest
          end
      end
  end.

Definition nodeAt (page : list SceneNode) (path : Path) : option SceneNode :=
  descend page (rev path).

Fixpoint replaceIn (nodes : list SceneNode) (route : list nat)
    (new : SceneNode) : list SceneNode :=
  match route with
  | [] => nodes
  | i :: rest =>
      match nth_error nodes i with
      | None => nodes
      | Some n =>
          match rest with
          | [] => JS.write i new nodes
          | _ :: _ =>
              JS.write i
                (mkNode (node_type n) (hasPositionAndSize n) (geometry n)
                        (pluginData n) (replaceIn (children n) rest new))
                nodes
          end
      end
  end.

Definition replaceAt (page : list SceneNode) (path : Path)
    (new : SceneNode) : list SceneNode :=
  replaceIn page (rev path) new.

Definition isSection (n : SceneNode) : bool :=
  match node_type n with SECTION => true | _ => false end.

(** [findParentSection]: up the parents from the node, to the first
    section; the walk ends below the page. *)
Fixpoint findParentSection (page : list SceneNode) (node : Path)
  : option Path :=
  match node with
  | [] => None
  | _ :: parent =>
      match nodeAt page node with
      | None => None
      | Some current =>
          if isSection current then Some node
          else findParentSection page parent
      end
  end.

(** The state the commands read and write: the children of the current
    page, the selection and the variable [originalSelectionToRestore]. *)
Record Figma : Type := mkFigma
  { page : list SceneNode;
    selection : list Path;
    originalSelectionToRestore : option (list Path) }.

(** The notifications after which a command closes the plugin, under the
    name of the error where the specification has one. *)
Inductive Notice : Type :=
| SelectExactlyOne            (* 'Please select exactly one element' *)
| NotASectionOrContained      (* 'Selected element is not inside a Section' *)
| NoElementsInSection         (* 'No elements with position and size ...' *)
| NoStoredConfiguration       (* 'Refresh is only available for sections
                                 created or updated with AutoSection' *)
| MalformedStoredConfiguration (* 'Error reading stored settings. Please
                                  update the section first.' *)
| SelectASection              (* 'Please select a Section to update' *)
| SectionUpdated (frames : nat). (* 'Section updated with n frame(s)' *)

(** The [init] message of [handleUpdateSection] to the UI. *)
Record InitMessage : Type := mkInit
  { detectedSpacing : option Q;
    currentPadding : Padding;
    detectedLayout : Layout;
    detectedAlignment : Alignment }.

Inductive Outcome : Type :=
| closed (notice : Notice)
| posted (init : InitMessage).

(** The section a command works on: the selected node when it is a
    section, else [findParentSection] of it. *)
Definition targetSection (page : list SceneNode) (selectedNode : Path)
  : option Path :=
  match nodeAt page selectedNode with
  | None => None
  | Some n =>
      if isSection n then Some selectedNode
      else findParentSection page selectedNode
  end.

(** [updateSection(msg)]. *)
Definition updateSection (figma : Figma) (msg : Settings)
  : Outcome * Figma :=
  match selection figma with
  | [selected] =>
      match nodeAt (page figma) selected with
      | Some section =>
          if isSection section then
            match rearrange section msg with
            | None => (closed NoElementsInSection, figma)
            | Some section' =>
                (closed (SectionUpdated
                           (length (findFramesInSection section))),
                 mkFigma (replaceAt (page figma) selected section')
                         (selection figma) None)
            end
          else (closed SelectASection, figma)
      | None => (closed SelectASection, figma)
      end
  | _ => (closed SelectASection, figma)
  end.

(** [handleRefreshSection]. *)
Definition handleRefreshSection (figma : Figma) : Outcome * Figma :=
  match selection figma with
  | [selectedNode] =>
      let figma1 :=
        mkFigma (page figma) (selection figma) (Some [selectedNode]) in
      match targetSection (page figma) selectedNode with
      | None => (closed NotASectionOrContained, figma1)
      | Some sectionPath =>
          let figma2 :=
            mkFigma (page figma) [sectionPath] (Some [selectedNode]) in
          match nodeAt (page figma) sectionPath with
          | None => (closed NotASectionOrContained, figma1)
          | Some section =>
              match pluginData section with
              | noData => (closed NoStoredConfiguration, figma2)
              | unreadable => (closed MalformedStoredConfiguration, figma2)
              | storedSettings stored =>
                  match findFramesInSection section with
                  | [] => (closed NoElementsInSection, figma2)
                  | _ :: _ => updateSection figma2 stored
                  end
              end
          end
      end
  | _ => (closed SelectExactlyOne, figma)
  end.

Definition absoluteFrames (section : SceneNode) (frames : list SceneNode)
  : list PositionedNode :=
  map (fun frame => toAbsolute section (geometry frame)) frames.

(** The padding read off the section: from each side of the frames to
    the side of the section, not below 0, rounded. *)
Definition detectPadding (section : SceneNode) (first : SceneNode)
    (rest : list SceneNode) : Padding :=
  let b := boundingBox (geometry first) (map geometry rest) in
  let rounded (v : Q) := inject_Z (JS.Math_round v) in
  mkPadding
    (rounded (Qmax 0 (minY b)))
    (rounded (Qmax 0 (frame_width (geometry section) - maxX b)))
    (rounded (Qmax 0 (frame_height (geometry section) - maxY b)))
    (rounded (Qmax 0 (minX b))).

(** [handleUpdateSection]. *)
Definition handleUpdateSection (figma : Figma) : Outcome * Figma :=
  match selection figma with
  | [selectedNode] =>
      let figma1 :=
        mkFigma (page figma) (selection figma) (Some [selectedNode]) in
      match targetSection (page figma) selectedNode with
      | None => (closed NotASectionOrContained, figma1)
      | Some sectionPath =>
          let figma2 :=
            mkFigma (page figma) [sectionPath] (Some [selectedNode]) in
          match nodeAt (page figma) sectionPath with
          | None => (closed NotASectionOrContained, figma1)
          | Some section =>
              match findFramesInSection section with
              | [] => (closed NoElementsInSection, figma2)
              | first :: rest =>
                  let frames := first :: rest in
                  match pluginData section with
                  | storedSettings stored =>
                      (posted (mkInit (Some (spacing stored))
                                      (padding stored) (layout stored)
                                      (alignment stored)),
                       figma2)
                  | _ =>
                      let absolute := absoluteFrames section frames in
                      let detected :=
                        Classifier.detectLayoutAndAlignment absolute in
                      (posted (mkInit
                                 (option_map inject_Z
                                    (Spacing.detectSpacing absolute))
                                 (detectPadding section first rest)
                                 (fst detected) (snd detected)),
                       figma2)
                  end
              end
          end
      end
  | _ => (closed SelectExactlyOne, figma)
  end.

End Plugin.

(* ------------------------------------------------------------------ *)
(** ** Presets

    The presets are one array under one key of [figma.clientStorage].
    [getAsync] gives what is stored, or [undefined] when nothing was
    stored, or throws; [setAsync] stores or throws.  Whether they throw is
    part of the state of the storage. *)

Module Presets.

Record Preset : Type := mkPreset
  { preset_id : String.string;
    preset_name : String.string;
    preset_settings : Settings }.

Record ClientStorage : Type := mkStorage
  { stored : option (list Preset);
    getThrows : bool;
    setThrows : bool }.

(** [figma.clientStorage.getAsync(PRESETS_STORAGE_KEY)]; [None] where it
    throws. *)
Definition getAsync (storage : ClientStorage) : option (option (list Preset)) :=
  if getThrows storage then None else Some (stored storage).

(** [figma.clientStorage.setAsync(PRESETS_STORAGE_KEY, presets)]; [None]
    where it throws. *)
Definition setAsync (storage : ClientStorage) (presets : list Preset)
  : option ClientStorage :=
  if setThrows storage then None
  else Some (mkStorage (Some presets) (getThrows storage) (setThrows storage)).

(** [getPresets]: [stored || []], and [[]] when reading throws. *)
Definition getPresets (storage : ClientStorage) : list Preset :=
  match getAsync storage with
  | Some (Some presets) => presets
  | Some None => []
  | None => []
  end.

Definition hasId (id : String.string) (p : Preset) : bool :=
  String.eqb (preset_id p) id.

(** [presets.findIndex(p => p.id === id)]; [None] for [-1]. *)
Fixpoint findIndex (id : String.string) (presets : list Preset) : option nat :=
  match presets with
  | [] => None
  | p :: rest =>
      if hasId id p then Some O
      else match findIndex id rest with
           | Some i => Some (S i)
           | None => None
           end
  end.

(** [savePreset]; [None] where it throws. *)
Definition savePreset (storage : ClientStorage) (preset : Preset)
  : option ClientStorage :=
  let presets := getPresets storage in
  setAsync storage
    match findIndex (preset_id preset) presets with
    | Some existingIndex => JS.write existingIndex preset presets
    | None => presets ++ [preset]
    end.

(** [deletePreset]; [None] where it throws. *)
Definition deletePreset (storage : ClientStorage) (presetId : String.string)
  : option ClientStorage :=
  setAsync storage
    (filter (fun p => negb (hasId presetId p)) (getPresets storage)).

(** [getPreset]: [presets.find(p => p.id === presetId) || null]. *)
Definition getPreset (storage : ClientStorage) (presetId : String.string)
  : option Preset :=
  find (hasId presetId) (getPresets storage).

(** What the handlers post to the UI. *)
Inductive PresetError : Type :=
| FailedToSave | PresetNotFound | FailedToDelete | FailedToUpdate.

Inductive PresetMessage : Type :=
| presetSaved (preset : Preset)
| presetLoaded (preset : Preset)
| presetDeleted (presetId : String.string)
| presetUpdated (preset : Preset)
| presetsList (presets : list Preset)
| presetError (error : PresetError).

(** The [save-preset] branch of [figma.ui.onmessage]; [id] is the
    identifier it makes from the clock and a random number. *)
Definition onSavePreset (storage : ClientStorage) (id name : String.string)
    (settings : Settings) : PresetMessage * ClientStorage :=
  let preset := mkPreset id name settings in
  match savePreset storage preset with
  | Some storage' => (presetSaved preset, storage')
  | None => (presetError FailedToSave, storage)
  end.

(** The [load-preset] branch. *)
Definition onLoadPreset (storage : ClientStorage) (presetId : String.string)
  : PresetMessage :=
  match getPreset storage presetId with
  | Some preset => presetLoaded preset
  | None => presetError PresetNotFound
  end.

(** The [delete-preset] branch. *)
Definition onDeletePreset (storage : ClientStorage)
    (presetId : String.string) : PresetMessage * ClientStorage :=
  match deletePreset storage presetId with
  | Some storage' => (presetDeleted presetId, storage')
  | None => (presetError FailedToDelete, storage)
  end.

(** The [update-preset] branch: [{...existingPreset, padding, spacing,
    layout, alignment}]. *)
Definition onUpdatePreset (storage : ClientStorage)
    (presetId : String.string) (settings : Settings)
  : PresetMessage * ClientStorage :=
  match getPreset storage presetId with
  | None => (presetError PresetNotFound, storage)
  | Some existingPreset =>
      let updatedPreset :=
        mkPreset (preset_id existingPreset) (preset_name existingPreset)
                 settings in
      match savePreset storage updatedPreset with
      | Some storage' => (presetUpdated updatedPreset, storage')
      | None => (presetError FailedToUpdate, storage)
      end
  end.

(** The [list-presets] branch. *)
Definition onListPresets (storage : ClientStorage) : PresetMessage :=
  presetsList (getPresets storage).

End Presets.

(* ------------------------------------------------------------------ *)
(** ** [handleCreateSection] *)

Module Create.
Import Sections.

(** The [init] message in mode [create]. *)
Record CreateInit : Type := mkCreateInit
  { createSpacing : option Q;
    createLayout : Layout;
    createAlignment : Alignment }.

Inductive CreateOutcome : Type :=
| selectAFrame          (* 'Please select at least one frame' *)
| selectAnElement       (* 'Please select at least one element with
                           position and size' *)
| createPosted (init : CreateInit).

Definition handleCreateSection (selection : list SceneNode) : CreateOutcome :=
  match selection with
  | [] => selectAFrame
  | _ :: _ =>
      match filter hasPositionAndSize selection with
      | [] => selectAnElement
      | frames =>
          let geometries := map geometry frames in
          let detected := Classifier.detectLayoutAndAlignment geometries in
          createPosted
            (mkCreateInit
               (option_map inject_Z (Spacing.detectSpacing geometries))
               (fst detected) (snd detected))
      end
  end.

End Create.

(* ------------------------------------------------------------------ *)
(** ** [findAllSectionsWithSettings] *)

Module Batch.
Import Sections Plugin.

(** The entry that [findSections] pushes for a node: the node, by its
    path, with its parsed settings, when it is a section whose stored
    data is not empty and can be parsed. *)
Definition entryOf (path : Path) (node : SceneNode)
  : list (Path * Settings) :=
  match node_type node, pluginData node with
  | SECTION, storedSettings settings => [(path, settings)]
  | _, _ => []
  end.

(** The inner function [findSections]: the node first, then its children
    in their order, each with all that is below it. *)
Fixpoint findSections (path : Path) (node : SceneNode) {struct node}
  : list (Path * Settings) :=
  entryOf path node
  ++ (fix each (i : nat) (kids : list SceneNode) {struct kids}
        : list (Path * Settings) :=
        match kids with
        | [] => []
        | child :: others =>
            findSections (i :: path) child ++ each (S i) others
        end) O (children node).

(** The loop [for (const child of node.children) findSections(child)],
    from the child of index [i] on. *)
Fixpoint eachFrom (path : Path) (i : nat) (kids : list SceneNode)
  : list (Path * Settings) :=
  match kids with
  | [] => []
  | child :: others =>
      findSections (i :: path) child ++ eachFrom path (S i) others
  end.

Definition findAllSectionsWithSettings (page : list SceneNode)
  : list (Path * Settings) :=
  eachFrom [] O page.

End Batch.

(* ------------------------------------------------------------------ *)
(** ** The arrangement on doubles

    The numbers of the code are IEEE 754 doubles.  Here the two
    arrangement loops are written again with the kernel's binary64
    numbers, every [+], [-] and [/] rounding as in the code: what is said
    of them below holds of the code on every input, fractions and
    infinities included, and what fails of the code on fractions fails
    here. *)

Module Doubles.
Import PrimFloat.

Record PositionedNode : Type := mkFrame
  { frame_x : float;
    frame_y : float;
    frame_width : float;
    frame_height : float }.

(** [v > 0] for the value that a comparator returned; false on [NaN]. *)
Definition positive (v : float) : bool := (0 <? v)%float.

Section Sort.
Context {A : Type}.
Variable compareFn : A -> A -> float.

Fixpoint insert (a : A) (l : list A) : list A :=
  match l with
  | [] => [a]
  | b :: l' =>
      if positive (compareFn a b) then b :: insert a l' else a :: b :: l'
  end.

(** [Array.prototype.sort(compareFn)], stable: an element goes behind
    those that follow it only where the comparator is positive.  With a
    comparator that orders the elements this is the result of every
    stable sort. *)
Fixpoint Array_sort (l : list A) : list A :=
  match l with
  | [] => []
  | a :: l' => insert a (Array_sort l')
  end.
End Sort.

(** [Math.max] of two numbers: [NaN] when one is, and [+0] above [-0]. *)
Definition max2 (a b : float) : float :=
  if is_nan a || is_nan b then nan
  else if (a <? b)%float then b
  else if (b <? a)%float then a
  else if is_zero a && get_sign a then b
  else a.

(** [Math.max(...l)]; [-Infinity] on the empty list. *)
Definition Math_max (l : list float) : float :=
  fold_left max2 l neg_infinity.

Definition indexed {F : Type} (frames : list F) : list (nat * F) :=
  combine (seq 0 (length frames)) frames.

(** [[...frames].sort((a, b) => a.x - b.x)]. *)
Definition sortedByX (frames : list PositionedNode)
  : list (nat * PositionedNode) :=
  Array_sort (fun a b => (frame_x (snd a) - frame_x (snd b))%float)
             (indexed frames).

(** [[...frames].sort((a, b) => a.y - b.y)]. *)
Definition sortedByY (frames : list PositionedNode)
  : list (nat * PositionedNode) :=
  Array_sort (fun a b => (frame_y (snd a) - frame_y (snd b))%float)
             (indexed frames).

Definition arrangeFramesHorizontal (frames : list PositionedNode)
    (spacing startX startY : float) (alignment : Alignment)
  : list PositionedNode :=
  let sortedFrames := sortedByX frames in
  let maxHeight :=
    Math_max (map (fun e => frame_height (snd e)) sortedFrames) in
  let baseY :=
    match alignment with
    | top => startY
    | center => (startY + maxHeight / 2)%float
    | _ => (startY + maxHeight)%float
    end in
  fst (fold_left
         (fun (st : list PositionedNode * float) (e : nat * PositionedNode) =>
            (JS.write (fst e)
               (mkFrame (snd st)
                  match alignment with
                  | top => baseY
                  | center => (baseY - frame_height (snd e) / 2)%float
                  | _ => (baseY - frame_height (snd e))%float
                  end
                  (frame_width (snd e)) (frame_height (snd e)))
               (fst st),
             (snd st + (frame_width (snd e) + spacing))%float))
         sortedFrames (frames, startX)).

Definition arrangeFramesVertical (frames : list PositionedNode)
    (spacing startX startY : float) (alignment : Alignment)
  : list PositionedNode :=
  let sortedFrames := sortedByY frames in
  let maxWidth :=
    Math_max (map (fun e => frame_width (snd e)) sortedFrames) in
  let baseX :=
    match alignment with
    | left => startX
    | center => (startX + maxWidth / 2)%float
    | _ => (startX + maxWidth)%float
    end in
  fst (fold_left
         (fun (st : list PositionedNode * float) (e : nat * PositionedNode) =>
            (JS.write (fst e)
               (mkFrame
                  match alignment with
                  | left => baseX
                  | center => (baseX - frame_width (snd e) / 2)%float
                  | _ => (baseX - frame_width (snd e))%float
                  end
                  (snd st)
                  (frame_width (snd e)) (frame_height (snd e)))
               (fst st),
             (snd st + (frame_height (snd e) + spacing))%float))
         sortedFrames (frames, startY)).

(** The frames of an array at given indices. *)
Definition readAll {F : Type} (frames : list F) (indices : list nat)
  : list F :=
  flat_map (fun i => match nth_error frames i with
                     | Some f => [f]
                     | None => []
                     end) indices.



End Doubles.

(* ------------------------------------------------------------------ *)
(** ** Facts about the host operations *)

Lemma ltb_true_iff (a b : Q) : JS.ltb a b = true <-> a < b.
Proof.
  unfold JS.ltb. rewrite negb_true_iff.
  destruct (Qle_bool b a) eqn:E.
  - apply Qle_bool_iff in E. split; [discriminate | intro H; lra].
  - split; [intros _ | reflexivity].
    destruct (Qlt_le_dec a b) as [Hlt | Hle]; [exact Hlt |].
    apply Qle_bool_iff in Hle. congruence.
Qed.

Lemma ltb_false_iff (a b : Q) : JS.ltb a b = false <-> b <= a.
Proof.
  destruct (JS.ltb a b) eqn:E.
  - apply ltb_true_iff in E. split; [discriminate | intro H; lra].
  - split; [intros _ | reflexivity].
    destruct (Qlt_le_dec a b) as [Hlt | Hle]; [| exact Hle].
    apply ltb_true_iff in Hlt. congruence.
Qed.

Lemma leb_true_iff (a b : Q) : JS.leb a b = true <-> a <= b.
Proof. unfold JS.leb. apply Qle_bool_iff. Qed.


Lemma num_le (n m : nat) : JS.num n <= JS.num m <-> (n <= m)%nat.
Proof.
  unfold JS.num. rewrite <- Zle_Qle. lia.
Qed.

Lemma num_lt (n m : nat) : JS.num n < JS.num m <-> (n < m)%nat.
Proof.
  unfold JS.num. rewrite <- Zlt_Qlt. lia.
Qed.

(* ------------------------------------------------------------------ *)
(** ** The merged gaps are never negative *)

Module SpacingFacts.
Import Spacing.

Lemma nonNegative_In (l : list Q) (s : Q) :
  In s (nonNegative l) <-> In s l /\ 0 <= s.
Proof.
  unfold nonNegative. rewrite filter_In, leb_true_iff. reflexivity.
Qed.

Lemma rowSpacings_nonneg (row : list PositionedNode) (s : Q) :
  In s (rowSpacings row) -> 0 <= s.
Proof.
  unfold rowSpacings. destruct (length row <? 2)%nat; [intros [] |].
  intro H. apply nonNegative_In in H. tauto.
Qed.

Lemma rowGap_nonneg (r1 r2 : list PositionedNode) (s : Q) :
  In s (rowGap r1 r2) -> 0 <= s.
Proof.
  unfold rowGap.
  destruct (JS.Math_max _); [| intros []].
  destruct (JS.Math_min _); [| intros []].
  intro H. apply nonNegative_In in H. tauto.
Qed.

Lemma verticalSpacings_nonneg (rows : list (list PositionedNode)) (s : Q) :
  In s (verticalSpacings rows) -> 0 <= s.
Proof.
  induction rows as [| r1 [| r2 rows'] IH]; simpl; try tauto.
  rewrite in_app_iff. intros [H | H].
  - eapply rowGap_nonneg; eassumption.
  - apply IH. exact H.
Qed.

Lemma allSpacings_nonneg (frames : list PositionedNode) (s : Q) :
  In s (allSpacings frames) -> 0 <= s.
Proof.
  unfold allSpacings, horizontalSpacings. rewrite in_app_iff.
  intros [H | H].
  - apply in_flat_map in H. destruct H as (row & _ & H).
    eapply rowSpacings_nonneg; eassumption.
  - eapply verticalSpacings_nonneg; eassumption.
Qed.

End SpacingFacts.

(** C1.  When [detectSpacing] gets at least two rectangles whose merged gap
    list is not empty and has every gap within 2 units of its first gap, it
    returns that first gap rounded to the nearest integer; the first gap
    may be 0. *)
Theorem detectSpacing_uniform (frames : list PositionedNode)
    (g : Q) (rest : list Q) :
  (2 <= length frames)%nat ->
  Spacing.allSpacings frames = g :: rest ->
  Forall (fun s => Qabs (s - g) <= 2) (g :: rest) ->
  Spacing.detectSpacing frames = Some (JS.Math_round g).
Proof.
  intros Hlen Hgaps Huniform.
  unfold Spacing.detectSpacing.
  destruct (Nat.ltb_spec (length frames) 2) as [Hlt | _]; [lia |].
  rewrite Hgaps. unfold Spacing.pickSpacing.
  assert (Heven : Spacing.isEven (g :: rest) g = true).
  { unfold Spacing.isEven. apply forallb_forall. intros s Hs.
    apply leb_true_iff. rewrite Forall_forall in Huniform.
    apply Huniform. exact Hs. }
  assert (Hpos : JS.leb 0 g = true).
  { apply leb_true_iff. apply (SpacingFacts.allSpacings_nonneg frames).
    rewrite Hgaps. left. reflexivity. }
  rewrite Heven, Hpos. reflexivity.
Qed.

Lemma detectSpacing_uniform_witness :
  Spacing.detectSpacing
    [mkFrame 0 0 100 100; mkFrame 110 0 100 100; mkFrame 220 0 100 100]
  = Some 10%Z.
Proof.
  apply (detectSpacing_uniform
           [mkFrame 0 0 100 100; mkFrame 110 0 100 100; mkFrame 220 0 100 100]
           10 [10]).
  - simpl. lia.
  - reflexivity.
  - repeat constructor; vm_compute; discriminate.
Defined.

(* ------------------------------------------------------------------ *)
(** ** The rows of [detectSpacing] *)

Module Rows.
Import Spacing.

(** [f] is in the row whose first member is [f0]: the test of the loop. *)
Definition within (f0 f : PositionedNode) : Prop :=
  Qabs (frame_y f - frame_y f0) < 10.

(** Rows as one pass leaves them: each row has a first member, every other
    member passes the test against it, and the first member of the next
    row fails the test against it. *)
Inductive RowsByReference : list (list PositionedNode) -> Prop :=
| rows_none : RowsByReference []
| rows_last (f0 : PositionedNode) (members : list PositionedNode) :
    Forall (within f0) members ->
    RowsByReference [f0 :: members]
| rows_next (f0 : PositionedNode) (members : list PositionedNode)
    (f1 : PositionedNode) (members1 : list PositionedNode)
    (rows : list (list PositionedNode)) :
    Forall (within f0) members ->
    ~ within f0 f1 ->
    RowsByReference ((f1 :: members1) :: rows) ->
    RowsByReference ((f0 :: members) :: (f1 :: members1) :: rows).

(** The loop without its list of closed rows. *)
Fixpoint rowsFrom (f0 : PositionedNode) (members l : list PositionedNode)
  : list (list PositionedNode) :=
  match l with
  | [] => [f0 :: members]
  | f :: rest =>
      if JS.ltb (Qabs (frame_y f - frame_y f0)) 10
      then rowsFrom f0 (members ++ [f]) rest
      else (f0 :: members) :: rowsFrom f [] rest
  end.

Lemma groupLoop_rowsFrom (l : list PositionedNode) :
  forall rows f0 members,
    groupLoop l rows (f0 :: members) (frame_y f0)
    = rows ++ rowsFrom f0 members l.
Proof.
  induction l as [| f rest IH]; intros rows f0 members; simpl.
  - reflexivity.
  - destruct (JS.ltb (Qabs (frame_y f - frame_y f0)) 10).
    + apply (IH rows f0 (members ++ [f])).
    + rewrite (IH (rows ++ [f0 :: members]) f []).
      rewrite <- app_assoc. reflexivity.
Qed.

Lemma groupRows_rowsFrom (f : PositionedNode) (rest : list PositionedNode) :
  groupRows (f :: rest) = rowsFrom f [] rest.
Proof.
  unfold groupRows. simpl.
  assert (H : JS.ltb (Qabs (frame_y f - frame_y f)) 10 = true).
  { apply ltb_true_iff.
    setoid_replace (frame_y f - frame_y f) with 0 by ring.
    reflexivity. }
  rewrite H. apply (groupLoop_rowsFrom rest [] f []).
Qed.

Lemma rowsFrom_concat (l : list PositionedNode) :
  forall f0 members, concat (rowsFrom f0 members l) = f0 :: members ++ l.
Proof.
  induction l as [| f rest IH]; intros f0 members; simpl.
  - rewrite app_nil_r. reflexivity.
  - destruct (JS.ltb (Qabs (frame_y f - frame_y f0)) 10); simpl.
    + rewrite IH, <- app_assoc. reflexivity.
    + rewrite IH. reflexivity.
Qed.

Lemma rowsFrom_head (l : list PositionedNode) :
  forall f0 members,
    exists members' rows, rowsFrom f0 members l = (f0 :: members') :: rows.
Proof.
  induction l as [| f rest IH]; intros f0 members; simpl.
  - eauto.
  - destruct (JS.ltb (Qabs (frame_y f - frame_y f0)) 10); eauto.
Qed.

Lemma rowsFrom_byReference (l : list PositionedNode) :
  forall f0 members,
    Forall (within f0) members ->
    RowsByReference (rowsFrom f0 members l).
Proof.
  induction l as [| f rest IH]; intros f0 members Hmem; simpl.
  - constructor. exact Hmem.
  - destruct (JS.ltb (Qabs (frame_y f - frame_y f0)) 10) eqn:E.
    + apply IH. apply Forall_app. split; [exact Hmem |].
      constructor; [| constructor]. apply ltb_true_iff in E. exact E.
    + destruct (rowsFrom_head rest f []) as (members' & rows & Heq).
      specialize (IH f [] (Forall_nil _)). rewrite Heq in *.
      constructor; [exact Hmem | | exact IH].
      apply ltb_false_iff in E. unfold within. lra.
Qed.

Lemma rowsFrom_nonempty (l row : list PositionedNode) :
  forall f0 members, In row (rowsFrom f0 members l) -> row <> [].
Proof.
  induction l as [| f rest IH]; intros f0 members; simpl.
  - intros [<- | []]. discriminate.
  - destruct (JS.ltb (Qabs (frame_y f - frame_y f0)) 10).
    + apply IH.
    + intros [<- | H]; [discriminate | eapply IH; eassumption].
Qed.

Lemma groupRows_nonempty (sorted row : list PositionedNode) :
  In row (groupRows sorted) -> row <> [].
Proof.
  destruct sorted as [| f rest]; [intros [] |].
  rewrite groupRows_rowsFrom. apply rowsFrom_nonempty.
Qed.

(** *** The claim in the words of the specification *)

(** The order of [(y, x)]: by [y], and by [x] where the [y] are equal. *)
Definition yxCompare (a b : PositionedNode) : Q :=
  if Qeq_bool (frame_y a) (frame_y b)
  then frame_x a - frame_x b
  else frame_y a - frame_y b.

(** Rows where "within 10 units" lets a distance of exactly 10 in. *)
Fixpoint rowsWithin10 (f0 : PositionedNode) (members l : list PositionedNode)
  : list (list PositionedNode) :=
  match l with
  | [] => [f0 :: members]
  | f :: rest =>
      if JS.leb (Qabs (frame_y f - frame_y f0)) 10
      then rowsWithin10 f0 (members ++ [f]) rest
      else (f0 :: members) :: rowsWithin10 f [] rest
  end.

Definition rowsAsStated (frames : list PositionedNode)
  : list (list PositionedNode) :=
  match JS.Array_sort yxCompare frames with
  | [] => []
  | f :: rest => rowsWithin10 f [] rest
  end.

End Rows.

(** C8, as the code has it.  The rows of [detectSpacing] are made in one
    pass over the rectangles in the order its sort leaves them (the sort
    compares two rectangles by [x] when their [y] differ by less than 10 and
    by [y] otherwise): the rows, one after the other, are that list; a
    rectangle is in the row of the current first member exactly when its
    [y] is less than 10 units away from the [y] of that first member, and
    the first member of every later row is a rectangle that is 10 units or
    more away from the first member of the row before. *)
Theorem groupRows_single_pass (frames : list PositionedNode) :
  concat (Spacing.groupRows (Spacing.sortFrames frames))
  = Spacing.sortFrames frames
  /\ Rows.RowsByReference (Spacing.groupRows (Spacing.sortFrames frames)).
Proof.
  destruct (Spacing.sortFrames frames) as [| f rest].
  - split; [reflexivity | constructor].
  - rewrite Rows.groupRows_rowsFrom. split.
    + apply Rows.rowsFrom_concat.
    + apply Rows.rowsFrom_byReference. constructor.
Qed.

(** C8 as stated fails twice.  Two rectangles whose [y] are exactly 10 apart
    are within 10 units of each other, and the code puts them in two rows;
    and of three rectangles with [y] 0, 5 and 12 the code visits the second
    one first, keeps its [y] as the reference and makes one row of the
    three, where the order of [(y, x)] makes two rows. *)
Lemma groupRows_counterexample :
  Spacing.groupRows
    (Spacing.sortFrames [mkFrame 0 0 10 10; mkFrame 0 10 10 10])
  <> Rows.rowsAsStated [mkFrame 0 0 10 10; mkFrame 0 10 10 10]
  /\ Spacing.groupRows
       (Spacing.sortFrames
          [mkFrame 100 0 10 10; mkFrame 0 5 10 10; mkFrame 50 12 10 10])
     <> Rows.rowsAsStated
          [mkFrame 100 0 10 10; mkFrame 0 5 10 10; mkFrame 50 12 10 10].
Proof.
  split; vm_compute; discriminate.
Qed.

(* ------------------------------------------------------------------ *)
(** ** The groups of rounded gaps *)

Module Groups.
Import Spacing.

(** The members of the bucket of [k]: the gaps that round to [k]. *)
Definition bucket (k : Z) (gaps : list Q) : list Q :=
  filter (fun s => (JS.Math_round s =? k)%Z) gaps.

Definition count (k : Z) (gaps : list Q) : nat := length (bucket k gaps).

Lemma bucket_app (k : Z) (l1 l2 : list Q) :
  bucket k (l1 ++ l2) = bucket k l1 ++ bucket k l2.
Proof. apply filter_app. Qed.

Lemma hasKey_true (k : Z) (groups : Groups) :
  hasKey k groups = true <-> In k (map fst groups).
Proof.
  unfold hasKey. rewrite existsb_exists, in_map_iff. split.
  - intros (g & Hin & Heq). apply Z.eqb_eq in Heq. eauto.
  - intros (g & Heq & Hin). exists g. split; [exact Hin |].
    apply Z.eqb_eq. exact Heq.
Qed.

Lemma newKey_perm (k : Z) (s : Q) (groups : Groups) :
  Permutation (newKey k s groups) ((k, [s]) :: groups).
Proof.
  induction groups as [| [k' vs] rest IH]; simpl.
  - reflexivity.
  - destruct (isArrayIndex k && (negb (isArrayIndex k') || (k <? k')%Z)).
    + reflexivity.
    + rewrite IH. apply perm_swap.
Qed.

(** What holds of the groups after the gaps [l] have been pushed. *)
Record Built (groups : Groups) (l : list Q) : Prop := mkBuilt
  { built_nodup : NoDup (map fst groups);
    built_members :
      forall k vs, In (k, vs) groups -> vs = bucket k l /\ vs <> [];
    built_keys :
      forall s, In s l -> In (JS.Math_round s) (map fst groups);
    built_nonneg : forall k, In k (map fst groups) -> (0 <= k)%Z;
    built_zero_first :
      In 0%Z (map fst groups) ->
      exists vs rest, groups = (0%Z, vs) :: rest }.

Lemma Built_nil : Built [] [].
Proof.
  constructor; simpl; try tauto.
  constructor.
Qed.

Lemma round_nonneg (s : Q) : 0 <= s -> (0 <= JS.Math_round s)%Z.
Proof.
  intro H. unfold JS.Math_round.
  change 0%Z with (Qfloor 0). apply Qfloor_resp_le. lra.
Qed.

Lemma map_touch_keys (k : Z) (s : Q) (groups : Groups) :
  map fst
    (map (fun g : Z * list Q =>
            if (fst g =? k)%Z then (fst g, snd g ++ [s]) else g) groups)
  = map fst groups.
Proof.
  rewrite map_map. apply map_ext. intros [k' vs]; simpl.
  destruct (k' =? k)%Z; reflexivity.
Qed.

Lemma Built_push (groups : Groups) (l : list Q) (s : Q) :
  Built groups l -> 0 <= s -> Built (pushSpacing groups s) (l ++ [s]).
Proof.
  intros [Hnd Hmem Hkeys Hnn Hzero] Hs. unfold pushSpacing.
  destruct (hasKey (JS.Math_round s) groups) eqn:Ehas.
  - (* the group is there *)
    apply hasKey_true in Ehas.
    constructor.
    + rewrite map_touch_keys. exact Hnd.
    + intros k vs Hin. apply in_map_iff in Hin.
      destruct Hin as ([k' vs'] & Heq & Hin). simpl in Heq.
      destruct (Hmem k' vs' Hin) as [Hvs Hne].
      rewrite bucket_app. unfold bucket at 2. simpl.
      destruct (Z.eqb_spec k' (JS.Math_round s)) as [E | E];
        inversion Heq; subst k vs.
      * rewrite E, Z.eqb_refl. split; [rewrite Hvs, E; reflexivity |].
        intro Habs. apply app_eq_nil in Habs. destruct Habs; discriminate.
      * destruct (Z.eqb_spec (JS.Math_round s) k') as [E' | _];
          [congruence |].
        rewrite app_nil_r. split; [exact Hvs | exact Hne].
    + intros s' Hin. rewrite map_touch_keys.
      apply in_app_iff in Hin. destruct Hin as [Hin | [<- | []]].
      * apply Hkeys. exact Hin.
      * exact Ehas.
    + intros k Hin. rewrite map_touch_keys in Hin. apply Hnn. exact Hin.
    + intro Hin. rewrite map_touch_keys in Hin.
      destruct (Hzero Hin) as (vs & rest & ->). simpl.
      destruct (JS.Math_round s); do 2 eexists; reflexivity.
  - (* a new group *)
    assert (Hnew : ~ In (JS.Math_round s) (map fst groups)).
    { intro H. apply hasKey_true in H. congruence. }
    pose proof (newKey_perm (JS.Math_round s) s groups) as Hperm.
    assert (Hpermk :
      Permutation (map fst (newKey (JS.Math_round s) s groups))
                  (JS.Math_round s :: map fst groups)).
    { apply (Permutation_map fst) in Hperm. exact Hperm. }
    constructor.
    + eapply Permutation_NoDup; [symmetry; exact Hpermk |].
      constructor; assumption.
    + intros k vs Hin.
      apply (Permutation_in _ Hperm) in Hin.
      rewrite bucket_app. unfold bucket at 2. simpl.
      destruct Hin as [Heq | Hin].
      * inversion Heq; subst k vs. rewrite Z.eqb_refl.
        assert (Hempty : bucket (JS.Math_round s) l = []).
        { unfold bucket.
          destruct (filter _ l) as [| a fl] eqn:Ef; [reflexivity |].
          exfalso. apply Hnew.
          assert (Ha : In a (filter
                   (fun s0 => (JS.Math_round s0 =? JS.Math_round s)%Z) l))
            by (rewrite Ef; left; reflexivity).
          apply filter_In in Ha. destruct Ha as [Ha Hr].
          apply Z.eqb_eq in Hr. rewrite <- Hr. apply Hkeys. exact Ha. }
        rewrite Hempty. split; [reflexivity | discriminate].
      * destruct (Hmem k vs Hin) as [Hvs Hne].
        destruct (Z.eqb_spec (JS.Math_round s) k) as [E | _].
        -- exfalso. apply Hnew. rewrite E.
           apply in_map_iff. exists (k, vs). split; [reflexivity | exact Hin].
        -- rewrite app_nil_r. split; assumption.
    + intros s' Hin. apply (Permutation_in _ (Permutation_sym Hpermk)).
      apply in_app_iff in Hin. destruct Hin as [Hin | [<- | []]].
      * right. apply Hkeys. exact Hin.
      * left. reflexivity.
    + intros k Hin. apply (Permutation_in _ Hpermk) in Hin.
      destruct Hin as [<- | Hin]; [apply round_nonneg; exact Hs |].
      apply Hnn. exact Hin.
    + intro Hin. apply (Permutation_in _ Hpermk) in Hin.
      destruct groups as [| [k' vs'] rest]; simpl.
      * destruct Hin as [-> | []]. eauto.
      * destruct Hin as [E | Hin].
        -- rewrite E.
           assert (Hk' : (0 < k')%Z).
           { assert (0 <= k')%Z by (apply Hnn; left; reflexivity).
             assert (k' <> 0%Z).
             { intro E0. apply Hnew. rewrite E. left. simpl. congruence. }
             lia. }
           assert (Hcond : isArrayIndex 0
                           && (negb (isArrayIndex k') || (0 <? k')%Z)
                           = true).
           { destruct (Z.ltb_spec 0 k'); [| lia].
             rewrite orb_true_r. reflexivity. }
           rewrite Hcond. eauto.
        -- destruct (Hzero Hin) as (vs & rest' & Heq).
           inversion Heq; subst k' vs' rest'.
           assert (Hr : (0 < JS.Math_round s)%Z).
           { assert (0 <= JS.Math_round s)%Z by (apply round_nonneg; exact Hs).
             assert (JS.Math_round s <> 0%Z).
             { intro E0. apply Hnew. left. simpl. congruence. }
             lia. }
           assert (Hcond : isArrayIndex (JS.Math_round s)
                           && (negb (isArrayIndex 0)
                               || (JS.Math_round s <? 0)%Z) = false).
           { destruct (Z.ltb_spec (JS.Math_round s) 0); [lia |].
             simpl. apply andb_false_r. }
           rewrite Hcond. eauto.
Qed.

Lemma Built_fold (l2 : list Q) :
  forall groups l1,
    Built groups l1 -> Forall (fun s => 0 <= s) l2 ->
    Built (fold_left pushSpacing l2 groups) (l1 ++ l2).
Proof.
  induction l2 as [| s l2 IH]; intros groups l1 Hb Hpos; simpl.
  - rewrite app_nil_r. exact Hb.
  - inversion Hpos; subst.
    replace (l1 ++ s :: l2) with ((l1 ++ [s]) ++ l2)
      by (rewrite <- app_assoc; reflexivity).
    apply IH; [apply Built_push; assumption | assumption].
Qed.

Lemma spacingGroups_built (gaps : list Q) :
  Forall (fun s => 0 <= s) gaps -> Built (spacingGroups gaps) gaps.
Proof.
  intro H. apply (Built_fold gaps [] [] Built_nil H).
Qed.

End Groups.

(* ------------------------------------------------------------------ *)
(** ** The scans over the groups *)

Module Scan.
Import Spacing Groups.

Lemma mostCommon_keep (groups : Groups) :
  forall c o,
    (forall g, In g groups -> (length (snd g) <= c)%nat) ->
    fold_left
      (fun (acc : nat * option Z) (g : Z * list Q) =>
         if (fst acc <? length (snd g))%nat
         then (length (snd g), Some (fst g)) else acc)
      groups (c, o) = (c, o).
Proof.
  induction groups as [| g rest IH]; intros c o Hle; simpl.
  - reflexivity.
  - destruct (Nat.ltb_spec c (length (snd g))) as [Hlt | _].
    + specialize (Hle g (or_introl eq_refl)). lia.
    + apply IH. intros g' Hin. apply Hle. right. exact Hin.
Qed.

Lemma mostCommon_zero_first (vs0 : list Q) (rest : Groups) :
  vs0 <> [] ->
  (forall g, In g rest -> (length (snd g) <= length vs0)%nat) ->
  mostCommon ((0%Z, vs0) :: rest) = (length vs0, Some 0%Z).
Proof.
  intros Hne Hle. unfold mostCommon. simpl.
  destruct (Nat.ltb_spec 0 (length vs0)) as [_ | H0].
  - apply mostCommon_keep. exact Hle.
  - destruct vs0; [congruence | simpl in H0; lia].
Qed.

(** The test of the scan of the 20% branch on one group. *)
Definition qualifies (total : nat) (g : Z * list Q) : bool :=
  (0 <? fst g)%Z && (2 <=? length (snd g))%nat
  && JS.leb (JS.num total * (1 # 20)) (JS.num (length (snd g))).

Lemma bestNonZeroShare_fold (total : nat) (groups : Groups) :
  forall c o,
    let r :=
      fold_left
        (fun (acc : nat * option Z) (g : Z * list Q) =>
           if (0 <? fst g)%Z
              && (fst acc <? length (snd g))%nat
              && (2 <=? length (snd g))%nat
              && JS.leb (JS.num total * (1 # 20)) (JS.num (length (snd g)))
           then (length (snd g), Some (fst g)) else acc)
        groups (c, o) in
    (c <= fst r)%nat
    /\ (forall g, In g groups -> qualifies total g = true ->
                  (length (snd g) <= fst r)%nat)
    /\ (r = (c, o)
        \/ exists g, In g groups /\ qualifies total g = true
                     /\ r = (length (snd g), Some (fst g))).
Proof.
  induction groups as [| g rest IH]; intros c o; cbn [fold_left fst].
  - repeat split; [simpl; lia | simpl; tauto | left; reflexivity].
  - destruct ((0 <? fst g)%Z
              && (c <? length (snd g))%nat
              && (2 <=? length (snd g))%nat
              && JS.leb (JS.num total * (1 # 20)) (JS.num (length (snd g))))
      eqn:Econd.
    + apply andb_prop in Econd. destruct Econd as [Econd E4].
      apply andb_prop in Econd. destruct Econd as [Econd E3].
      apply andb_prop in Econd. destruct Econd as [E1 E2].
      apply Nat.ltb_lt in E2.
      assert (Hq : qualifies total g = true).
      { unfold qualifies. rewrite E1, E3, E4. reflexivity. }
      destruct (IH (length (snd g)) (Some (fst g))) as (Hge & Hall & Hres).
      repeat split.
      * lia.
      * intros g' [<- | Hin] Hq'; [exact Hge | apply Hall; assumption].
      * right. destruct Hres as [-> | (g' & Hin & Hq' & ->)].
        -- exists g. split; [left; reflexivity | split; [exact Hq | reflexivity]].
        -- exists g'. split; [right; exact Hin | split; [exact Hq' | reflexivity]].
    + destruct (IH c o) as (Hge & Hall & Hres).
      repeat split.
      * exact Hge.
      * intros g' [<- | Hin] Hq'; [| apply Hall; assumption].
        unfold qualifies in Hq'.
        apply andb_prop in Hq'. destruct Hq' as [Hq' E4].
        apply andb_prop in Hq'. destruct Hq' as [E1 E3].
        rewrite E1, E3, E4 in Econd. simpl in Econd.
        rewrite !andb_true_r in Econd.
        apply Nat.ltb_ge in Econd. lia.
      * destruct Hres as [-> | (g' & Hin & Hq' & ->)];
          [left; reflexivity | right; exists g'].
        split; [right; exact Hin | split; [exact Hq' | reflexivity]].
Qed.

Lemma bestNonZeroShare_spec (total : nat) (groups : Groups)
    (g : Z * list Q) :
  In g groups -> qualifies total g = true ->
  exists best,
    In best groups /\ qualifies total best = true
    /\ bestNonZeroShare groups total
       = (length (snd best), Some (fst best))
    /\ forall g', In g' groups -> qualifies total g' = true ->
                  (length (snd g') <= length (snd best))%nat.
Proof.
  intros Hin Hq.
  destruct (bestNonZeroShare_fold total groups 0%nat None)
    as (_ & Hall & Hres).
  fold (bestNonZeroShare groups total) in Hall, Hres.
  destruct Hres as [Hnone | (best & Hbin & Hbq & Hbest)].
  - specialize (Hall g Hin Hq). rewrite Hnone in Hall. simpl in Hall.
    unfold qualifies in Hq.
    apply andb_prop in Hq. destruct Hq as [Hq _].
    apply andb_prop in Hq. destruct Hq as [_ H2].
    apply Nat.leb_le in H2. lia.
  - exists best. repeat split; try assumption.
    intros g' Hin' Hq'. specialize (Hall g' Hin' Hq').
    rewrite Hbest in Hall. exact Hall.
Qed.

End Scan.

(** The gaps of C2: they are not all within 2 units of the first one. *)
Definition nonUniform (gaps : list Q) : Prop :=
  ~ Forall (fun s => Qabs (s - hd 0 gaps) <= 2) gaps.

(** A positive rounded value whose bucket has at least 2 members and at
    least 5% of the gaps. *)
Definition candidate (gaps : list Q) (k : Z) : Prop :=
  (0 < k)%Z /\ (2 <= Groups.count k gaps)%nat
  /\ JS.num (length gaps) * (1 # 20) <= JS.num (Groups.count k gaps).

(** C2, as the code has it.  When the gaps are not uniform, the bucket of 0
    is the one with the most members, it holds at least 20% of the gaps
    and less than 50% of them, and some nonzero bucket has at least 2
    members and at least 5% of the gaps, [detectSpacing] returns the value
    of a nonzero bucket of that kind with the most members. *)
Theorem detectSpacing_prefers_nonzero (frames : list PositionedNode)
    (gaps : list Q) :
  (2 <= length frames)%nat ->
  gaps = Spacing.allSpacings frames ->
  nonUniform gaps ->
  (forall k, (Groups.count k gaps <= Groups.count 0 gaps)%nat) ->
  JS.num (length gaps) * (1 # 5) <= JS.num (Groups.count 0 gaps) ->
  JS.num (Groups.count 0 gaps) < JS.num (length gaps) * (1 # 2) ->
  (exists k, candidate gaps k) ->
  exists v,
    Spacing.detectSpacing frames = Some v
    /\ candidate gaps v
    /\ forall k, candidate gaps k ->
                 (Groups.count k gaps <= Groups.count v gaps)%nat.
Proof.
  intros Hlen Hgaps Hnon Hmost H20 H50 (k0 & Hk0 & Hk2 & Hk5).
  assert (Hpos : Forall (fun s => 0 <= s) gaps).
  { apply Forall_forall. intros s Hs. subst gaps.
    eapply SpacingFacts.allSpacings_nonneg. exact Hs. }
  pose proof (Groups.spacingGroups_built gaps Hpos) as B.
  assert (Hentry : forall k, (0 < Groups.count k gaps)%nat ->
            In (k, Groups.bucket k gaps) (Spacing.spacingGroups gaps)).
  { intros k Hk. unfold Groups.count in Hk.
    destruct (Groups.bucket k gaps) as [| s b] eqn:Eb; [simpl in Hk; lia |].
    assert (Hs : In s (Groups.bucket k gaps)) by (rewrite Eb; left; reflexivity).
    unfold Groups.bucket in Hs. apply filter_In in Hs.
    destruct Hs as [Hs Hr]. apply Z.eqb_eq in Hr.
    pose proof (Groups.built_keys _ _ B s Hs) as Hkey. rewrite Hr in Hkey.
    apply in_map_iff in Hkey. destruct Hkey as ([k' vs] & Hfst & Hin).
    simpl in Hfst. subst k'.
    destruct (Groups.built_members _ _ B k vs Hin) as [Hvs _].
    rewrite <- Eb, <- Hvs. exact Hin. }
  assert (Hn : (0 < length gaps)%nat).
  { destruct gaps; [exfalso; apply Hnon; constructor | simpl; lia]. }
  assert (H0 : (0 < Groups.count 0 gaps)%nat).
  { apply num_lt. apply num_lt in Hn.
    revert Hn H20. change (JS.num 0) with 0.
    generalize (JS.num (length gaps)) (JS.num (Groups.count 0 gaps)).
    intros a b Ha Hb. lra. }
  (* the group of 0 comes first and wins the first scan *)
  destruct (Groups.built_zero_first _ _ B) as (vs0 & rest & Hgroups).
  { apply in_map_iff. exists (0%Z, Groups.bucket 0 gaps).
    split; [reflexivity | apply Hentry; exact H0]. }
  assert (Hvs0 : vs0 = Groups.bucket 0 gaps /\ vs0 <> []).
  { apply (Groups.built_members _ _ B). rewrite Hgroups. left. reflexivity. }
  destruct Hvs0 as [Hvs0 Hne0].
  assert (Hwin : Spacing.mostCommon (Spacing.spacingGroups gaps)
                 = (Groups.count 0 gaps, Some 0%Z)).
  { rewrite Hgroups. unfold Groups.count. rewrite <- Hvs0.
    apply Scan.mostCommon_zero_first; [exact Hne0 |].
    intros [k vs] Hin. simpl.
    destruct (Groups.built_members _ _ B k vs) as [Hvs _].
    { rewrite Hgroups. right. exact Hin. }
    rewrite Hvs, Hvs0. apply Hmost. }
  (* the second scan finds a nonzero group *)
  destruct (Scan.bestNonZeroShare_spec (length gaps)
              (Spacing.spacingGroups gaps) (k0, Groups.bucket k0 gaps))
    as ([v vs] & Hvin & Hvq & Hbest & Hmax).
  { apply Hentry. lia. }
  { unfold Scan.qualifies. cbn [fst snd]. fold (Groups.count k0 gaps).
    apply andb_true_intro. split; [apply andb_true_intro; split |].
    - apply Z.ltb_lt. exact Hk0.
    - apply Nat.leb_le. exact Hk2.
    - apply leb_true_iff. exact Hk5. }
  cbn [fst snd] in Hbest, Hmax.
  destruct (Groups.built_members _ _ B v vs Hvin) as [Hvs _].
  assert (Hcount : length vs = Groups.count v gaps)
    by (rewrite Hvs; reflexivity).
  exists v. split; [| split].
  - unfold Spacing.detectSpacing.
    destruct (Nat.ltb_spec (length frames) 2) as [Hlt | _]; [lia |].
    rewrite <- Hgaps. unfold Spacing.pickSpacing.
    destruct gaps as [| firstSpacing gaps']; [simpl in Hn; lia |].
    assert (Heven : Spacing.isEven (firstSpacing :: gaps') firstSpacing
                    = false).
    { destruct (Spacing.isEven (firstSpacing :: gaps') firstSpacing) eqn:E;
        [| reflexivity].
      exfalso. apply Hnon. apply Forall_forall. intros s Hs.
      unfold Spacing.isEven in E. rewrite forallb_forall in E.
      apply leb_true_iff. apply E. exact Hs. }
    rewrite Heven. cbv beta iota zeta. rewrite andb_false_l.
    rewrite Hwin. cbv beta iota zeta.
    assert (E20 : JS.leb (JS.num (length (firstSpacing :: gaps')) * (1 # 5))
                    (JS.num (Groups.count 0 (firstSpacing :: gaps'))) = true)
      by (apply leb_true_iff; exact H20).
    assert (E50 : JS.ltb (JS.num (Groups.count 0 (firstSpacing :: gaps')))
                    (JS.num (length (firstSpacing :: gaps')) * (1 # 2)) = true)
      by (apply ltb_true_iff; exact H50).
    rewrite E20, E50, Hbest. reflexivity.
  - unfold Scan.qualifies in Hvq. cbn [fst snd] in Hvq.
    apply andb_prop in Hvq. destruct Hvq as [Hvq E5].
    apply andb_prop in Hvq. destruct Hvq as [E0 E2].
    rewrite Hcount in E2, E5.
    repeat split.
    + apply Z.ltb_lt. exact E0.
    + apply Nat.leb_le. exact E2.
    + apply leb_true_iff. exact E5.
  - intros k (Hk & Hk2' & Hk5'). rewrite <- Hcount.
    apply (Hmax (k, Groups.bucket k gaps)).
    + apply Hentry. lia.
    + unfold Scan.qualifies. cbn [fst snd]. fold (Groups.count k gaps).
      apply andb_true_intro. split; [apply andb_true_intro; split |].
      * apply Z.ltb_lt. exact Hk.
      * apply Nat.leb_le. exact Hk2'.
      * apply leb_true_iff. exact Hk5'.
Qed.

(** A bound on every bucket follows from the bound on the buckets of the
    values that occur. *)
Lemma count_bound (gaps : list Q) (c : nat) :
  forallb (fun k => (Groups.count k gaps <=? c)%nat)
          (map JS.Math_round gaps) = true ->
  forall k, (Groups.count k gaps <= c)%nat.
Proof.
  intros H k. rewrite forallb_forall in H.
  destruct (in_dec Z.eq_dec k (map JS.Math_round gaps)) as [Hin | Hout].
  - apply Nat.leb_le. apply H. exact Hin.
  - unfold Groups.count, Groups.bucket.
    destruct (filter _ gaps) as [| s l] eqn:E; [simpl; lia |].
    exfalso. apply Hout.
    assert (Hs : In s (filter (fun s0 => (JS.Math_round s0 =? k)%Z) gaps))
      by (rewrite E; left; reflexivity).
    apply filter_In in Hs. destruct Hs as [Hs Hr].
    apply Z.eqb_eq in Hr. rewrite <- Hr. apply in_map. exact Hs.
Qed.

Lemma detectSpacing_prefers_nonzero_witness :
  exists v,
    Spacing.detectSpacing
      [mkFrame 0 0 10 10; mkFrame 10 0 10 10; mkFrame 20 0 10 10;
       mkFrame 30 0 10 10; mkFrame 45 0 10 10; mkFrame 60 0 10 10;
       mkFrame 79 0 10 10; mkFrame 109 0 10 10] = Some v
    /\ candidate [0; 0; 0; 5; 5; 9; 20] v
    /\ forall k, candidate [0; 0; 0; 5; 5; 9; 20] k ->
                 Nat.le (Groups.count k [0; 0; 0; 5; 5; 9; 20])
                        (Groups.count v [0; 0; 0; 5; 5; 9; 20]).
Proof.
  apply (detectSpacing_prefers_nonzero
           [mkFrame 0 0 10 10; mkFrame 10 0 10 10; mkFrame 20 0 10 10;
            mkFrame 30 0 10 10; mkFrame 45 0 10 10; mkFrame 60 0 10 10;
            mkFrame 79 0 10 10; mkFrame 109 0 10 10]
           [0; 0; 0; 5; 5; 9; 20]).
  - simpl. lia.
  - reflexivity.
  - intro H. inversion H as [| a l _ H1]; subst.
    do 2 (inversion H1 as [| a l _ H2]; subst; clear H1; rename H2 into H1).
    inversion H1 as [| a l H5 _]; subst.
    vm_compute in H5. apply H5. reflexivity.
  - apply count_bound. vm_compute. reflexivity.
  - vm_compute. discriminate.
  - vm_compute. reflexivity.
  - exists 5%Z. repeat split; vm_compute; try discriminate; reflexivity.
Defined.

(** C2 as stated fails where the bucket of 0 holds half of the gaps or
    more: of the gaps 0, 0, 0, 5, 5 the bucket of 0 has the most members
    (3 of 5) and the bucket of 5 has 2 members, 40% of the gaps, and
    [detectSpacing] returns 0. *)
Lemma detectSpacing_zero_majority :
  let frames :=
    [mkFrame 0 0 10 10; mkFrame 10 0 10 10; mkFrame 20 0 10 10;
     mkFrame 30 0 10 10; mkFrame 45 0 10 10; mkFrame 60 0 10 10] in
  let gaps := Spacing.allSpacings frames in
  gaps = [0; 0; 0; 5; 5]
  /\ nonUniform gaps
  /\ (forall k, (Groups.count k gaps <= Groups.count 0 gaps)%nat)
  /\ JS.num (length gaps) * (1 # 5) <= JS.num (Groups.count 0 gaps)
  /\ candidate gaps 5
  /\ Spacing.detectSpacing frames = Some 0%Z.
Proof.
  intros frames gaps.
  assert (Hgaps : gaps = [0; 0; 0; 5; 5]) by reflexivity.
  rewrite Hgaps.
  split; [reflexivity |].
  split.
  { intro H. inversion H as [| a l _ H1]; subst.
    do 2 (inversion H1 as [| a l _ H2]; subst; clear H1; rename H2 into H1).
    inversion H1 as [| a l H5 _]; subst.
    vm_compute in H5. apply H5. reflexivity. }
  split; [apply count_bound; vm_compute; reflexivity |].
  split; [vm_compute; discriminate |].
  split; [| reflexivity].
  unfold candidate. split; [lia |].
  split; [vm_compute; lia | vm_compute; discriminate].
Qed.

(* ------------------------------------------------------------------ *)
(** ** Least and greatest values *)

(** [m] is the least value of [l]. *)
Definition isMinOf (m : Q) (l : list Q) : Prop :=
  (exists v, In v l /\ v == m) /\ forall v, In v l -> m <= v.

(** [m] is the greatest value of [l]. *)
Definition isMaxOf (m : Q) (l : list Q) : Prop :=
  (exists v, In v l /\ v == m) /\ forall v, In v l -> v <= m.

Lemma isMinOf_unique (m m' : Q) (l : list Q) :
  isMinOf m l -> isMinOf m' l -> m == m'.
Proof.
  intros [(v & Hv & Ev) Hle] [(v' & Hv' & Ev') Hle'].
  specialize (Hle v' Hv'). specialize (Hle' v Hv). lra.
Qed.

Lemma isMaxOf_unique (m m' : Q) (l : list Q) :
  isMaxOf m l -> isMaxOf m' l -> m == m'.
Proof.
  intros [(v & Hv & Ev) Hle] [(v' & Hv' & Ev') Hle'].
  specialize (Hle v' Hv'). specialize (Hle' v Hv). lra.
Qed.

Lemma fold_Qmin_isMin (l : list Q) :
  forall a, isMinOf (fold_left Qmin l a) (a :: l).
Proof.
  induction l as [| b l IH]; intro a; simpl.
  - split; [exists a; split; [left; reflexivity | reflexivity] |].
    intros v [<- | []]. lra.
  - destruct (IH (Qmin a b)) as [(v & Hv & Ev) Hle]. split.
    + destruct Hv as [<- | Hv].
      * destruct (Q.min_spec a b) as [[_ E] | [_ E]].
        -- exists a. split; [left; reflexivity | lra].
        -- exists b. split; [right; left; reflexivity | lra].
      * exists v. split; [right; right; exact Hv | exact Ev].
    + intros w [<- | [<- | Hw]].
      * specialize (Hle (Qmin a b) (or_introl eq_refl)).
        pose proof (Q.le_min_l a b). lra.
      * specialize (Hle (Qmin a b) (or_introl eq_refl)).
        pose proof (Q.le_min_r a b). lra.
      * apply Hle. right. exact Hw.
Qed.

Lemma fold_Qmax_isMax (l : list Q) :
  forall a, isMaxOf (fold_left Qmax l a) (a :: l).
Proof.
  induction l as [| b l IH]; intro a; simpl.
  - split; [exists a; split; [left; reflexivity | reflexivity] |].
    intros v [<- | []]. lra.
  - destruct (IH (Qmax a b)) as [(v & Hv & Ev) Hle]. split.
    + destruct Hv as [<- | Hv].
      * destruct (Q.max_spec a b) as [[_ E] | [_ E]].
        -- exists b. split; [right; left; reflexivity | lra].
        -- exists a. split; [left; reflexivity | lra].
      * exists v. split; [right; right; exact Hv | exact Ev].
    + intros w [<- | [<- | Hw]].
      * specialize (Hle (Qmax a b) (or_introl eq_refl)).
        pose proof (Q.le_max_l a b). lra.
      * specialize (Hle (Qmax a b) (or_introl eq_refl)).
        pose proof (Q.le_max_r a b). lra.
      * apply Hle. right. exact Hw.
Qed.

Module GeometryFacts.
Import Geometry.

Definition right_of (f : PositionedNode) : Q := frame_x f + frame_width f.
Definition bottom_of (f : PositionedNode) : Q := frame_y f + frame_height f.

Lemma boundingBox_fields (rest : list PositionedNode) :
  forall b,
    minX (fold_left extend rest b) = fold_left Qmin (map frame_x rest) (minX b)
    /\ minY (fold_left extend rest b)
       = fold_left Qmin (map frame_y rest) (minY b)
    /\ maxX (fold_left extend rest b)
       = fold_left Qmax (map right_of rest) (maxX b)
    /\ maxY (fold_left extend rest b)
       = fold_left Qmax (map bottom_of rest) (maxY b).
Proof.
  induction rest as [| f rest IH]; intro b; simpl.
  - repeat split.
  - destruct (IH (extend b f)) as (H1 & H2 & H3 & H4).
    rewrite H1, H2, H3, H4. repeat split.
Qed.

Lemma boundingBox_minX (first : PositionedNode) (rest : list PositionedNode) :
  isMinOf (minX (boundingBox first rest)) (map frame_x (first :: rest)).
Proof.
  unfold boundingBox.
  destruct (boundingBox_fields rest (boundsOf first)) as (-> & _).
  apply fold_Qmin_isMin.
Qed.

Lemma boundingBox_minY (first : PositionedNode) (rest : list PositionedNode) :
  isMinOf (minY (boundingBox first rest)) (map frame_y (first :: rest)).
Proof.
  unfold boundingBox.
  destruct (boundingBox_fields rest (boundsOf first)) as (_ & -> & _).
  apply fold_Qmin_isMin.
Qed.

Lemma boundingBox_maxX (first : PositionedNode) (rest : list PositionedNode) :
  isMaxOf (maxX (boundingBox first rest)) (map right_of (first :: rest)).
Proof.
  unfold boundingBox.
  destruct (boundingBox_fields rest (boundsOf first)) as (_ & _ & -> & _).
  apply fold_Qmax_isMax.
Qed.

Lemma boundingBox_maxY (first : PositionedNode) (rest : list PositionedNode) :
  isMaxOf (maxY (boundingBox first rest)) (map bottom_of (first :: rest)).
Proof.
  unfold boundingBox.
  destruct (boundingBox_fields rest (boundsOf first)) as (_ & _ & _ & ->).
  apply fold_Qmax_isMax.
Qed.

End GeometryFacts.

(* ------------------------------------------------------------------ *)
(** ** The classifier on wide sets *)

Module ClassifierFacts.
Import Classifier.

Lemma aligned_iff (g : PositionedNode -> Q) (frames : list PositionedNode)
    (reference : Q) :
  aligned (map g frames) reference = true
  <-> Forall (fun f => Qabs (g f - reference) <= 2) frames.
Proof.
  unfold aligned. rewrite forallb_forall, Forall_forall. split.
  - intros H f Hf. apply leb_true_iff. apply H. apply in_map. exact Hf.
  - intros H v Hv. apply in_map_iff in Hv. destruct Hv as (f & <- & Hf).
    apply leb_true_iff. apply H. exact Hf.
Qed.

Lemma aligned_false_iff (g : PositionedNode -> Q)
    (frames : list PositionedNode) (reference : Q) :
  aligned (map g frames) reference = false
  <-> ~ Forall (fun f => Qabs (g f - reference) <= 2) frames.
Proof.
  rewrite <- aligned_iff. destruct (aligned (map g frames) reference).
  - split; [discriminate | intro H; exfalso; apply H; reflexivity].
  - split; [intros _ H; discriminate | reflexivity].
Qed.

(** The vertical centre of a frame. *)
Definition centerY (f : PositionedNode) : Q :=
  frame_y f + frame_height f / 2.

(** The horizontal centre of a frame. *)
Definition centerX (f : PositionedNode) : Q :=
  frame_x f + frame_width f / 2.

(** The sum of the values, from the right. *)
Fixpoint total (values : list Q) : Q :=
  match values with
  | [] => 0
  | v :: rest => v + total rest
  end.

(** The arithmetic mean, said without the running sum and the division
    of the code: as many times the mean as there are values is their
    sum. *)
Definition isMeanOf (m : Q) (values : list Q) : Prop :=
  m * inject_Z (Z.of_nat (length values)) == total values.

Lemma fold_total (values : list Q) :
  forall start, fold_left Qplus values start == start + total values.
Proof.
  induction values as [| v rest IH]; intro start; cbn [fold_left total].
  - ring.
  - rewrite IH. ring.
Qed.

(** [average] is the arithmetic mean of a list that is not empty. *)
Lemma average_mean (m : Q) (values : list Q) :
  values <> [] -> isMeanOf m values -> average values == m.
Proof.
  intros Hne Hmean. unfold average, JS.num. rewrite fold_total.
  unfold isMeanOf in Hmean.
  assert (Hn : ~ inject_Z (Z.of_nat (length values)) == 0).
  { destruct values as [| v rest]; [congruence |].
    intro H. unfold Qeq, inject_Z in H. simpl in H. lia. }
  setoid_replace (0 + total values) with (total values) by ring.
  rewrite <- Hmean. field. exact Hn.
Qed.

Lemma within_mean (m m' v : Q) :
  m == m' -> (Qabs (v - m) <= 2 <-> Qabs (v - m') <= 2).
Proof. intro H. rewrite H. reflexivity. Qed.

Lemma aligned_mean (g : PositionedNode -> Q) (frames : list PositionedNode)
    (m : Q) :
  frames <> [] ->
  isMeanOf m (map g frames) ->
  aligned (map g frames) (average (map g frames)) = true
  <-> Forall (fun f => Qabs (g f - m) <= 2) frames.
Proof.
  intros Hne Hmean.
  assert (E : average (map g frames) == m).
  { apply average_mean; [| exact Hmean].
    destruct frames; [congruence | discriminate]. }
  rewrite aligned_iff, !Forall_forall.
  split; intros H f Hf; apply (within_mean _ _ (g f) E); apply H; exact Hf.
Qed.

Lemma aligned_mean_false (g : PositionedNode -> Q)
    (frames : list PositionedNode) (m : Q) :
  frames <> [] ->
  isMeanOf m (map g frames) ->
  aligned (map g frames) (average (map g frames)) = false
  <-> ~ Forall (fun f => Qabs (g f - m) <= 2) frames.
Proof.
  intros Hne Hmean. rewrite <- (aligned_mean g frames m Hne Hmean).
  destruct (aligned (map g frames) (average (map g frames))).
  - split; [discriminate | intro H; exfalso; apply H; reflexivity].
  - split; [intros _ H; discriminate | reflexivity].
Qed.

End ClassifierFacts.

(** C9.  On at least two rectangles whose bounding box is more than 1.2
    times as wide as it is high, [detectLayoutAndAlignment] answers
    horizontal, with the first alignment that holds among: top (every top
    within 2 units of the top of the first rectangle), bottom (every bottom
    within 2 units of the bottom of the first rectangle), center (every
    vertical centre within 2 units of the arithmetic mean of the centres,
    the number whose product with the count of the rectangles is the sum
    of the centres); and top when none holds. *)
Theorem classify_horizontal (frames : list PositionedNode)
    (first : PositionedNode) (rest : list PositionedNode)
    (left_edge right_edge top_edge bottom_edge mean : Q) :
  frames = first :: rest ->
  (2 <= length frames)%nat ->
  isMinOf left_edge (map frame_x frames) ->
  isMaxOf right_edge (map GeometryFacts.right_of frames) ->
  isMinOf top_edge (map frame_y frames) ->
  isMaxOf bottom_edge (map GeometryFacts.bottom_of frames) ->
  (bottom_edge - top_edge) * (6 # 5) < right_edge - left_edge ->
  ClassifierFacts.isMeanOf mean (map ClassifierFacts.centerY frames) ->
  let tops :=
    Forall (fun f => Qabs (frame_y f - frame_y first) <= 2) frames in
  let bottoms :=
    Forall (fun f => Qabs (GeometryFacts.bottom_of f
                           - GeometryFacts.bottom_of first) <= 2) frames in
  let centers :=
    Forall (fun f => Qabs (ClassifierFacts.centerY f - mean) <= 2) frames in
  let result := Classifier.detectLayoutAndAlignment frames in
  fst result = horizontal
  /\ (tops -> snd result = top)
  /\ (~ tops -> bottoms -> snd result = bottom)
  /\ (~ tops -> ~ bottoms -> centers -> snd result = center)
  /\ (~ tops -> ~ bottoms -> ~ centers -> snd result = top).
Proof.
  intros Hframes Hlen HminX HmaxX HminY HmaxY Hwide Hmean.
  destruct rest as [| second rest']; [subst frames; simpl in Hlen; lia |].
  intros tops bottoms centers result.
  subst result. unfold Classifier.detectLayoutAndAlignment.
  rewrite Hframes. rewrite <- Hframes.
  set (b := Geometry.boundingBox first (second :: rest')).
  assert (EminX : Geometry.minX b == left_edge).
  { eapply isMinOf_unique; [apply GeometryFacts.boundingBox_minX |].
    rewrite <- Hframes. exact HminX. }
  assert (EmaxX : Geometry.maxX b == right_edge).
  { eapply isMaxOf_unique; [apply GeometryFacts.boundingBox_maxX |].
    rewrite <- Hframes. exact HmaxX. }
  assert (EminY : Geometry.minY b == top_edge).
  { eapply isMinOf_unique; [apply GeometryFacts.boundingBox_minY |].
    rewrite <- Hframes. exact HminY. }
  assert (EmaxY : Geometry.maxY b == bottom_edge).
  { eapply isMaxOf_unique; [apply GeometryFacts.boundingBox_maxY |].
    rewrite <- Hframes. exact HmaxY. }
  assert (Hhoriz : JS.ltb ((Geometry.maxY b - Geometry.minY b) * (6 # 5))
                     (Geometry.maxX b - Geometry.minX b) = true).
  { apply ltb_true_iff. lra. }
  cbv zeta. rewrite Hhoriz.
  assert (Htop : hd 0 (map frame_y frames) = frame_y first)
    by (rewrite Hframes; reflexivity).
  assert (Hbottom :
    hd 0 (map (fun f => frame_y f + frame_height f) frames)
    = GeometryFacts.bottom_of first)
    by (rewrite Hframes; reflexivity).
  assert (Hsome : frames <> []) by (rewrite Hframes; discriminate).
  rewrite Htop, Hbottom.
  change (map (fun f => frame_y f + frame_height f) frames)
    with (map GeometryFacts.bottom_of frames).
  change (map (fun f => frame_y f + frame_height f / 2) frames)
    with (map ClassifierFacts.centerY frames).
  destruct (Classifier.aligned (map frame_y frames) (frame_y first)) eqn:Et.
  - apply ClassifierFacts.aligned_iff in Et.
    repeat split; try reflexivity; intros; contradiction.
  - apply ClassifierFacts.aligned_false_iff in Et.
    destruct (Classifier.aligned (map GeometryFacts.bottom_of frames)
                (GeometryFacts.bottom_of first)) eqn:Eb.
    + apply ClassifierFacts.aligned_iff in Eb.
      repeat split; try reflexivity; intros; contradiction.
    + apply ClassifierFacts.aligned_false_iff in Eb.
      destruct (Classifier.aligned (map ClassifierFacts.centerY frames)
                  (Classifier.average
                     (map ClassifierFacts.centerY frames))) eqn:Ec.
      * apply (ClassifierFacts.aligned_mean _ _ mean Hsome Hmean) in Ec.
        repeat split; try reflexivity; intros; contradiction.
      * apply (ClassifierFacts.aligned_mean_false _ _ mean Hsome Hmean)
          in Ec.
        repeat split; try reflexivity; intros; contradiction.
Qed.

(** Least and greatest values of a list that is written out. *)
Ltac extremum_at v :=
  split;
  [ exists v; split; [simpl; tauto | reflexivity]
  | intros w Hw; simpl in Hw;
    repeat (destruct Hw as [<- | Hw]; [vm_compute; discriminate |]);
    destruct Hw ].

Lemma classify_horizontal_witness :
  Classifier.detectLayoutAndAlignment
    [mkFrame 0 0 100 100; mkFrame 110 20 100 60] = (horizontal, center).
Proof.
  destruct (classify_horizontal
              [mkFrame 0 0 100 100; mkFrame 110 20 100 60]
              (mkFrame 0 0 100 100) [mkFrame 110 20 100 60]
              0 210 0 100 50 eq_refl)
    as (Hlayout & _ & _ & Hcenter & _).
  - simpl. lia.
  - extremum_at 0.
  - extremum_at (GeometryFacts.right_of (mkFrame 110 20 100 60)).
  - extremum_at 0.
  - extremum_at (GeometryFacts.bottom_of (mkFrame 0 0 100 100)).
  - vm_compute. reflexivity.
  - vm_compute. reflexivity.
  - rewrite (surjective_pairing (Classifier.detectLayoutAndAlignment _)).
    rewrite Hlayout, Hcenter; [reflexivity | | |].
    + intro H. inversion H as [| a l _ H1]; subst.
      inversion H1 as [| a l H2 _]; subst. vm_compute in H2. apply H2.
      reflexivity.
    + intro H. inversion H as [| a l _ H1]; subst.
      inversion H1 as [| a l H2 _]; subst. vm_compute in H2. apply H2.
      reflexivity.
    + repeat constructor; vm_compute; discriminate.
Defined.

(* ------------------------------------------------------------------ *)
(** ** The two arrangement loops as one

    [arrangeFramesHorizontal] and [arrangeFramesVertical] are the same loop
    along [x] and along [y]; what follows is proved once for both. *)

Module Along.
Import Arrange.

Inductive Axis : Type := alongX | alongY.

(** Where a frame is put across the axis: at the base line, centred on
    it, or ending on it. *)
Inductive Anchor : Type := atStart | atMiddle | atEnd.

Definition position (ax : Axis) (f : PositionedNode) : Q :=
  match ax with alongX => frame_x f | alongY => frame_y f end.

Definition extent (ax : Axis) (f : PositionedNode) : Q :=
  match ax with alongX => frame_width f | alongY => frame_height f end.

Definition across (ax : Axis) : Axis :=
  match ax with alongX => alongY | alongY => alongX end.

Definition place (ax : Axis) (main cross : Q) (f : PositionedNode)
  : PositionedNode :=
  match ax with
  | alongX => mkFrame main cross (frame_width f) (frame_height f)
  | alongY => mkFrame cross main (frame_width f) (frame_height f)
  end.

Definition anchorX (alignment : Alignment) : Anchor :=
  match alignment with top => atStart | center => atMiddle | _ => atEnd end.

Definition anchorY (alignment : Alignment) : Anchor :=
  match alignment with left => atStart | center => atMiddle | _ => atEnd end.

Definition baseOf (anchor : Anchor) (start maxCross : Q) : Q :=
  match anchor with
  | atStart => start
  | atMiddle => start + maxCross / 2
  | atEnd => start + maxCross
  end.

Definition crossAt (anchor : Anchor) (base size : Q) : Q :=
  match anchor with
  | atStart => base
  | atMiddle => base - size / 2
  | atEnd => base - size
  end.

Definition sortedAlong (ax : Axis) (frames : list PositionedNode)
  : list (nat * PositionedNode) :=
  JS.Array_sort (fun a b => position ax (snd a) - position ax (snd b))
                (indexed frames).

Definition step (ax : Axis) (anchor : Anchor) (base spacing : Q)
    (st : list PositionedNode * Q) (e : nat * PositionedNode)
  : list PositionedNode * Q :=
  (JS.write (fst e)
     (place ax (snd st)
        (crossAt anchor base (extent (across ax) (snd e))) (snd e))
     (fst st),
   snd st + (extent ax (snd e) + spacing)).

Definition maxAcross (ax : Axis) (sorted : list (nat * PositionedNode))
  : option Q :=
  JS.Math_max (map (fun e => extent (across ax) (snd e)) sorted).

Definition arrangeAlong (ax : Axis) (anchor : Anchor)
    (frames : list PositionedNode) (spacing startMain startCross : Q)
  : list PositionedNode :=
  match maxAcross ax (sortedAlong ax frames) with
  | None => frames
  | Some maxCross =>
      fst (fold_left (step ax anchor (baseOf anchor startCross maxCross)
                        spacing)
             (sortedAlong ax frames) (frames, startMain))
  end.

Lemma horizontal_along (frames : list PositionedNode)
    (spacing startX startY : Q) (alignment : Alignment) :
  arrangeFramesHorizontal frames spacing startX startY alignment
  = arrangeAlong alongX (anchorX alignment) frames spacing startX startY.
Proof. destruct alignment; reflexivity. Qed.

Lemma vertical_along (frames : list PositionedNode)
    (spacing startX startY : Q) (alignment : Alignment) :
  arrangeFramesVertical frames spacing startX startY alignment
  = arrangeAlong alongY (anchorY alignment) frames spacing startY startX.
Proof. destruct alignment; reflexivity. Qed.

(** *** What the loop writes, as a list *)

Fixpoint placed (ax : Axis) (anchor : Anchor) (base spacing current : Q)
    (sorted : list (nat * PositionedNode)) : list (nat * PositionedNode) :=
  match sorted with
  | [] => []
  | e :: tl =>
      (fst e,
       place ax current
         (crossAt anchor base (extent (across ax) (snd e))) (snd e))
      :: placed ax anchor base spacing
           (current + (extent ax (snd e) + spacing)) tl
  end.

Fixpoint lookup (i : nat) (l : list (nat * PositionedNode))
  : option PositionedNode :=
  match l with
  | [] => None
  | e :: tl => if (i =? fst e)%nat then Some (snd e) else lookup i tl
  end.

Lemma placed_fst ax anchor base spacing sorted :
  forall current,
    map fst (placed ax anchor base spacing current sorted) = map fst sorted.
Proof.
  induction sorted as [| e tl IH]; intro current; simpl.
  - reflexivity.
  - rewrite IH. reflexivity.
Qed.

Lemma lookup_none (i : nat) (l : list (nat * PositionedNode)) :
  ~ In i (map fst l) -> lookup i l = None.
Proof.
  induction l as [| e tl IH]; simpl; intro H.
  - reflexivity.
  - destruct (Nat.eqb_spec i (fst e)) as [E | _].
    + exfalso. apply H. left. symmetry. exact E.
    + apply IH. tauto.
Qed.

Lemma write_length {A : Type} (i : nat) (v : A) (l : list A) :
  length (JS.write i v l) = length l.
Proof.
  revert i. induction l as [| f tl IH]; intros [| j]; simpl;
    try reflexivity.
  rewrite IH. reflexivity.
Qed.

Lemma write_same {A : Type} (i : nat) (v : A) (l : list A) :
  (i < length l)%nat -> nth_error (JS.write i v l) i = Some v.
Proof.
  revert i. induction l as [| f tl IH]; intros [| j] H; simpl in *;
    try lia.
  - reflexivity.
  - apply IH. lia.
Qed.

Lemma write_other {A : Type} (i j : nat) (v : A) (l : list A) :
  i <> j -> nth_error (JS.write i v l) j = nth_error l j.
Proof.
  revert i j. induction l as [| f tl IH]; intros [| i] [| j] H; simpl;
    try reflexivity.
  - congruence.
  - apply IH. congruence.
Qed.

Lemma fold_step_spec ax anchor base spacing sorted :
  forall heap current,
    NoDup (map fst sorted) ->
    (forall e, In e sorted -> (fst e < length heap)%nat) ->
    let heap' :=
      fst (fold_left (step ax anchor base spacing) sorted (heap, current)) in
    length heap' = length heap
    /\ forall i,
         nth_error heap' i
         = match lookup i (placed ax anchor base spacing current sorted) with
           | Some f => Some f
           | None => nth_error heap i
           end.
Proof.
  induction sorted as [| e tl IH]; intros heap current Hnd Hvalid.
  - simpl. split; reflexivity.
  - cbn [fold_left placed lookup]. unfold step at 2. cbn [fst snd].
    inversion Hnd as [| i0 l0 Hnotin Hnd']; subst.
    set (v := place ax current
                (crossAt anchor base (extent (across ax) (snd e))) (snd e)).
    destruct (IH (JS.write (fst e) v heap)
                 (current + (extent ax (snd e) + spacing)) Hnd')
      as [Hlen Hnth].
    { intros e' He'. rewrite write_length. apply Hvalid. right. exact He'. }
    split.
    + rewrite Hlen. apply write_length.
    + intro i. rewrite Hnth.
      destruct (Nat.eqb_spec i (fst e)) as [E | E].
      * subst i. rewrite lookup_none by (rewrite placed_fst; exact Hnotin).
        apply write_same. apply Hvalid. left. reflexivity.
      * rewrite write_other by congruence. reflexivity.
Qed.

Lemma readAll_lookup (heap : list PositionedNode)
    (l : list (nat * PositionedNode)) :
  NoDup (map fst l) ->
  (forall i, In i (map fst l) -> nth_error heap i = lookup i l) ->
  readAll heap (map fst l) = map snd l.
Proof.
  induction l as [| e tl IH]; intros Hnd H.
  - reflexivity.
  - inversion Hnd as [| i0 l0 Hnotin Hnd']; subst.
    cbn [map readAll flat_map].
    rewrite (H (fst e)) by (left; reflexivity).
    cbn [lookup]. rewrite Nat.eqb_refl. cbn [app]. f_equal.
    apply IH; [exact Hnd' |].
    intros i Hi. rewrite (H i) by (right; exact Hi).
    cbn [lookup]. destruct (Nat.eqb_spec i (fst e)) as [E | _];
      [subst i; contradiction | reflexivity].
Qed.

(** *** The sort *)

Section SortFacts.
Context {A : Type}.
Variable compareFn : A -> A -> Q.

Lemma insert_perm (a : A) (l : list A) :
  Permutation (JS.insert compareFn a l) (a :: l).
Proof.
  induction l as [| b l IH]; simpl.
  - reflexivity.
  - destruct (JS.leb (compareFn a b) 0).
    + reflexivity.
    + rewrite IH. apply perm_swap.
Qed.

Lemma Array_sort_perm (l : list A) :
  Permutation (JS.Array_sort compareFn l) l.
Proof.
  induction l as [| a l IH]; simpl.
  - reflexivity.
  - rewrite insert_perm. apply perm_skip. exact IH.
Qed.
End SortFacts.

Lemma indexed_fst_from (frames : list PositionedNode) :
  forall s, map fst (combine (seq s (length frames)) frames)
            = seq s (length frames).
Proof.
  induction frames as [| f tl IH]; intro s; simpl.
  - reflexivity.
  - rewrite IH. reflexivity.
Qed.

Lemma indexed_fst (frames : list PositionedNode) :
  map fst (indexed frames) = seq 0 (length frames).
Proof. apply indexed_fst_from. Qed.

Lemma sortedAlong_indices ax (frames : list PositionedNode) :
  Permutation (map fst (sortedAlong ax frames)) (seq 0 (length frames)).
Proof.
  rewrite <- indexed_fst. apply Permutation_map. apply Array_sort_perm.
Qed.

Lemma sortedAlong_nodup ax (frames : list PositionedNode) :
  NoDup (map fst (sortedAlong ax frames)).
Proof.
  eapply Permutation_NoDup.
  - symmetry. apply sortedAlong_indices.
  - apply seq_NoDup.
Qed.

Lemma sortedAlong_valid ax (frames : list PositionedNode) e :
  In e (sortedAlong ax frames) -> (fst e < length frames)%nat.
Proof.
  intro H. apply (in_map fst) in H.
  apply (Permutation_in _ (sortedAlong_indices ax frames)) in H.
  apply in_seq in H. lia.
Qed.


(** The sorted array after the loop is the list of what was written. *)
Lemma arrangeAlong_inOrder ax anchor frames spacing startMain startCross
    maxCross :
  maxAcross ax (sortedAlong ax frames) = Some maxCross ->
  readAll (arrangeAlong ax anchor frames spacing startMain startCross)
          (map fst (sortedAlong ax frames))
  = map snd (placed ax anchor (baseOf anchor startCross maxCross) spacing
               startMain (sortedAlong ax frames)).
Proof.
  intro Hmax. unfold arrangeAlong. rewrite Hmax.
  destruct (fold_step_spec ax anchor (baseOf anchor startCross maxCross)
              spacing (sortedAlong ax frames) frames startMain
              (sortedAlong_nodup ax frames) (sortedAlong_valid ax frames))
    as [_ Hnth].
  rewrite <- (placed_fst ax anchor (baseOf anchor startCross maxCross)
                spacing (sortedAlong ax frames) startMain).
  apply readAll_lookup.
  - rewrite placed_fst. apply sortedAlong_nodup.
  - intros i Hi. rewrite Hnth.
    destruct (lookup i _) eqn:E; [reflexivity |].
    exfalso. revert Hi E.
    generalize (placed ax anchor (baseOf anchor startCross maxCross) spacing
                  startMain (sortedAlong ax frames)).
    intros l Hi E. induction l as [| e tl IH]; simpl in *; [tauto |].
    destruct (Nat.eqb_spec i (fst e)) as [E' | E']; [discriminate |].
    destruct Hi as [Hi | Hi]; [congruence | auto].
Qed.

End Along.

(* ------------------------------------------------------------------ *)
(** ** The loop of an arrangement, whatever the numbers *)

Module Loop.

Section Loop.
Context {F N : Type}.
Variable put : N -> F -> F.
Variable next : N -> F -> N.

(** One turn: the frame of the entry is written at its index, made from
    the cursor, and the cursor moves on. *)
Definition step (st : list F * N) (e : nat * F) : list F * N :=
  (JS.write (fst e) (put (snd st) (snd e)) (fst st), next (snd st) (snd e)).

(** What the turns write, in their order. *)
Fixpoint placed (cursor : N) (sorted : list (nat * F)) : list (nat * F) :=
  match sorted with
  | [] => []
  | e :: tl => (fst e, put cursor (snd e)) :: placed (next cursor (snd e)) tl
  end.

Fixpoint lookup (i : nat) (l : list (nat * F)) : option F :=
  match l with
  | [] => None
  | e :: tl => if (i =? fst e)%nat then Some (snd e) else lookup i tl
  end.





End Loop.



End Loop.

(* ------------------------------------------------------------------ *)
(** ** The order and the cursor of the arrangement on doubles *)

Module DoublesFacts.
Import Doubles.

Section SortFacts.
Context {A : Type}.
Variable compareFn : A -> A -> PrimFloat.float.






End SortFacts.

Section Axis.
(** The place and the size of a frame along the arrangement: [x] and
    [width] in a row, [y] and [height] in a column. *)
Variable place : PositionedNode -> PrimFloat.float.
Variable size : PositionedNode -> PrimFloat.float.












End Axis.

End DoublesFacts.

Module DoubleSamples.
Import PrimFloat Doubles.











End DoubleSamples.




(* ------------------------------------------------------------------ *)
(** ** The section a command works on *)

Module Target.
Import Sections Plugin.

(** Every node of [between], from [node] up to the section at [section]
    (that one left out), is there and is no section. *)
Definition noSectionBelow (page : list SceneNode) (between section : Path)
  : Prop :=
  forall inner outer,
    between = inner ++ outer -> outer <> [] ->
    exists n, nodeAt page (outer ++ section) = Some n
              /\ isSection n = false.

Lemma findParentSection_nearest (page : list SceneNode) (section : Path)
    (s : SceneNode) :
  section <> [] ->
  nodeAt page section = Some s ->
  isSection s = true ->
  forall between,
    noSectionBelow page between section ->
    findParentSection page (between ++ section) = Some section.
Proof.
  intros Hne Hs Hsec between.
  induction between as [| i between IH]; intro Hbelow.
  - simpl. destruct section as [| j parent]; [congruence |].
    cbn [findParentSection]. rewrite Hs, Hsec. reflexivity.
  - cbn [app findParentSection].
    destruct (Hbelow [] (i :: between) eq_refl) as (n & Hn & Hnsec);
      [discriminate |].
    cbn [app] in Hn. rewrite Hn, Hnsec.
    apply IH. intros inner outer Heq Houter.
    apply (Hbelow (i :: inner) outer); [| exact Houter].
    rewrite Heq. reflexivity.
Qed.

Lemma targetSection_nearest (page : list SceneNode) (section : Path)
    (s : SceneNode) (between : Path) :
  section <> [] ->
  nodeAt page section = Some s ->
  isSection s = true ->
  noSectionBelow page between section ->
  targetSection page (between ++ section) = Some section.
Proof.
  intros Hne Hs Hsec Hbelow. unfold targetSection.
  destruct between as [| i between].
  - simpl. rewrite Hs, Hsec. reflexivity.
  - destruct (Hbelow [] (i :: between) eq_refl) as (n & Hn & Hnsec);
      [discriminate |].
    rewrite Hn, Hnsec.
    apply (findParentSection_nearest page section s Hne Hs Hsec).
    exact Hbelow.
Qed.

Lemma handleUpdateSection_selection (figma : Figma) (node section : Path) :
  selection figma = [node] ->
  targetSection (page figma) node = Some section ->
  (exists s, nodeAt (page figma) section = Some s) ->
  selection (snd (handleUpdateSection figma)) = [section]
  /\ page (snd (handleUpdateSection figma)) = page figma.
Proof.
  intros Hsel Htarget (s & Hs). unfold handleUpdateSection.
  rewrite Hsel, Htarget, Hs.
  destruct (findFramesInSection s); [split; reflexivity |].
  destruct (pluginData s); split; reflexivity.
Qed.

Lemma updateSection_selection (figma : Figma) (msg : Settings) :
  selection (snd (updateSection figma msg)) = selection figma.
Proof.
  unfold updateSection.
  destruct (selection figma) as [| selected [| other l]] eqn:E.
  - simpl. exact E.
  - destruct (nodeAt (page figma) selected) as [s |].
    + destruct (isSection s).
      * destruct (rearrange s msg); simpl; congruence.
      * simpl. congruence.
    + simpl. congruence.
  - simpl. exact E.
Qed.

Lemma handleRefreshSection_selection (figma : Figma)
    (node section : Path) :
  selection figma = [node] ->
  targetSection (page figma) node = Some section ->
  (exists s, nodeAt (page figma) section = Some s) ->
  selection (snd (handleRefreshSection figma)) = [section].
Proof.
  intros Hsel Htarget (s & Hs). unfold handleRefreshSection.
  rewrite Hsel, Htarget, Hs.
  destruct (pluginData s); try reflexivity.
  destruct (findFramesInSection s); [reflexivity |].
  apply updateSection_selection.
Qed.

End Target.

(** C10.  When the selected node is no section and lies inside sections,
    [findParentSection] gives the nearest one, the first section on the
    way up from the node, whatever sections lie further out; and
    [handleUpdateSection] and [handleRefreshSection] make that section the
    selection they work on. *)
Theorem commands_target_nearest_section (figma : Plugin.Figma)
    (between section : Plugin.Path) (s : Sections.SceneNode) :
  section <> [] ->
  Plugin.selection figma = [between ++ section] ->
  Plugin.nodeAt (Plugin.page figma) section = Some s ->
  Plugin.isSection s = true ->
  Target.noSectionBelow (Plugin.page figma) between section ->
  Plugin.findParentSection (Plugin.page figma) (between ++ section)
  = Some section
  /\ Plugin.selection (snd (Plugin.handleUpdateSection figma)) = [section]
  /\ Plugin.selection (snd (Plugin.handleRefreshSection figma)) = [section].
Proof.
  intros Hne Hsel Hs Hsec Hbelow.
  pose proof (Target.targetSection_nearest _ _ _ between Hne Hs Hsec Hbelow)
    as Htarget.
  split; [| split].
  - apply (Target.findParentSection_nearest _ _ s Hne Hs Hsec). exact Hbelow.
  - apply (Target.handleUpdateSection_selection figma _ _ Hsel Htarget).
    eauto.
  - apply (Target.handleRefreshSection_selection figma _ _ Hsel Htarget).
    eauto.
Qed.

Module Samples.
Import Sections Plugin.

Definition frameNode (x y w h : Q) : SceneNode :=
  mkNode FRAME true (mkFrame x y w h) noData [].

(** A section inside a section, with one frame in the inner one. *)
Definition innerSection (data : PluginData) : SceneNode :=
  mkNode SECTION true (mkFrame 20 20 140 140) data [frameNode 20 20 100 100].

Definition outerSection (data : PluginData) : SceneNode :=
  mkNode SECTION true (mkFrame 0 0 400 400) noData [innerSection data].

(** The frame is selected. *)
Definition nested (data : PluginData) : Figma :=
  mkFigma [outerSection data] [[0%nat; 0%nat; 0%nat]] None.

(** A section without children, selected. *)
Definition bare (data : PluginData) : Figma :=
  mkFigma [mkNode SECTION true (mkFrame 0 0 400 400) data []] [[0%nat]]
          None.

(** A section at (100, 50), 150 wide and 260 high, with two frames one
    below the other, 10 apart; the first frame is selected. *)
Definition column (data : PluginData) : Figma :=
  mkFigma
    [mkNode SECTION true (mkFrame 100 50 150 260) data
       [frameNode 20 20 100 100; frameNode 20 130 100 100]]
    [[0%nat; 0%nat]] None.

End Samples.

Lemma commands_target_nearest_section_witness :
  Plugin.findParentSection (Plugin.page (Samples.nested Sections.noData))
    [0%nat; 0%nat; 0%nat] = Some [0%nat; 0%nat]
  /\ Plugin.selection
       (snd (Plugin.handleUpdateSection (Samples.nested Sections.noData)))
     = [[0%nat; 0%nat]]
  /\ Plugin.selection
       (snd (Plugin.handleRefreshSection (Samples.nested Sections.noData)))
     = [[0%nat; 0%nat]].
Proof.
  apply (commands_target_nearest_section (Samples.nested Sections.noData)
           [0%nat] [0%nat; 0%nat] (Samples.innerSection Sections.noData)).
  - discriminate.
  - reflexivity.
  - reflexivity.
  - reflexivity.
  - intros inner outer Heq Houter.
    destruct inner as [| i inner].
    + simpl in Heq. subst outer.
      exists (Samples.frameNode 20 20 100 100). split; reflexivity.
    + destruct inner; destruct outer; try discriminate. congruence.
Defined.

(** C6.  When the section a refresh works on has no stored settings,
    [handleRefreshSection] notifies that refresh is not available (the
    error [NoStoredConfigurationError]) and closes: no detection runs and
    the page is what it was, every node with its position, size, parent,
    children and stored data. *)
Theorem refresh_without_settings (figma : Plugin.Figma)
    (node section : Plugin.Path) (s : Sections.SceneNode) :
  Plugin.selection figma = [node] ->
  Plugin.targetSection (Plugin.page figma) node = Some section ->
  Plugin.nodeAt (Plugin.page figma) section = Some s ->
  Sections.pluginData s = Sections.noData ->
  fst (Plugin.handleRefreshSection figma)
  = Plugin.closed Plugin.NoStoredConfiguration
  /\ Plugin.page (snd (Plugin.handleRefreshSection figma))
     = Plugin.page figma.
Proof.
  intros Hsel Htarget Hs Hdata. unfold Plugin.handleRefreshSection.
  rewrite Hsel, Htarget, Hs, Hdata. split; reflexivity.
Qed.

Lemma refresh_without_settings_witness :
  fst (Plugin.handleRefreshSection (Samples.nested Sections.noData))
  = Plugin.closed Plugin.NoStoredConfiguration
  /\ Plugin.page (snd (Plugin.handleRefreshSection
                         (Samples.nested Sections.noData)))
     = Plugin.page (Samples.nested Sections.noData).
Proof.
  apply (refresh_without_settings (Samples.nested Sections.noData)
           [0%nat; 0%nat; 0%nat] [0%nat; 0%nat]
           (Samples.innerSection Sections.noData));
    reflexivity.
Defined.

Module Malformed.
Import Geometry Sections Plugin GeometryFacts.

Lemma round_same (p q : Q) : p == q -> JS.Math_round p = JS.Math_round q.
Proof.
  intro H. unfold JS.Math_round. apply Qfloor_comp. rewrite H. reflexivity.
Qed.

Lemma clamp_same (p q : Q) : p == q -> Qmax 0 p == Qmax 0 q.
Proof. intro H. rewrite H. reflexivity. Qed.

(** The members of a section, in the coordinates of its parent, written
    out. *)
Definition inParent (s : SceneNode) (members : list PositionedNode)
  : list PositionedNode :=
  map (fun m => mkFrame (frame_x (geometry s) + frame_x m)
                        (frame_y (geometry s) + frame_y m)
                        (frame_width m) (frame_height m))
      members.

Lemma absoluteFrames_inParent (s : SceneNode) (frames : list SceneNode) :
  absoluteFrames s frames = inParent s (map geometry frames).
Proof.
  unfold absoluteFrames, inParent. rewrite map_map. reflexivity.
Qed.

(** The padding between the edges of the members and the section, no
    side below 0, rounded. *)
Definition paddingAround (s : SceneNode)
    (left_edge right_edge top_edge bottom_edge : Q) : Padding :=
  mkPadding
    (inject_Z (JS.Math_round (Qmax 0 top_edge)))
    (inject_Z (JS.Math_round
                 (Qmax 0 (frame_width (geometry s) - right_edge))))
    (inject_Z (JS.Math_round
                 (Qmax 0 (frame_height (geometry s) - bottom_edge))))
    (inject_Z (JS.Math_round (Qmax 0 left_edge))).

Lemma detectPadding_edges (s first : SceneNode) (rest : list SceneNode)
    (left_edge right_edge top_edge bottom_edge : Q) :
  let members := map geometry (first :: rest) in
  isMinOf left_edge (map frame_x members) ->
  isMaxOf right_edge (map right_of members) ->
  isMinOf top_edge (map frame_y members) ->
  isMaxOf bottom_edge (map bottom_of members) ->
  detectPadding s first rest
  = paddingAround s left_edge right_edge top_edge bottom_edge.
Proof.
  intros members Hleft Hright Htop Hbottom. subst members.
  cbn [map] in *.
  set (b := boundingBox (geometry first) (map geometry rest)).
  assert (Ex : minX b == left_edge).
  { eapply isMinOf_unique; [apply boundingBox_minX | exact Hleft]. }
  assert (Ey : minY b == top_edge).
  { eapply isMinOf_unique; [apply boundingBox_minY | exact Htop]. }
  assert (Ew : maxX b == right_edge).
  { eapply isMaxOf_unique; [apply boundingBox_maxX | exact Hright]. }
  assert (Eh : maxY b == bottom_edge).
  { eapply isMaxOf_unique; [apply boundingBox_maxY | exact Hbottom]. }
  unfold detectPadding, paddingAround. fold b.
  f_equal; f_equal; apply round_same; apply clamp_same;
    rewrite ?Ex, ?Ey, ?Ew, ?Eh; reflexivity.
Qed.

End Malformed.

(** C7.  On a section whose stored settings cannot be parsed:
    [handleUpdateSection] stops with the notice that the section has no
    elements when the section has no child with position and size, and
    else does not stop: it posts the [init] message with the spacing, the
    layout and the alignment detected on the members in the coordinates
    of the parent, and with the padding between the edges of the members
    and the section, no side below 0, rounded.  [handleRefreshSection]
    notifies the error and closes; the page is as it was, the section is
    the selection and the node that was selected is kept in
    [originalSelectionToRestore]. *)
Theorem malformed_settings (figma : Plugin.Figma)
    (node section : Plugin.Path) (s : Sections.SceneNode) :
  Plugin.selection figma = [node] ->
  Plugin.targetSection (Plugin.page figma) node = Some section ->
  Plugin.nodeAt (Plugin.page figma) section = Some s ->
  Sections.pluginData s = Sections.unreadable ->
  (Sections.findFramesInSection s = [] ->
   fst (Plugin.handleUpdateSection figma)
   = Plugin.closed Plugin.NoElementsInSection)
  /\ (forall first rest left_edge right_edge top_edge bottom_edge,
         Sections.findFramesInSection s = first :: rest ->
         let members := map Sections.geometry (first :: rest) in
         let absolute := Malformed.inParent s members in
         isMinOf left_edge (map frame_x members) ->
         isMaxOf right_edge (map GeometryFacts.right_of members) ->
         isMinOf top_edge (map frame_y members) ->
         isMaxOf bottom_edge (map GeometryFacts.bottom_of members) ->
         fst (Plugin.handleUpdateSection figma)
         = Plugin.posted
             (Plugin.mkInit
                (option_map inject_Z (Spacing.detectSpacing absolute))
                (Malformed.paddingAround s left_edge right_edge top_edge
                                         bottom_edge)
                (fst (Classifier.detectLayoutAndAlignment absolute))
                (snd (Classifier.detectLayoutAndAlignment absolute))))
  /\ Plugin.handleRefreshSection figma
     = (Plugin.closed Plugin.MalformedStoredConfiguration,
        Plugin.mkFigma (Plugin.page figma) [section] (Some [node])).
Proof.
  intros Hsel Htarget Hs Hdata. split; [| split].
  - intro Hnone. unfold Plugin.handleUpdateSection.
    rewrite Hsel, Htarget, Hs, Hnone. reflexivity.
  - intros first rest left_edge right_edge top_edge bottom_edge Hframes
           members absolute Hleft Hright Htop Hbottom.
    unfold Plugin.handleUpdateSection.
    rewrite Hsel, Htarget, Hs, Hframes, Hdata. cbn [fst].
    rewrite Malformed.absoluteFrames_inParent.
    fold members. fold absolute.
    rewrite (Malformed.detectPadding_edges s first rest left_edge right_edge
               top_edge bottom_edge Hleft Hright Htop Hbottom).
    reflexivity.
  - unfold Plugin.handleRefreshSection.
    rewrite Hsel, Htarget, Hs, Hdata. reflexivity.
Qed.

Lemma malformed_settings_witness :
  fst (Plugin.handleUpdateSection (Samples.column Sections.unreadable))
  = Plugin.posted
      (Plugin.mkInit (Some 10) (mkPadding 20 30 30 20) vertical left)
  /\ Plugin.handleRefreshSection (Samples.column Sections.unreadable)
     = (Plugin.closed Plugin.MalformedStoredConfiguration,
        Plugin.mkFigma
          (Plugin.page (Samples.column Sections.unreadable))
          [[0%nat]] (Some [[0%nat; 0%nat]])).
Proof.
  destruct (malformed_settings (Samples.column Sections.unreadable)
              [0%nat; 0%nat] [0%nat]
              (Sections.mkNode Sections.SECTION true (mkFrame 100 50 150 260)
                 Sections.unreadable
                 [Samples.frameNode 20 20 100 100;
                  Samples.frameNode 20 130 100 100])
              eq_refl eq_refl eq_refl eq_refl)
    as (_ & Hupdate & Hrefresh).
  split; [| exact Hrefresh].
  rewrite (Hupdate (Samples.frameNode 20 20 100 100)
                   [Samples.frameNode 20 130 100 100]
                   20 120 20 230 eq_refl).
  - reflexivity.
  - extremum_at 20.
  - extremum_at (GeometryFacts.right_of (mkFrame 20 20 100 100)).
  - extremum_at 20.
  - extremum_at (GeometryFacts.bottom_of (mkFrame 20 130 100 100)).
Defined.

(** C7 as stated fails twice: on a section without members whose
    settings cannot be parsed the update stops, and the refresh that
    stops has changed the selection and [originalSelectionToRestore]. *)
Lemma malformed_settings_counterexample :
  Sections.pluginData
    (Sections.mkNode Sections.SECTION true (mkFrame 0 0 400 400)
       Sections.unreadable [])
  = Sections.unreadable
  /\ Plugin.handleUpdateSection (Samples.bare Sections.unreadable)
     = (Plugin.closed Plugin.NoElementsInSection,
        Plugin.mkFigma (Plugin.page (Samples.bare Sections.unreadable))
                       [[0%nat]] (Some [[0%nat]]))
  /\ Plugin.selection (Samples.nested Sections.unreadable)
     = [[0%nat; 0%nat; 0%nat]]
  /\ Plugin.selection
       (snd (Plugin.handleRefreshSection
               (Samples.nested Sections.unreadable)))
     = [[0%nat; 0%nat]]
  /\ snd (Plugin.handleRefreshSection (Samples.nested Sections.unreadable))
     <> Samples.nested Sections.unreadable.
Proof.
  repeat split; try reflexivity. intro H.
  apply (f_equal Plugin.selection) in H. discriminate H.
Qed.

(* ------------------------------------------------------------------ *)
(** ** What the arrangement leaves in the array *)

Module Arranged.
Import Arrange Along.

Lemma place_width ax main cross f :
  frame_width (place ax main cross f) = frame_width f.
Proof. destruct ax; reflexivity. Qed.

Lemma place_height ax main cross f :
  frame_height (place ax main cross f) = frame_height f.
Proof. destruct ax; reflexivity. Qed.



Lemma place_extent ax ax' main cross f :
  extent ax' (place ax main cross f) = extent ax' f.
Proof. destruct ax, ax'; reflexivity. Qed.

Lemma indexed_nth_from (frames : list PositionedNode) :
  forall s i f,
    In (i, f) (combine (seq s (length frames)) frames) ->
    (s <= i)%nat /\ nth_error frames (i - s) = Some f.
Proof.
  induction frames as [| a tl IH]; intros s i f H; simpl in H.
  - destruct H.
  - destruct H as [H | H].
    + inversion H; subst. rewrite Nat.sub_diag. split; [lia | reflexivity].
    + destruct (IH (S s) i f H) as [Hle Hnth]. split; [lia |].
      replace (i - s)%nat with (S (i - S s)) by lia. exact Hnth.
Qed.

Lemma indexed_nth (frames : list PositionedNode) i f :
  In (i, f) (indexed frames) -> nth_error frames i = Some f.
Proof.
  intro H. destruct (indexed_nth_from frames 0 i f H) as [_ Hnth].
  rewrite Nat.sub_0_r in Hnth. exact Hnth.
Qed.

(** An entry of the sorted array is the frame at its index. *)
Lemma sorted_snapshot ax (frames : list PositionedNode) e :
  In e (sortedAlong ax frames) -> nth_error frames (fst e) = Some (snd e).
Proof.
  intro H. apply indexed_nth.
  apply (Permutation_in _ (Array_sort_perm _ (indexed frames))) in H.
  destruct e. exact H.
Qed.

Lemma lookup_some (i : nat) (l : list (nat * PositionedNode)) :
  In i (map fst l) -> exists f, lookup i l = Some f /\ In (i, f) l.
Proof.
  induction l as [| e tl IH]; simpl; intro H.
  - destruct H.
  - destruct (Nat.eqb_spec i (fst e)) as [E | E].
    + exists (snd e). split; [reflexivity |]. left.
      subst i. destruct e; reflexivity.
    + destruct H as [H | H]; [congruence |].
      destruct (IH H) as (f & Hf & Hin). exists f. split; [exact Hf |].
      right. exact Hin.
Qed.

Lemma placed_In ax anchor base spacing sorted :
  forall current i f,
    In (i, f) (placed ax anchor base spacing current sorted) ->
    exists e main,
      In e sorted /\ fst e = i
      /\ f = place ax main
               (crossAt anchor base (extent (across ax) (snd e))) (snd e).
Proof.
  induction sorted as [| e tl IH]; intros current i f H; simpl in H.
  - destruct H.
  - destruct H as [H | H].
    + inversion H; subst. exists e, current.
      split; [left; reflexivity | split; reflexivity].
    + destruct (IH _ i f H) as (e' & main & Hin & Hfst & Hf).
      exists e', main. split; [right; exact Hin | split; assumption].
Qed.


(** The array after the loop, index by index. *)
Lemma arrangeAlong_nth ax anchor frames spacing startMain startCross
    maxCross :
  maxAcross ax (sortedAlong ax frames) = Some maxCross ->
  let arranged :=
    arrangeAlong ax anchor frames spacing startMain startCross in
  let written :=
    placed ax anchor (baseOf anchor startCross maxCross) spacing startMain
           (sortedAlong ax frames) in
  length arranged = length frames
  /\ forall i, (i < length frames)%nat ->
               exists f, lookup i written = Some f
                         /\ nth_error arranged i = Some f
                         /\ In (i, f) written.
Proof.
  intros Hmax arranged written. subst arranged written.
  unfold arrangeAlong. rewrite Hmax.
  destruct (fold_step_spec ax anchor (baseOf anchor startCross maxCross)
              spacing (sortedAlong ax frames) frames startMain
              (sortedAlong_nodup ax frames) (sortedAlong_valid ax frames))
    as [Hlen Hnth].
  split; [exact Hlen |].
  intros i Hi.
  destruct (lookup_some i
              (placed ax anchor (baseOf anchor startCross maxCross) spacing
                 startMain (sortedAlong ax frames))) as (f & Hf & Hin).
  { rewrite placed_fst.
    apply (Permutation_in _ (Permutation_sym (sortedAlong_indices ax frames))).
    apply in_seq. lia. }
  exists f. split; [exact Hf |]. split; [| exact Hin].
  rewrite Hnth, Hf. reflexivity.
Qed.

Lemma arrangeAlong_length ax anchor frames spacing startMain startCross :
  length (arrangeAlong ax anchor frames spacing startMain startCross)
  = length frames.
Proof.
  destruct (maxAcross ax (sortedAlong ax frames)) as [m |] eqn:E.
  - apply (arrangeAlong_nth ax anchor frames spacing startMain startCross m E).
  - unfold arrangeAlong. rewrite E. reflexivity.
Qed.

(** A frame keeps its place in the array, its width and its height. *)
Definition sameSize (f f' : PositionedNode) : Prop :=
  frame_width f = frame_width f' /\ frame_height f = frame_height f'.

Lemma Forall2_nth {A B : Type} (R : A -> B -> Prop) (l : list A)
    (l' : list B) :
  length l = length l' ->
  (forall i a b, nth_error l i = Some a -> nth_error l' i = Some b ->
                 R a b) ->
  Forall2 R l l'.
Proof.
  revert l'. induction l as [| a tl IH]; intros [| b tl'] Hlen H;
    simpl in Hlen; try discriminate.
  - constructor.
  - constructor.
    + apply (H 0%nat); reflexivity.
    + apply IH; [lia |]. intros i a' b' Ha Hb. apply (H (S i)); assumption.
Qed.

Lemma arrangeAlong_sameSize ax anchor frames spacing startMain startCross :
  Forall2 sameSize frames
    (arrangeAlong ax anchor frames spacing startMain startCross).
Proof.
  apply Forall2_nth; [symmetry; apply arrangeAlong_length |].
  intros i f f' Hf Hf'.
  destruct (maxAcross ax (sortedAlong ax frames)) as [m |] eqn:E.
  - destruct (arrangeAlong_nth ax anchor frames spacing startMain startCross
                m E) as [_ Hnth].
    destruct (Hnth i) as (w & _ & Hw & Hin).
    { apply nth_error_Some. congruence. }
    rewrite Hw in Hf'. inversion Hf'; subst w.
    apply placed_In in Hin. destruct Hin as (e & main & He & Hfst & ->).
    apply sorted_snapshot in He. rewrite Hfst, Hf in He.
    inversion He; subst f.
    split; [rewrite place_width | rewrite place_height]; reflexivity.
  - unfold arrangeAlong in Hf'. rewrite E in Hf'.
    rewrite Hf in Hf'. inversion Hf'; subst. split; reflexivity.
Qed.

Lemma arrange_sameSize (msg : Settings) (frames : list PositionedNode)
    (minX minY : Q) :
  Forall2 sameSize frames (Sections.arrange msg frames minX minY).
Proof.
  unfold Sections.arrange. destruct (layout msg).
  - rewrite horizontal_along. apply arrangeAlong_sameSize.
  - rewrite vertical_along. apply arrangeAlong_sameSize.
  - unfold arrangeFramesMaintain.
    induction frames; constructor; [split; reflexivity | assumption].
Qed.

End Arranged.

(* ------------------------------------------------------------------ *)
(** ** The box of a section *)

Module Fit.
Import Geometry Arrange Sections GeometryFacts.

Lemma maxRelative_fold (relative : list PositionedNode) :
  forall m,
    fst (fold_left
           (fun m f => (Qmax (fst m) (frame_x f + frame_width f),
                        Qmax (snd m) (frame_y f + frame_height f)))
           relative m)
    = fold_left Qmax (map right_of relative) (fst m)
    /\ snd (fold_left
              (fun m f => (Qmax (fst m) (frame_x f + frame_width f),
                           Qmax (snd m) (frame_y f + frame_height f)))
              relative m)
       = fold_left Qmax (map bottom_of relative) (snd m).
Proof.
  induction relative as [| f tl IH]; intro m; simpl.
  - split; reflexivity.
  - apply IH.
Qed.

Lemma fold_Qmax_from_zero (l : list Q) :
  (exists v, In v l /\ 0 <= v) -> isMaxOf (fold_left Qmax l 0) l.
Proof.
  intros (v0 & Hv0 & Hpos).
  destruct (fold_Qmax_isMax l 0) as [(v & Hv & Ev) Hle]. split.
  - destruct Hv as [<- | Hv].
    + exists v0. split; [exact Hv0 |].
      specialize (Hle v0 (or_intror Hv0)). lra.
    + exists v. split; assumption.
  - intros w Hw. apply Hle. right. exact Hw.
Qed.

(** The arrangement gives back as many frames as it got. *)
Lemma arrange_length (msg : Settings) (frames : list PositionedNode)
    (minX minY : Q) :
  length (arrange msg frames minX minY) = length frames.
Proof.
  symmetry. eapply Forall2_length. apply Arranged.arrange_sameSize.
Qed.

(** [fitSection] on an array with a first frame. *)
Lemma fitSection_some (msg : Settings) (first : PositionedNode)
    (rest : list PositionedNode) :
  exists moved others,
    arrange msg (first :: rest) (minX (boundingBox first rest))
            (minY (boundingBox first rest)) = moved :: others
    /\ fitSection msg (first :: rest)
       = Some (mkFrame
                 (minX (boundingBox moved others) - pad_left (padding msg))
                 (minY (boundingBox moved others) - pad_top (padding msg))
                 (fold_left Qmax
                    (map right_of
                       (map (relativeTo msg (minX (boundingBox moved others))
                               (minY (boundingBox moved others)))
                            (moved :: others))) 0
                  + pad_right (padding msg))
                 (fold_left Qmax
                    (map bottom_of
                       (map (relativeTo msg (minX (boundingBox moved others))
                               (minY (boundingBox moved others)))
                            (moved :: others))) 0
                  + pad_bottom (padding msg)),
               map (relativeTo msg (minX (boundingBox moved others))
                      (minY (boundingBox moved others)))
                   (moved :: others)).
Proof.
  pose proof (arrange_length msg (first :: rest)
                (minX (boundingBox first rest))
                (minY (boundingBox first rest))) as Hlen.
  destruct (arrange msg (first :: rest) (minX (boundingBox first rest))
              (minY (boundingBox first rest))) as [| moved others] eqn:E;
    [discriminate |].
  exists moved, others. split; [reflexivity |].
  unfold fitSection. rewrite E. unfold maxRelative.
  destruct (maxRelative_fold
              (map (relativeTo msg (minX (boundingBox moved others))
                      (minY (boundingBox moved others))) (moved :: others))
              (0, 0)) as [-> ->].
  reflexivity.
Qed.

Lemma fitSection_length (msg : Settings) (frames : list PositionedNode)
    (box : PositionedNode) (relative : list PositionedNode) :
  fitSection msg frames = Some (box, relative) ->
  length relative = length frames.
Proof.
  intro Hfit. destruct frames as [| first rest]; [discriminate |].
  destruct (fitSection_some msg first rest) as (moved & others & Harr & Heq).
  rewrite Heq in Hfit.
  assert (Hpair :=
    f_equal (fun o => match o with Some p => p | None => (box, relative) end)
            Hfit).
  cbv beta iota in Hpair. apply pair_equal_spec in Hpair.
  destruct Hpair as [_ Hrel]. rewrite <- Hrel, length_map, <- Harr.
  apply arrange_length.
Qed.

Definition nonNegativeSizes (frames : list PositionedNode) : Prop :=
  Forall (fun f => 0 <= frame_width f /\ 0 <= frame_height f) frames.

(** The box of [fitSection] ends [padding.right] after the rightmost frame
    and [padding.bottom] below the lowest one. *)
Lemma fitSection_fits (msg : Settings) (frames : list PositionedNode)
    (box : PositionedNode) (relative : list PositionedNode) :
  0 <= pad_left (padding msg) ->
  0 <= pad_top (padding msg) ->
  nonNegativeSizes frames ->
  fitSection msg frames = Some (box, relative) ->
  length relative = length frames
  /\ isMaxOf (frame_width box - pad_right (padding msg))
             (map right_of relative)
  /\ isMaxOf (frame_height box - pad_bottom (padding msg))
             (map bottom_of relative).
Proof.
  intros Hleft Htop Hsizes Hfit.
  destruct frames as [| first rest]; [discriminate |].
  destruct (fitSection_some msg first rest) as (moved & others & Harr & Heq).
  rewrite Heq in Hfit.
  assert (Hpair :=
    f_equal (fun o => match o with Some p => p | None => (box, relative) end)
            Hfit).
  cbv beta iota in Hpair. apply pair_equal_spec in Hpair.
  destruct Hpair as [Hbox Hrel]. rewrite <- Hbox, <- Hrel. clear Hfit Hbox Hrel.
  set (nb := boundingBox moved others).
  assert (Hsame : Forall2 Arranged.sameSize (first :: rest) (moved :: others)).
  { rewrite <- Harr. apply Arranged.arrange_sameSize. }
  assert (Hmoved : nonNegativeSizes (moved :: others)).
  { clear - Hsizes Hsame. unfold nonNegativeSizes in *.
    induction Hsame as [| f f' l l' [Hw Hh] _ IH]; [constructor |].
    inversion Hsizes; subst. constructor; [| apply IH; assumption].
    rewrite <- Hw, <- Hh. assumption. }
  assert (HminX : forall f, In f (moved :: others) -> minX nb <= frame_x f).
  { intros f Hf. apply (proj2 (boundingBox_minX moved others)).
    apply in_map. exact Hf. }
  assert (HminY : forall f, In f (moved :: others) -> minY nb <= frame_y f).
  { intros f Hf. apply (proj2 (boundingBox_minY moved others)).
    apply in_map. exact Hf. }
  assert (Hfirst : 0 <= frame_width moved /\ 0 <= frame_height moved)
    by (inversion Hmoved; assumption).
  split; [| split].
  - rewrite length_map. symmetry. eapply Forall2_length. exact Hsame.
  - cbn [frame_width].
    destruct (fold_Qmax_from_zero
                (map right_of
                   (map (relativeTo msg (minX nb) (minY nb))
                        (moved :: others)))) as [(v & Hv & Ev) Hle].
    { exists (right_of (relativeTo msg (minX nb) (minY nb) moved)).
      split; [left; reflexivity |].
      unfold right_of, relativeTo. cbn [frame_x frame_width].
      specialize (HminX moved (or_introl eq_refl)). lra. }
    split.
    + exists v. split; [exact Hv | lra].
    + intros w Hw. specialize (Hle w Hw). lra.
  - cbn [frame_height].
    destruct (fold_Qmax_from_zero
                (map bottom_of
                   (map (relativeTo msg (minX nb) (minY nb))
                        (moved :: others)))) as [(v & Hv & Ev) Hle].
    { exists (bottom_of (relativeTo msg (minX nb) (minY nb) moved)).
      split; [left; reflexivity |].
      unfold bottom_of, relativeTo. cbn [frame_y frame_height].
      specialize (HminY moved (or_introl eq_refl)). lra. }
    split.
    + exists v. split; [exact Hv | lra].
    + intros w Hw. specialize (Hle w Hw). lra.
Qed.

Lemma withGeometry_geometry (nodes : list SceneNode) :
  forall geometries,
    length geometries = length nodes ->
    map geometry (withGeometry nodes geometries) = geometries.
Proof.
  unfold withGeometry.
  induction nodes as [| n tl IH]; intros [| g gs] H; simpl in *;
    try discriminate; try reflexivity.
  rewrite IH by lia. reflexivity.
Qed.

Lemma withGeometry_positioned (nodes : list SceneNode) :
  forall geometries,
    Forall (fun n => hasPositionAndSize n = true) nodes ->
    filter hasPositionAndSize (withGeometry nodes geometries)
    = withGeometry nodes geometries.
Proof.
  unfold withGeometry.
  induction nodes as [| n tl IH]; intros [| g gs] H; simpl in *;
    try reflexivity.
  inversion H as [| n' l' Hn Htl]; subst.
  rewrite Hn. rewrite (IH gs Htl). reflexivity.
Qed.

Lemma filter_positioned (nodes : list SceneNode) :
  Forall (fun n => hasPositionAndSize n = true)
         (filter hasPositionAndSize nodes).
Proof.
  apply Forall_forall. intros n Hn. apply filter_In in Hn. tauto.
Qed.

Lemma filter_not_positioned (nodes : list SceneNode) :
  filter hasPositionAndSize
    (filter (fun n => negb (hasPositionAndSize n)) nodes) = [].
Proof.
  induction nodes as [| n tl IH]; simpl; [reflexivity |].
  destruct (hasPositionAndSize n) eqn:E; simpl; [exact IH |].
  rewrite E. exact IH.
Qed.

(** The frames of a section made by [createSection]. *)
Lemma createSection_frames (selection : list SceneNode) (msg : Settings)
    (section : SceneNode) :
  createSection selection msg = Some section ->
  exists box relative,
    fitSection msg (map geometry (filter hasPositionAndSize selection))
    = Some (box, relative)
    /\ geometry section = box
    /\ pluginData section = storedSettings msg
    /\ children section
       = withGeometry (filter hasPositionAndSize selection) relative
    /\ findFramesInSection section
       = withGeometry (filter hasPositionAndSize selection) relative.
Proof.
  unfold createSection. intro H.
  destruct (fitSection msg _) as [[box relative] |] eqn:E; [| discriminate].
  inversion H; subst section; clear H.
  exists box, relative. repeat split.
  unfold findFramesInSection. cbn [children].
  apply withGeometry_positioned. apply filter_positioned.
Qed.

(** The frames of a section after [rearrange]. *)
Lemma rearrange_frames (section : SceneNode) (msg : Settings)
    (section' : SceneNode) :
  rearrange section msg = Some section' ->
  exists box relative,
    fitSection msg
      (map (toAbsolute section) (map geometry (findFramesInSection section)))
    = Some (box, relative)
    /\ geometry section' = box
    /\ pluginData section' = storedSettings msg
    /\ findFramesInSection section'
       = withGeometry (findFramesInSection section) relative.
Proof.
  unfold rearrange. intro H.
  destruct (fitSection msg _) as [[box relative] |] eqn:E; [| discriminate].
  inversion H; subst section'; clear H.
  exists box, relative. repeat split.
  unfold findFramesInSection at 1. cbn [children].
  rewrite filter_app, filter_not_positioned. cbn [app].
  apply withGeometry_positioned. apply filter_positioned.
Qed.

(** The width and height of a section against its frames and a padding. *)
Definition fits (msg : Settings) (section : SceneNode) : Prop :=
  isMaxOf (frame_width (geometry section) - pad_right (padding msg))
          (map right_of (map geometry (findFramesInSection section)))
  /\ isMaxOf (frame_height (geometry section) - pad_bottom (padding msg))
             (map bottom_of (map geometry (findFramesInSection section))).

End Fit.

(** C5.  With a padding that is not negative on the left and on top, and
    frames whose widths and heights are not negative: the section that
    [createSection] makes, and the section after [updateSection] has
    rearranged it, is as wide as the greatest [x + width] of its frames
    (relative to the section) plus [padding.right], and as high as the
    greatest [y + height] plus [padding.bottom]. *)
Theorem section_size_fits (msg : Settings) :
  0 <= pad_left (padding msg) ->
  0 <= pad_top (padding msg) ->
  (forall selection,
      filter Sections.hasPositionAndSize selection <> [] ->
      Fit.nonNegativeSizes
        (map Sections.geometry
             (filter Sections.hasPositionAndSize selection)) ->
      exists section,
        Sections.createSection selection msg = Some section
        /\ Fit.fits msg section)
  /\ (forall section,
         Sections.findFramesInSection section <> [] ->
         Fit.nonNegativeSizes
           (map Sections.geometry (Sections.findFramesInSection section)) ->
         exists section',
           Sections.rearrange section msg = Some section'
           /\ Fit.fits msg section').
Proof.
  intros Hleft Htop. split.
  - intros selection Hne Hsizes.
    destruct (Sections.createSection selection msg) as [section |] eqn:E.
    + exists section. split; [reflexivity |].
      destruct (Fit.createSection_frames _ _ _ E)
        as (box & relative & Hfit & Hbox & _ & _ & Hframes).
      destruct (Fit.fitSection_fits msg _ box relative Hleft Htop Hsizes Hfit)
        as (Hlen & Hw & Hh).
      unfold Fit.fits. rewrite Hframes, Hbox.
      rewrite Fit.withGeometry_geometry
        by (rewrite Hlen, length_map; reflexivity).
      split; assumption.
    + exfalso. unfold Sections.createSection in E.
      destruct (filter Sections.hasPositionAndSize selection)
        as [| first rest]; [congruence |].
      cbn [map] in E.
      destruct (Fit.fitSection_some msg (Sections.geometry first)
                  (map Sections.geometry rest)) as (? & ? & _ & Heq).
      rewrite Heq in E. discriminate.
  - intros section Hne Hsizes.
    assert (Habs : Fit.nonNegativeSizes
              (map (Sections.toAbsolute section)
                 (map Sections.geometry (Sections.findFramesInSection section)))).
    { unfold Fit.nonNegativeSizes in *. rewrite Forall_map.
      eapply Forall_impl; [| exact Hsizes]. intros f H. exact H. }
    destruct (Sections.rearrange section msg) as [section' |] eqn:E.
    + exists section'. split; [reflexivity |].
      destruct (Fit.rearrange_frames _ _ _ E)
        as (box & relative & Hfit & Hbox & _ & Hframes).
      destruct (Fit.fitSection_fits msg _ box relative Hleft Htop Habs Hfit)
        as (Hlen & Hw & Hh).
      unfold Fit.fits. rewrite Hframes, Hbox.
      rewrite Fit.withGeometry_geometry
        by (rewrite Hlen, !length_map; reflexivity).
      split; assumption.
    + exfalso. unfold Sections.rearrange in E.
      destruct (Sections.findFramesInSection section)
        as [| first rest]; [congruence |].
      cbn [map] in E.
      destruct (Fit.fitSection_some msg
                  (Sections.toAbsolute section (Sections.geometry first))
                  (map (Sections.toAbsolute section)
                       (map Sections.geometry rest))) as (? & ? & _ & Heq).
      rewrite Heq in E. discriminate.
Qed.

Module Example.
Import Sections.

(** Padding 80 on every side, gap 10, in a row, aligned on top. *)
Definition settings : Settings :=
  mkSettings (mkPadding 80 80 80 80) 10 horizontal top.

(** Three frames of 100 by 100 at [x] 0, 110 and 220. *)
Definition threeFrames : list SceneNode :=
  [mkNode FRAME true (mkFrame 0 0 100 100) noData [];
   mkNode FRAME true (mkFrame 110 0 100 100) noData [];
   mkNode FRAME true (mkFrame 220 0 100 100) noData []].

End Example.

Lemma section_size_fits_witness :
  exists section,
    Sections.createSection Example.threeFrames Example.settings = Some section
    /\ Fit.fits Example.settings section.
Proof.
  refine (proj1 (section_size_fits Example.settings _ _)
                Example.threeFrames _ _).
  - vm_compute. discriminate.
  - vm_compute. discriminate.
  - discriminate.
  - repeat constructor; vm_compute; discriminate.
Defined.

(* ------------------------------------------------------------------ *)
(** ** Sorting what is in order already *)

Module Resort.

Section Increasing.
Context {A : Type}.
Variable key : A -> Q.






End Increasing.





End Resort.

(* ------------------------------------------------------------------ *)
(** ** Frames at the same place *)

Module Same.
Import Arrange Along Arranged.

(** Equal as numbers in [x] and [y]; the width and the height are copied
    and stay what they are. *)
Definition samePlace (f f' : PositionedNode) : Prop :=
  frame_x f == frame_x f' /\ frame_y f == frame_y f'
  /\ frame_width f = frame_width f' /\ frame_height f = frame_height f'.



Lemma samePlace_extent ax f f' :
  samePlace f f' -> extent ax f = extent ax f'.
Proof. intros (_ & _ & Hw & Hh). destruct ax; assumption. Qed.


Lemma samePlace_sym f f' : samePlace f f' -> samePlace f' f.
Proof.
  intros (Hx & Hy & Hw & Hh).
  repeat split; symmetry; assumption.
Qed.

Lemma samePlace_trans f f' f'' :
  samePlace f f' -> samePlace f' f'' -> samePlace f f''.
Proof.
  intros (Hx & Hy & Hw & Hh) (Hx' & Hy' & Hw' & Hh').
  repeat split; etransitivity; eassumption.
Qed.




Lemma Forall2_nth_error {A B : Type} (R : A -> B -> Prop) (l : list A)
    (l' : list B) :
  Forall2 R l l' ->
  forall i a, nth_error l i = Some a ->
              exists b, nth_error l' i = Some b /\ R a b.
Proof.
  intro H. induction H as [| a0 b0 l l' Hab _ IH]; intros [| i] a Ha;
    simpl in *; try discriminate.
  - inversion Ha; subst. exists b0. split; [reflexivity | exact Hab].
  - apply IH. exact Ha.
Qed.

(** *** What is written, for two arrays that agree *)








End Same.

(* ------------------------------------------------------------------ *)
(** ** Arranging what is arranged already *)

Module Again.
Import Arrange Along Arranged Same Resort.

(** The first arrangement: what it writes and what it leaves. *)
Definition written ax anchor frames spacing startMain startCross maxCross
  : list (nat * PositionedNode) :=
  placed ax anchor (baseOf anchor startCross maxCross) spacing startMain
         (sortedAlong ax frames).














End Again.

(* ------------------------------------------------------------------ *)
(** ** Updating a section that was just laid out *)

Module Twice.
Import Geometry Arrange Sections GeometryFacts Along Same Fit.












End Twice.



Module Overlap.
Import Sections.


(** A column without gap and without padding, aligned on the left. *)
Definition column : Settings :=
  mkSettings (mkPadding 0 0 0 0) 0 vertical left.

End Overlap.


(* ------------------------------------------------------------------ *)
(** ** What [detectSpacing] can return *)

Module Measured.
Import Spacing Groups.

(** A scan that keeps the key of a group it prefers ends on what it
    started with or on the key of a group. *)
Lemma scan_key (prefers : nat * option Z -> Z * list Q -> bool)
    (groups : Spacing.Groups) :
  forall acc,
    let r := fold_left
               (fun acc g => if prefers acc g
                             then (length (snd g), Some (fst g)) else acc)
               groups acc in
    snd r = snd acc \/ exists g, In g groups /\ snd r = Some (fst g).
Proof.
  induction groups as [| g rest IH]; intro acc; cbn [fold_left].
  - left. reflexivity.
  - destruct (prefers acc g).
    + destruct (IH (length (snd g), Some (fst g))) as [H | (g' & Hin & H)].
      * right. exists g. split; [left; reflexivity | exact H].
      * right. exists g'. split; [right; exact Hin | exact H].
    + destruct (IH acc) as [H | (g' & Hin & H)].
      * left. exact H.
      * right. exists g'. split; [right; exact Hin | exact H].
Qed.

Lemma mostCommon_key (groups : Spacing.Groups) (k : Z) :
  snd (mostCommon groups) = Some k -> In k (map fst groups).
Proof.
  intro H. unfold mostCommon in H.
  destruct (scan_key (fun acc g => (fst acc <? length (snd g))%nat) groups
              (0%nat, None)) as [E | (g & Hin & E)];
    cbv zeta in E; rewrite H in E.
  - discriminate.
  - inversion E. apply in_map. exact Hin.
Qed.

Lemma bestNonZeroShare_key (groups : Spacing.Groups) (total : nat) (k : Z) :
  snd (bestNonZeroShare groups total) = Some k -> In k (map fst groups).
Proof.
  intro H. unfold bestNonZeroShare in H.
  destruct (scan_key
              (fun acc g =>
                 (0 <? fst g)%Z && (fst acc <? length (snd g))%nat
                 && (2 <=? length (snd g))%nat
                 && JS.leb (JS.num total * (1 # 20))
                           (JS.num (length (snd g))))
              groups (0%nat, None)) as [E | (g & Hin & E)];
    cbv zeta in E; rewrite H in E.
  - discriminate.
  - inversion E. apply in_map. exact Hin.
Qed.

Lemma bestNonZero_key (groups : Spacing.Groups) (k : Z) :
  snd (bestNonZero groups) = Some k -> In k (map fst groups).
Proof.
  intro H. unfold bestNonZero in H.
  destruct (scan_key
              (fun acc g =>
                 (0 <? fst g)%Z && (2 <=? length (snd g))%nat
                 && (fst acc <? length (snd g))%nat)
              groups (0%nat, None)) as [E | (g & Hin & E)];
    cbv zeta in E; rewrite H in E.
  - discriminate.
  - inversion E. apply in_map. exact Hin.
Qed.

(** A key of the groups is the rounding of a gap. *)
Lemma key_rounds (gaps : list Q) (k : Z) :
  Forall (fun s => 0 <= s) gaps ->
  In k (map fst (spacingGroups gaps)) ->
  exists s, In s gaps /\ JS.Math_round s = k.
Proof.
  intros Hpos Hin.
  pose proof (spacingGroups_built gaps Hpos) as B.
  apply in_map_iff in Hin. destruct Hin as ([k' vs] & Hk & Hin).
  simpl in Hk. subst k'.
  destruct (built_members _ _ B k vs Hin) as [Hvs Hne].
  destruct vs as [| s vs']; [congruence |].
  assert (Hs : In s (bucket k gaps)) by (rewrite <- Hvs; left; reflexivity).
  unfold bucket in Hs. apply filter_In in Hs. destruct Hs as [Hs Hr].
  exists s. split; [exact Hs | apply Z.eqb_eq; exact Hr].
Qed.

Lemma pickSpacing_rounds (gaps : list Q) (v : Z) :
  Forall (fun s => 0 <= s) gaps ->
  pickSpacing gaps = Some v ->
  exists s, In s gaps /\ JS.Math_round s = v.
Proof.
  intros Hpos H. unfold pickSpacing in H.
  destruct gaps as [| firstSpacing rest]; [discriminate |].
  destruct (isEven (firstSpacing :: rest) firstSpacing
            && JS.leb 0 firstSpacing).
  - inversion H. exists firstSpacing. split; [left; reflexivity | reflexivity].
  - destruct (mostCommon (spacingGroups (firstSpacing :: rest)))
      as [maxCount mostCommonSpacing] eqn:Emost.
    assert (Hmost : forall k, mostCommonSpacing = Some k ->
              exists s, In s (firstSpacing :: rest) /\ JS.Math_round s = k).
    { intros k Hk. apply (key_rounds _ k Hpos).
      apply mostCommon_key. rewrite Emost. exact Hk. }
    destruct (isSome mostCommonSpacing
              && JS.leb (JS.num (length (firstSpacing :: rest)) * (1 # 5))
                        (JS.num maxCount)).
    + destruct (isZero mostCommonSpacing
                && JS.ltb (JS.num maxCount)
                          (JS.num (length (firstSpacing :: rest)) * (1 # 2))).
      * destruct (snd (bestNonZeroShare (spacingGroups (firstSpacing :: rest))
                         (length (firstSpacing :: rest)))) as [best |] eqn:Eb.
        -- inversion H; subst best. apply (key_rounds _ v Hpos).
           eapply bestNonZeroShare_key. exact Eb.
        -- apply Hmost. exact H.
      * apply Hmost. exact H.
    + destruct (isZero mostCommonSpacing
                || isSome mostCommonSpacing
                   && JS.ltb (JS.num maxCount)
                        (JS.num (length (firstSpacing :: rest)) * (1 # 5)));
        [| discriminate].
      apply (key_rounds _ v Hpos). apply bestNonZero_key. exact H.
Qed.

End Measured.

(** X1.  A spacing that [detectSpacing] returns is the rounding of a gap it
    measured between two of the frames, of which there are two at least;
    it is never negative. *)
Theorem detectSpacing_measured (frames : list PositionedNode) (v : Z) :
  Spacing.detectSpacing frames = Some v ->
  (2 <= length frames)%nat
  /\ (0 <= v)%Z
  /\ exists s, In s (Spacing.allSpacings frames) /\ 0 <= s
               /\ JS.Math_round s = v.
Proof.
  unfold Spacing.detectSpacing. intro H.
  destruct (Nat.ltb_spec (length frames) 2) as [| Hlen]; [discriminate |].
  assert (Hpos : Forall (fun s => 0 <= s) (Spacing.allSpacings frames)).
  { apply Forall_forall. intros s Hs.
    eapply SpacingFacts.allSpacings_nonneg. exact Hs. }
  destruct (Measured.pickSpacing_rounds _ v Hpos H) as (s & Hs & Hr).
  rewrite Forall_forall in Hpos.
  split; [exact Hlen |]. split.
  - rewrite <- Hr. apply Groups.round_nonneg. apply Hpos. exact Hs.
  - exists s. split; [exact Hs |]. split; [apply Hpos; exact Hs | exact Hr].
Qed.

Lemma detectSpacing_measured_witness :
  (2 <= 3)%nat
  /\ (0 <= 10)%Z
  /\ exists s,
       In s (Spacing.allSpacings
               [mkFrame 0 0 100 100; mkFrame 110 0 100 100;
                mkFrame 220 0 100 100])
       /\ 0 <= s /\ JS.Math_round s = 10%Z.
Proof.
  apply (detectSpacing_measured
           [mkFrame 0 0 100 100; mkFrame 110 0 100 100; mkFrame 220 0 100 100]
           10%Z).
  reflexivity.
Defined.

(* ------------------------------------------------------------------ *)
(** ** The answers of the classifier *)

(** The alignments that go with a layout. *)
Definition alignmentFits (l : Layout) (a : Alignment) : Prop :=
  match l with
  | horizontal => a = top \/ a = bottom \/ a = center
  | vertical => a = left \/ a = right \/ a = center
  | maintain => a = top
  end.

(** X2.  Whatever the frames, [detectLayoutAndAlignment] answers with an
    alignment that goes with its layout: top, bottom or center for a row,
    left, right or center for a column, top for maintain; and on fewer than
    two frames the answer is a row aligned on top. *)
Theorem classify_consistent (frames : list PositionedNode) :
  alignmentFits (fst (Classifier.detectLayoutAndAlignment frames))
                (snd (Classifier.detectLayoutAndAlignment frames))
  /\ ((length frames < 2)%nat ->
      Classifier.detectLayoutAndAlignment frames = (horizontal, top)).
Proof.
  split.
  - unfold Classifier.detectLayoutAndAlignment.
    destruct frames as [| first [| second rest]]; cbn [fst snd alignmentFits];
      try (left; reflexivity).
    cbv zeta.
    repeat match goal with
      | |- context [if ?b then _ else _] => destruct b
      end; cbn [fst snd alignmentFits]; auto.
  - intro H. destruct frames as [| first [| second rest]];
      [reflexivity | reflexivity | simpl in H; lia].
Qed.

Lemma classify_consistent_witness :
  Classifier.detectLayoutAndAlignment [mkFrame 0 0 100 300]
  = (horizontal, top).
Proof.
  apply (proj2 (classify_consistent [mkFrame 0 0 100 300])).
  simpl. lia.
Defined.

(** X3.  On at least two frames whose bounding box is not narrower than 0
    and more than 1.2 times as high as it is wide,
    [detectLayoutAndAlignment] answers vertical, with the first alignment
    that holds among: left (every left edge within 2 units of the left
    edge of the first frame), right (the same for the right edges), center
    (every horizontal centre within 2 units of the arithmetic mean of the
    centres, the number whose product with the count of the frames is the
    sum of the centres); and left when none holds. *)
Theorem classify_vertical (frames : list PositionedNode)
    (first : PositionedNode) (rest : list PositionedNode)
    (left_edge right_edge top_edge bottom_edge mean : Q) :
  frames = first :: rest ->
  (2 <= length frames)%nat ->
  isMinOf left_edge (map frame_x frames) ->
  isMaxOf right_edge (map GeometryFacts.right_of frames) ->
  isMinOf top_edge (map frame_y frames) ->
  isMaxOf bottom_edge (map GeometryFacts.bottom_of frames) ->
  0 <= right_edge - left_edge ->
  (right_edge - left_edge) * (6 # 5) < bottom_edge - top_edge ->
  ClassifierFacts.isMeanOf mean (map ClassifierFacts.centerX frames) ->
  let lefts :=
    Forall (fun f => Qabs (frame_x f - frame_x first) <= 2) frames in
  let rights :=
    Forall (fun f => Qabs (GeometryFacts.right_of f
                           - GeometryFacts.right_of first) <= 2) frames in
  let centers :=
    Forall (fun f => Qabs (ClassifierFacts.centerX f - mean) <= 2) frames in
  let result := Classifier.detectLayoutAndAlignment frames in
  fst result = vertical
  /\ (lefts -> snd result = left)
  /\ (~ lefts -> rights -> snd result = right)
  /\ (~ lefts -> ~ rights -> centers -> snd result = center)
  /\ (~ lefts -> ~ rights -> ~ centers -> snd result = left).
Proof.
  intros Hframes Hlen HminX HmaxX HminY HmaxY Hwidth Htall Hmean.
  destruct rest as [| second rest']; [subst frames; simpl in Hlen; lia |].
  intros lefts rights centers result.
  subst result. unfold Classifier.detectLayoutAndAlignment.
  rewrite Hframes. rewrite <- Hframes.
  set (b := Geometry.boundingBox first (second :: rest')).
  assert (EminX : Geometry.minX b == left_edge).
  { eapply isMinOf_unique; [apply GeometryFacts.boundingBox_minX |].
    rewrite <- Hframes. exact HminX. }
  assert (EmaxX : Geometry.maxX b == right_edge).
  { eapply isMaxOf_unique; [apply GeometryFacts.boundingBox_maxX |].
    rewrite <- Hframes. exact HmaxX. }
  assert (EminY : Geometry.minY b == top_edge).
  { eapply isMinOf_unique; [apply GeometryFacts.boundingBox_minY |].
    rewrite <- Hframes. exact HminY. }
  assert (EmaxY : Geometry.maxY b == bottom_edge).
  { eapply isMaxOf_unique; [apply GeometryFacts.boundingBox_maxY |].
    rewrite <- Hframes. exact HmaxY. }
  assert (Hhoriz : JS.ltb ((Geometry.maxY b - Geometry.minY b) * (6 # 5))
                     (Geometry.maxX b - Geometry.minX b) = false).
  { apply ltb_false_iff. lra. }
  assert (Hvert : JS.ltb ((Geometry.maxX b - Geometry.minX b) * (6 # 5))
                    (Geometry.maxY b - Geometry.minY b) = true).
  { apply ltb_true_iff. lra. }
  cbv zeta. rewrite Hhoriz, Hvert.
  assert (Hleft : hd 0 (map frame_x frames) = frame_x first)
    by (rewrite Hframes; reflexivity).
  assert (Hright :
    hd 0 (map (fun f => frame_x f + frame_width f) frames)
    = GeometryFacts.right_of first)
    by (rewrite Hframes; reflexivity).
  assert (Hsome : frames <> []) by (rewrite Hframes; discriminate).
  rewrite Hleft, Hright.
  change (map (fun f => frame_x f + frame_width f) frames)
    with (map GeometryFacts.right_of frames).
  change (map (fun f => frame_x f + frame_width f / 2) frames)
    with (map ClassifierFacts.centerX frames).
  destruct (Classifier.aligned (map frame_x frames) (frame_x first)) eqn:El.
  - apply ClassifierFacts.aligned_iff in El.
    repeat split; try reflexivity; intros; contradiction.
  - apply ClassifierFacts.aligned_false_iff in El.
    destruct (Classifier.aligned (map GeometryFacts.right_of frames)
                (GeometryFacts.right_of first)) eqn:Er.
    + apply ClassifierFacts.aligned_iff in Er.
      repeat split; try reflexivity; intros; contradiction.
    + apply ClassifierFacts.aligned_false_iff in Er.
      destruct (Classifier.aligned (map ClassifierFacts.centerX frames)
                  (Classifier.average
                     (map ClassifierFacts.centerX frames))) eqn:Ec.
      * apply (ClassifierFacts.aligned_mean _ _ mean Hsome Hmean) in Ec.
        repeat split; try reflexivity; intros; contradiction.
      * apply (ClassifierFacts.aligned_mean_false _ _ mean Hsome Hmean)
          in Ec.
        repeat split; try reflexivity; intros; contradiction.
Qed.

Lemma classify_vertical_witness :
  Classifier.detectLayoutAndAlignment
    [mkFrame 0 0 100 100; mkFrame 20 110 60 100] = (vertical, center).
Proof.
  destruct (classify_vertical
              [mkFrame 0 0 100 100; mkFrame 20 110 60 100]
              (mkFrame 0 0 100 100) [mkFrame 20 110 60 100]
              0 100 0 210 50 eq_refl)
    as (Hlayout & _ & _ & Hcenter & _).
  - simpl. lia.
  - extremum_at 0.
  - extremum_at (GeometryFacts.right_of (mkFrame 0 0 100 100)).
  - extremum_at 0.
  - extremum_at (GeometryFacts.bottom_of (mkFrame 20 110 60 100)).
  - vm_compute. discriminate.
  - vm_compute. reflexivity.
  - vm_compute. reflexivity.
  - rewrite (surjective_pairing (Classifier.detectLayoutAndAlignment _)).
    rewrite Hlayout, Hcenter; [reflexivity | | |].
    + intro H. inversion H as [| a l _ H1]; subst.
      inversion H1 as [| a l H2 _]; subst. vm_compute in H2. apply H2.
      reflexivity.
    + intro H. inversion H as [| a l _ H1]; subst.
      inversion H1 as [| a l H2 _]; subst. vm_compute in H2. apply H2.
      reflexivity.
    + repeat constructor; vm_compute; discriminate.
Defined.

(* ------------------------------------------------------------------ *)
(** ** More on the arrangement *)



(** X5.  Whatever the layout, the arrangement gives back as many frames as
    it got, each at its index with the width and the height it had: it
    writes positions only. *)
Theorem arrange_keeps_sizes (msg : Settings) (frames : list PositionedNode)
    (minX minY : Q) :
  length (Sections.arrange msg frames minX minY) = length frames
  /\ forall i f f',
       nth_error frames i = Some f ->
       nth_error (Sections.arrange msg frames minX minY) i = Some f' ->
       frame_width f' = frame_width f /\ frame_height f' = frame_height f.
Proof.
  pose proof (Arranged.arrange_sameSize msg frames minX minY) as H.
  split.
  - symmetry. eapply Forall2_length. exact H.
  - intros i f f' Hf Hf'.
    destruct (Same.Forall2_nth_error _ _ _ H i f Hf) as (g & Hg & Hw & Hh).
    rewrite Hf' in Hg. inversion Hg; subst. split; symmetry; assumption.
Qed.

Lemma arrange_keeps_sizes_witness :
  exists f',
    nth_error
      (Sections.arrange Example.settings
         [mkFrame 50 3 10 20; mkFrame 0 7 30 40] 0 0) 0
    = Some f'
    /\ frame_width f' = 10 /\ frame_height f' = 20.
Proof.
  destruct (nth_error
              (Sections.arrange Example.settings
                 [mkFrame 50 3 10 20; mkFrame 0 7 30 40] 0 0) 0)
    as [f' |] eqn:E; [| vm_compute in E; discriminate].
  exists f'. split; [reflexivity |].
  apply (proj2 (arrange_keeps_sizes Example.settings
                  [mkFrame 50 3 10 20; mkFrame 0 7 30 40] 0 0)
               0%nat (mkFrame 50 3 10 20) f' eq_refl E).
Defined.

(* ------------------------------------------------------------------ *)
(** ** Where a section and its frames end up *)

Module Corner.
Import Geometry Arrange Sections GeometryFacts Along Fit.

(** [fitSection], taken apart. *)
Lemma fitSection_parts (msg : Settings) (first : PositionedNode)
    (rest : list PositionedNode) (box : PositionedNode)
    (relative : list PositionedNode) :
  fitSection msg (first :: rest) = Some (box, relative) ->
  exists moved others,
    arrange msg (first :: rest) (minX (boundingBox first rest))
            (minY (boundingBox first rest)) = moved :: others
    /\ frame_x box = minX (boundingBox moved others) - pad_left (padding msg)
    /\ frame_y box = minY (boundingBox moved others) - pad_top (padding msg)
    /\ relative
       = map (relativeTo msg (minX (boundingBox moved others))
                (minY (boundingBox moved others))) (moved :: others).
Proof.
  intro Hfit.
  destruct (fitSection_some msg first rest) as (moved & others & Harr & Heq).
  rewrite Heq in Hfit.
  assert (Hpair :=
    f_equal (fun o => match o with Some p => p | None => (box, relative) end)
            Hfit).
  cbv beta iota in Hpair. apply pair_equal_spec in Hpair.
  destruct Hpair as [Hbox Hrel].
  exists moved, others. split; [exact Harr |].
  rewrite <- Hbox, <- Hrel. repeat split.
Qed.

Lemma fitSection_starts (msg : Settings) (frames : list PositionedNode)
    (box : PositionedNode) (relative : list PositionedNode) :
  fitSection msg frames = Some (box, relative) ->
  isMinOf (pad_left (padding msg)) (map frame_x relative)
  /\ isMinOf (pad_top (padding msg)) (map frame_y relative).
Proof.
  intro Hfit.
  destruct frames as [| first rest]; [discriminate |].
  destruct (fitSection_parts _ _ _ _ _ Hfit)
    as (moved & others & _ & _ & _ & ->).
  set (nb := boundingBox moved others).
  destruct (boundingBox_minX moved others) as [(vx & Hvx & Evx) Hlex].
  destruct (boundingBox_minY moved others) as [(vy & Hvy & Evy) Hley].
  fold nb in Evx, Hlex, Evy, Hley.
  split; split.
  - apply in_map_iff in Hvx. destruct Hvx as (f & <- & Hf).
    exists (frame_x (relativeTo msg (minX nb) (minY nb) f)). split.
    + apply in_map. apply in_map. exact Hf.
    + cbn [relativeTo frame_x]. lra.
  - intros w Hw. apply in_map_iff in Hw. destruct Hw as (r & <- & Hr).
    apply in_map_iff in Hr. destruct Hr as (f & <- & Hf).
    cbn [relativeTo frame_x].
    specialize (Hlex (frame_x f) (in_map frame_x _ _ Hf)). lra.
  - apply in_map_iff in Hvy. destruct Hvy as (f & <- & Hf).
    exists (frame_y (relativeTo msg (minX nb) (minY nb) f)). split.
    + apply in_map. apply in_map. exact Hf.
    + cbn [relativeTo frame_y]. lra.
  - intros w Hw. apply in_map_iff in Hw. destruct Hw as (r & <- & Hr).
    apply in_map_iff in Hr. destruct Hr as (f & <- & Hf).
    cbn [relativeTo frame_y].
    specialize (Hley (frame_y f) (in_map frame_y _ _ Hf)). lra.
Qed.

End Corner.

(** X8.  In a section that [createSection] made or that was updated, the
    least [x] of the frames is [padding.left] and their least [y] is
    [padding.top], whatever the settings and the frames. *)
Theorem frames_start_at_padding (msg : Settings) :
  (forall selection section,
      Sections.createSection selection msg = Some section ->
      let frames :=
        map Sections.geometry (Sections.findFramesInSection section) in
      isMinOf (pad_left (padding msg)) (map frame_x frames)
      /\ isMinOf (pad_top (padding msg)) (map frame_y frames))
  /\ (forall section section',
         Sections.rearrange section msg = Some section' ->
         let frames :=
           map Sections.geometry (Sections.findFramesInSection section') in
         isMinOf (pad_left (padding msg)) (map frame_x frames)
         /\ isMinOf (pad_top (padding msg)) (map frame_y frames)).
Proof.
  split.
  - intros selection section Hcreate frames. subst frames.
    destruct (Fit.createSection_frames _ _ _ Hcreate)
      as (box & relative & Hfit & _ & _ & _ & Hframes).
    rewrite Hframes, Fit.withGeometry_geometry.
    + apply (Corner.fitSection_starts msg _ box relative Hfit).
    + rewrite (Fit.fitSection_length _ _ _ _ Hfit). apply length_map.
  - intros section section' Hupdate frames. subst frames.
    destruct (Fit.rearrange_frames _ _ _ Hupdate)
      as (box & relative & Hfit & _ & _ & Hframes).
    rewrite Hframes, Fit.withGeometry_geometry.
    + apply (Corner.fitSection_starts msg _ box relative Hfit).
    + rewrite (Fit.fitSection_length _ _ _ _ Hfit), !length_map.
      reflexivity.
Qed.

Lemma frames_start_at_padding_witness :
  exists section,
    Sections.createSection Example.threeFrames Example.settings = Some section
    /\ isMinOf 80
         (map frame_x
              (map Sections.geometry (Sections.findFramesInSection section)))
    /\ isMinOf 80
         (map frame_y
              (map Sections.geometry (Sections.findFramesInSection section))).
Proof.
  destruct (Sections.createSection Example.threeFrames Example.settings)
    as [section |] eqn:E.
  - exists section. split; [reflexivity |].
    apply (proj1 (frames_start_at_padding Example.settings)
                 Example.threeFrames section E).
  - vm_compute in E. discriminate.
Defined.

(* ------------------------------------------------------------------ *)
(** ** The stored presets *)

Module PresetFacts.
Import Presets.

Lemma hasId_true (id : String.string) (p : Preset) :
  hasId id p = true <-> preset_id p = id.
Proof. unfold hasId. apply String.eqb_eq. Qed.

Lemma hasId_false (id : String.string) (p : Preset) :
  hasId id p = false <-> preset_id p <> id.
Proof. unfold hasId. apply String.eqb_neq. Qed.

(** The identifiers of the presets, in their order. *)
Definition ids (presets : list Preset) : list String.string :=
  map preset_id presets.

Lemma findIndex_none (id : String.string) (presets : list Preset) :
  findIndex id presets = None <-> ~ In id (ids presets).
Proof.
  induction presets as [| p rest IH]; simpl.
  - split; [intros _ [] | reflexivity].
  - destruct (hasId id p) eqn:E.
    + apply hasId_true in E. split; [discriminate | intro H; tauto].
    + apply hasId_false in E.
      destruct (findIndex id rest) as [i |].
      * split; [discriminate |]. intro H. exfalso.
        destruct IH as [_ IH].
        assert (Hin : In id (ids rest)).
        { destruct (in_dec String.string_dec id (ids rest)) as [Hin | Hout];
            [exact Hin | specialize (IH Hout); discriminate]. }
        apply H. right. exact Hin.
      * split; [| reflexivity]. intros _ [H | H]; [congruence |].
        destruct IH as [IH _]. exact (IH eq_refl H).
Qed.

Lemma findIndex_some (id : String.string) (presets : list Preset) (i : nat) :
  findIndex id presets = Some i -> In id (ids presets).
Proof.
  intro H.
  destruct (in_dec String.string_dec id (ids presets)) as [Hin | Hout];
    [exact Hin |].
  apply findIndex_none in Hout. congruence.
Qed.

(** After [presets[existingIndex] = preset], the search for the
    identifier of the preset finds the preset. *)
Lemma find_written (preset : Preset) :
  forall presets i,
    findIndex (preset_id preset) presets = Some i ->
    find (hasId (preset_id preset)) (JS.write i preset presets)
    = Some preset.
Proof.
  induction presets as [| p rest IH]; intros i H; simpl in H;
    [discriminate |].
  destruct (hasId (preset_id preset) p) eqn:E.
  - injection H as <-. simpl.
    assert (Hself : hasId (preset_id preset) preset = true)
      by (apply hasId_true; reflexivity).
    rewrite Hself. reflexivity.
  - destruct (findIndex (preset_id preset) rest) as [j |] eqn:F;
      [| discriminate].
    injection H as <-. simpl. rewrite E. apply IH. reflexivity.
Qed.

Lemma find_written_other (preset : Preset) (id : String.string) :
  id <> preset_id preset ->
  forall presets i,
    findIndex (preset_id preset) presets = Some i ->
    find (hasId id) (JS.write i preset presets) = find (hasId id) presets.
Proof.
  intros Hother.
  induction presets as [| p rest IH]; intros i H; simpl in H;
    [discriminate |].
  destruct (hasId (preset_id preset) p) eqn:E.
  - injection H as <-. simpl.
    apply hasId_true in E.
    assert (H1 : hasId id preset = false)
      by (apply hasId_false; congruence).
    assert (H2 : hasId id p = false)
      by (apply hasId_false; congruence).
    rewrite H1, H2. reflexivity.
  - destruct (findIndex (preset_id preset) rest) as [j |] eqn:F;
      [| discriminate].
    injection H as <-. simpl.
    destruct (hasId id p); [reflexivity |]. apply IH. reflexivity.
Qed.

Lemma ids_written (preset : Preset) :
  forall presets i,
    findIndex (preset_id preset) presets = Some i ->
    ids (JS.write i preset presets) = ids presets.
Proof.
  induction presets as [| p rest IH]; intros i H; simpl in H;
    [discriminate |].
  destruct (hasId (preset_id preset) p) eqn:E.
  - injection H as <-. simpl. apply hasId_true in E. rewrite E.
    reflexivity.
  - destruct (findIndex (preset_id preset) rest) as [j |] eqn:F;
      [| discriminate].
    injection H as <-. simpl. f_equal. apply IH. reflexivity.
Qed.

Lemma find_none (id : String.string) (presets : list Preset) :
  find (hasId id) presets = None <-> ~ In id (ids presets).
Proof.
  induction presets as [| p rest IH]; simpl.
  - split; [intros _ [] | reflexivity].
  - destruct (hasId id p) eqn:E.
    + apply hasId_true in E. split; [discriminate | intro H; tauto].
    + apply hasId_false in E. rewrite IH.
      split; [intros H [H' | H']; [congruence | tauto] | tauto].
Qed.

Lemma find_pushed (preset : Preset) (presets : list Preset) :
  ~ In (preset_id preset) (ids presets) ->
  find (hasId (preset_id preset)) (presets ++ [preset]) = Some preset.
Proof.
  induction presets as [| p rest IH]; simpl; intro H.
  - assert (Hself : hasId (preset_id preset) preset = true)
      by (apply hasId_true; reflexivity).
    rewrite Hself. reflexivity.
  - assert (E : hasId (preset_id preset) p = false)
      by (apply hasId_false; tauto).
    rewrite E. apply IH. tauto.
Qed.

Lemma find_pushed_other (preset : Preset) (id : String.string)
    (presets : list Preset) :
  id <> preset_id preset ->
  find (hasId id) (presets ++ [preset]) = find (hasId id) presets.
Proof.
  intro Hother.
  induction presets as [| p rest IH]; simpl.
  - assert (E : hasId id preset = false) by (apply hasId_false; congruence).
    rewrite E. reflexivity.
  - destruct (hasId id p); [reflexivity | exact IH].
Qed.

(** What the storage holds under the key, read or not. *)
Definition held (storage : ClientStorage) : list Preset :=
  match stored storage with
  | Some presets => presets
  | None => []
  end.

Lemma getPresets_held (storage : ClientStorage) :
  getPresets storage = if getThrows storage then [] else held storage.
Proof.
  unfold getPresets, getAsync, held.
  destruct (getThrows storage); [reflexivity |].
  destruct (stored storage); reflexivity.
Qed.

Lemma held_set (storage storage' : ClientStorage) (presets : list Preset) :
  setAsync storage presets = Some storage' -> held storage' = presets.
Proof.
  unfold setAsync, held. destruct (setThrows storage); [discriminate |].
  intro H. injection H as <-. reflexivity.
Qed.

(** What is read after a [setAsync] that did not throw. *)
Lemma getPresets_set (storage storage' : ClientStorage)
    (presets : list Preset) :
  getThrows storage = false ->
  setAsync storage presets = Some storage' ->
  getPresets storage' = presets.
Proof.
  unfold setAsync, getPresets, getAsync. intros Hget H.
  destruct (setThrows storage); [discriminate |].
  injection H as <-. cbn [getThrows stored]. rewrite Hget. reflexivity.
Qed.

Lemma find_filtered (id : String.string) (presets : list Preset) :
  find (hasId id) (filter (fun p => negb (hasId id p)) presets) = None.
Proof.
  induction presets as [| p rest IH]; simpl; [reflexivity |].
  destruct (hasId id p) eqn:E; simpl; [exact IH |].
  rewrite E. exact IH.
Qed.

Lemma find_filtered_other (id other : String.string)
    (presets : list Preset) :
  other <> id ->
  find (hasId other) (filter (fun p => negb (hasId id p)) presets)
  = find (hasId other) presets.
Proof.
  intro Hother.
  induction presets as [| p rest IH]; simpl; [reflexivity |].
  destruct (hasId id p) eqn:E; simpl.
  - apply hasId_true in E.
    assert (E' : hasId other p = false) by (apply hasId_false; congruence).
    rewrite E'. exact IH.
  - destruct (hasId other p); [reflexivity | exact IH].
Qed.

Lemma filter_absent (id : String.string) (presets : list Preset) :
  ~ In id (ids presets) ->
  filter (fun p => negb (hasId id p)) presets = presets.
Proof.
  induction presets as [| p rest IH]; simpl; intro H; [reflexivity |].
  assert (E : hasId id p = false) by (apply hasId_false; tauto).
  rewrite E. simpl. f_equal. apply IH. tauto.
Qed.

Lemma ids_filtered (id : String.string) (presets : list Preset) :
  ids (filter (fun p => negb (hasId id p)) presets)
  = filter (fun i => negb (String.eqb i id)) (ids presets).
Proof.
  induction presets as [| p rest IH]; simpl; [reflexivity |].
  unfold hasId at 1. destruct (String.eqb (preset_id p) id); simpl;
    [exact IH | f_equal; exact IH].
Qed.

End PresetFacts.

Module PresetSamples.
Import Presets String.StringSyntax.
Local Open Scope string_scope.

Definition empty : ClientStorage := mkStorage None false false.

Definition first : Preset := mkPreset "a" "First" Example.settings.

Definition second : Preset := mkPreset "b" "Second" Example.settings.

(** [first] with other settings. *)
Definition replaced : Preset :=
  mkPreset "a" "First" (mkSettings (mkPadding 0 0 0 0) 0 vertical left).

Definition two : ClientStorage := mkStorage (Some [first; second]) false false.

End PresetSamples.

(** X11.  Where reading the storage does not throw, after [savePreset]
    has stored a preset, [getPreset] with the identifier of the preset
    gives that preset, and with any other identifier what it gave
    before. *)
Theorem savePreset_getPreset (storage storage' : Presets.ClientStorage)
    (preset : Presets.Preset) :
  Presets.getThrows storage = false ->
  Presets.savePreset storage preset = Some storage' ->
  Presets.getPreset storage' (Presets.preset_id preset) = Some preset
  /\ forall id,
       id <> Presets.preset_id preset ->
       Presets.getPreset storage' id = Presets.getPreset storage id.
Proof.
  intros Hget Hsave. unfold Presets.savePreset in Hsave.
  unfold Presets.getPreset.
  rewrite (PresetFacts.getPresets_set _ _ _ Hget Hsave).
  destruct (Presets.findIndex (Presets.preset_id preset)
              (Presets.getPresets storage)) as [i |] eqn:E.
  - split.
    + apply PresetFacts.find_written. exact E.
    + intros id Hother. apply PresetFacts.find_written_other; assumption.
  - apply PresetFacts.findIndex_none in E. split.
    + apply PresetFacts.find_pushed. exact E.
    + intros id Hother. apply PresetFacts.find_pushed_other. exact Hother.
Qed.

Lemma savePreset_getPreset_witness :
  exists storage',
    Presets.savePreset PresetSamples.empty PresetSamples.first
    = Some storage'
    /\ Presets.getPreset storage' (Presets.preset_id PresetSamples.first)
       = Some PresetSamples.first.
Proof.
  exists (Presets.mkStorage (Some [PresetSamples.first]) false false).
  split; [reflexivity |].
  apply (savePreset_getPreset PresetSamples.empty _ PresetSamples.first
           eq_refl eq_refl).
Defined.

(** X12.  After a [savePreset] that did not throw, no identifier is
    held twice that was not held twice before.  Where reading the storage
    does not throw, the identifiers held, in their order, are what they
    were when the identifier of the preset was among them (the preset
    takes the place of the old one), and else what they were with the new
    identifier at the end.  Where reading throws, [getPresets] answers the
    empty array and the save leaves the new preset alone in the storage,
    whatever was held. *)
Theorem savePreset_ids (storage storage' : Presets.ClientStorage)
    (preset : Presets.Preset) :
  Presets.savePreset storage preset = Some storage' ->
  let before := PresetFacts.ids (PresetFacts.held storage) in
  let after := PresetFacts.ids (PresetFacts.held storage') in
  (Presets.getThrows storage = false ->
   (In (Presets.preset_id preset) before -> after = before)
   /\ (~ In (Presets.preset_id preset) before ->
       after = before ++ [Presets.preset_id preset]))
  /\ (Presets.getThrows storage = true ->
      PresetFacts.held storage' = [preset])
  /\ (NoDup before -> NoDup after).
Proof.
  intros Hsave before after. subst before after.
  unfold Presets.savePreset in Hsave.
  rewrite (PresetFacts.held_set _ _ _ Hsave).
  rewrite PresetFacts.getPresets_held.
  destruct (Presets.getThrows storage).
  - cbn [Presets.findIndex app].
    split; [discriminate |]. split; [reflexivity |].
    intros _. repeat constructor. intros [].
  - destruct (Presets.findIndex (Presets.preset_id preset)
                (PresetFacts.held storage)) as [i |] eqn:E.
    + rewrite (PresetFacts.ids_written _ _ _ E).
      pose proof (PresetFacts.findIndex_some _ _ _ E) as Hin.
      split; [intros _; split; [reflexivity | tauto] |].
      split; [discriminate | tauto].
    + apply PresetFacts.findIndex_none in E.
      unfold PresetFacts.ids in *. rewrite map_app. cbn [map].
      split; [intros _; split; [tauto | reflexivity] |].
      split; [discriminate |].
      intro Hnodup. apply NoDup_app. repeat split.
      * exact Hnodup.
      * repeat constructor. intros [].
      * intros a Ha [<- | []]. exact (E Ha).
Qed.

Lemma savePreset_ids_witness :
  exists storage',
    Presets.savePreset PresetSamples.two PresetSamples.replaced
    = Some storage'
    /\ PresetFacts.ids (PresetFacts.held storage')
       = PresetFacts.ids (PresetFacts.held PresetSamples.two)
    /\ NoDup (PresetFacts.ids (PresetFacts.held storage')).
Proof.
  exists (Presets.mkStorage
            (Some [PresetSamples.replaced; PresetSamples.second])
            false false).
  split; [reflexivity |].
  destruct (savePreset_ids PresetSamples.two _ PresetSamples.replaced
              eq_refl) as (Hread & _ & Hnodup).
  split.
  - apply (proj1 (Hread eq_refl)). left. reflexivity.
  - apply Hnodup. repeat constructor; simpl; intuition discriminate.
Defined.

(** X13.  Where reading does not throw, after [deletePreset] there is no
    preset under the identifier, every other identifier gives what it
    gave before, the presets left are in the order they had, and deleting
    an identifier that is not stored leaves the presets as they were. *)
Theorem deletePreset_removes (storage storage' : Presets.ClientStorage)
    (presetId : String.string) :
  Presets.getThrows storage = false ->
  Presets.deletePreset storage presetId = Some storage' ->
  Presets.getPreset storage' presetId = None
  /\ (forall id,
         id <> presetId ->
         Presets.getPreset storage' id = Presets.getPreset storage id)
  /\ PresetFacts.ids (Presets.getPresets storage')
     = filter (fun id => negb (String.eqb id presetId))
              (PresetFacts.ids (Presets.getPresets storage))
  /\ (Presets.getPreset storage presetId = None ->
      Presets.getPresets storage' = Presets.getPresets storage).
Proof.
  intros Hget Hdelete. unfold Presets.deletePreset in Hdelete.
  unfold Presets.getPreset.
  rewrite (PresetFacts.getPresets_set _ _ _ Hget Hdelete).
  split; [apply PresetFacts.find_filtered |].
  split; [intros id Hother; apply PresetFacts.find_filtered_other;
          exact Hother |].
  split; [apply PresetFacts.ids_filtered |].
  intro Hnone. apply PresetFacts.filter_absent.
  apply PresetFacts.find_none. exact Hnone.
Qed.

Lemma deletePreset_removes_witness :
  exists storage',
    Presets.deletePreset PresetSamples.two
      (Presets.preset_id PresetSamples.first) = Some storage'
    /\ Presets.getPreset storage' (Presets.preset_id PresetSamples.first)
       = None.
Proof.
  exists (Presets.mkStorage (Some [PresetSamples.second]) false false).
  split; [reflexivity |].
  apply (proj1 (deletePreset_removes PresetSamples.two _
                  (Presets.preset_id PresetSamples.first)
                  eq_refl eq_refl)).
Defined.

(** X15.  The [update-preset] message, where the storage neither throws
    on reading nor on writing: for an identifier that is not stored it
    posts [Preset not found] and stores nothing; for a stored one it
    posts the preset with its identifier and its name kept and the new
    settings, after which [getPreset] gives that preset, the identifiers
    stored are the same in the same order, and every other identifier
    gives what it gave before. *)
Theorem update_preset_keeps_name (storage : Presets.ClientStorage)
    (presetId : String.string) (settings : Settings) :
  Presets.getThrows storage = false ->
  Presets.setThrows storage = false ->
  match Presets.getPreset storage presetId with
  | None =>
      Presets.onUpdatePreset storage presetId settings
      = (Presets.presetError Presets.PresetNotFound, storage)
  | Some existing =>
      let updated :=
        Presets.mkPreset presetId (Presets.preset_name existing) settings in
      exists storage',
        Presets.onUpdatePreset storage presetId settings
        = (Presets.presetUpdated updated, storage')
        /\ Presets.getPreset storage' presetId = Some updated
        /\ PresetFacts.ids (Presets.getPresets storage')
           = PresetFacts.ids (Presets.getPresets storage)
        /\ forall id,
             id <> presetId ->
             Presets.getPreset storage' id = Presets.getPreset storage id
  end.
Proof.
  intros Hget Hset. unfold Presets.onUpdatePreset.
  destruct (Presets.getPreset storage presetId) as [existing |] eqn:E;
    [| reflexivity].
  assert (Hid : Presets.preset_id existing = presetId).
  { unfold Presets.getPreset in E. apply find_some in E.
    apply PresetFacts.hasId_true. tauto. }
  assert (Hin : In presetId (PresetFacts.ids (Presets.getPresets storage))).
  { unfold Presets.getPreset in E. apply find_some in E.
    rewrite <- Hid. apply in_map. tauto. }
  rewrite Hid. cbv zeta.
  set (updated :=
         Presets.mkPreset presetId (Presets.preset_name existing) settings).
  unfold Presets.savePreset.
  destruct (Presets.findIndex (Presets.preset_id updated)
              (Presets.getPresets storage)) as [i |] eqn:F.
  - assert (S : exists storage',
               Presets.setAsync storage
                 (JS.write i updated (Presets.getPresets storage))
               = Some storage').
    { unfold Presets.setAsync. rewrite Hset. eexists. reflexivity. }
    destruct S as (storage' & S). rewrite S.
    exists storage'. split; [reflexivity |].
    unfold Presets.getPreset.
    rewrite (PresetFacts.getPresets_set _ _ _ Hget S).
    split; [exact (PresetFacts.find_written updated _ _ F) |].
    split; [exact (PresetFacts.ids_written updated _ _ F) |].
    intros id Hother.
    apply (PresetFacts.find_written_other updated id); assumption.
  - exfalso. apply PresetFacts.findIndex_none in F. apply F. exact Hin.
Qed.

Lemma update_preset_keeps_name_witness :
  exists storage',
    Presets.onUpdatePreset PresetSamples.two
      (Presets.preset_id PresetSamples.first)
      (Presets.preset_settings PresetSamples.replaced)
    = (Presets.presetUpdated PresetSamples.replaced, storage')
    /\ Presets.getPreset storage' (Presets.preset_id PresetSamples.first)
       = Some PresetSamples.replaced.
Proof.
  destruct (update_preset_keeps_name PresetSamples.two
              (Presets.preset_id PresetSamples.first)
              (Presets.preset_settings PresetSamples.replaced)
              eq_refl eq_refl) as (storage' & Hposted & Hfound & _).
  exists storage'. split; [exact Hposted | exact Hfound].
Defined.

(* ------------------------------------------------------------------ *)
(** ** What an update leaves alone *)

Module Locality.
Import Sections Plugin.

(** Two nodes neither of which is the other or lies inside the other: the
    ways down to them from the page part at some child. *)
Definition apart (a b : Path) : Prop :=
  exists common i j ra rb,
    i <> j /\ rev a = common ++ i :: ra /\ rev b = common ++ j :: rb.

Lemma descend_replaced (new : SceneNode) (route : list nat) :
  forall nodes old,
    descend nodes route = Some old ->
    descend (replaceIn nodes route new) route = Some new.
Proof.
  induction route as [| i rest IH]; intros nodes old H; [discriminate |].
  cbn [descend replaceIn] in *.
  destruct (nth_error nodes i) as [n |] eqn:E; [| discriminate].
  assert (Hi : (i < length nodes)%nat)
    by (apply nth_error_Some; congruence).
  destruct rest as [| j rest'].
  - rewrite Along.write_same by exact Hi. reflexivity.
  - rewrite Along.write_same by exact Hi. cbn [children].
    apply (IH _ old). exact H.
Qed.

Lemma descend_apart (new : SceneNode) (common : list nat) :
  forall nodes i j ra rb,
    i <> j ->
    descend (replaceIn nodes (common ++ i :: ra) new) (common ++ j :: rb)
    = descend nodes (common ++ j :: rb).
Proof.
  induction common as [| c cs IH]; intros nodes i j ra rb Hij.
  - cbn [app replaceIn descend].
    destruct (nth_error nodes i) as [n |]; [| reflexivity].
    destruct ra; rewrite Along.write_other by exact Hij; reflexivity.
  - cbn [app replaceIn descend].
    destruct (nth_error nodes c) as [n |] eqn:E; [| rewrite E; reflexivity].
    assert (Hc : (c < length nodes)%nat)
      by (apply nth_error_Some; congruence).
    destruct (cs ++ i :: ra) as [| a tl] eqn:Ei;
      [destruct cs; discriminate |].
    destruct (cs ++ j :: rb) as [| b tl'] eqn:Ej;
      [destruct cs; discriminate |].
    rewrite Along.write_same by exact Hc. cbn [children].
    rewrite <- Ei, <- Ej. apply IH. exact Hij.
Qed.

Lemma nodeAt_replaced (page : list SceneNode) (path : Path)
    (old new : SceneNode) :
  nodeAt page path = Some old ->
  nodeAt (replaceAt page path new) path = Some new.
Proof. unfold nodeAt, replaceAt. apply descend_replaced. Qed.

Lemma nodeAt_apart (page : list SceneNode) (path other : Path)
    (new : SceneNode) :
  apart path other ->
  nodeAt (replaceAt page path new) other = nodeAt page other.
Proof.
  intros (common & i & j & ra & rb & Hij & Ha & Hb).
  unfold nodeAt, replaceAt. rewrite Ha, Hb. apply descend_apart. exact Hij.
Qed.

End Locality.

(** X16.  An update that succeeds puts the rearranged section where the
    selected section was, keeps the selection, and leaves every node that
    is neither the section, nor inside it, nor around it as it was, with
    its children. *)
Theorem update_is_local (figma figma' : Plugin.Figma) (msg : Settings)
    (count : nat) :
  Plugin.updateSection figma msg
  = (Plugin.closed (Plugin.SectionUpdated count), figma') ->
  exists selected section section',
    Plugin.selection figma = [selected]
    /\ Plugin.nodeAt (Plugin.page figma) selected = Some section
    /\ Sections.rearrange section msg = Some section'
    /\ count = length (Sections.findFramesInSection section)
    /\ Plugin.selection figma' = [selected]
    /\ Plugin.nodeAt (Plugin.page figma') selected = Some section'
    /\ forall other,
         Locality.apart selected other ->
         Plugin.nodeAt (Plugin.page figma') other
         = Plugin.nodeAt (Plugin.page figma) other.
Proof.
  unfold Plugin.updateSection. intro H.
  destruct (Plugin.selection figma) as [| selected [| ? ?]] eqn:Hsel;
    try discriminate.
  destruct (Plugin.nodeAt (Plugin.page figma) selected) as [section |] eqn:Hs;
    [| discriminate].
  destruct (Plugin.isSection section); [| discriminate].
  destruct (Sections.rearrange section msg) as [section' |] eqn:Hr;
    [| discriminate].
  injection H as Hcount Hfigma. subst figma'.
  exists selected, section, section'.
  cbn [Plugin.page Plugin.selection].
  repeat split; try reflexivity; try congruence.
  - apply (Locality.nodeAt_replaced _ _ section). exact Hs.
  - intros other Hother. apply Locality.nodeAt_apart. exact Hother.
Qed.

Lemma update_is_local_witness :
  exists figma' section',
    Plugin.updateSection
      (Plugin.mkFigma
         [Samples.frameNode 500 0 10 10;
          Samples.outerSection Sections.noData]
         [[1%nat]] None)
      Example.settings
    = (Plugin.closed (Plugin.SectionUpdated 1), figma')
    /\ Plugin.nodeAt (Plugin.page figma') [1%nat] = Some section'
    /\ Plugin.nodeAt (Plugin.page figma') [0%nat]
       = Some (Samples.frameNode 500 0 10 10).
Proof.
  assert (Hout :
    fst (Plugin.updateSection
           (Plugin.mkFigma
              [Samples.frameNode 500 0 10 10;
               Samples.outerSection Sections.noData]
              [[1%nat]] None)
           Example.settings)
    = Plugin.closed (Plugin.SectionUpdated 1)) by reflexivity.
  destruct (Plugin.updateSection
              (Plugin.mkFigma
                 [Samples.frameNode 500 0 10 10;
                  Samples.outerSection Sections.noData]
                 [[1%nat]] None)
              Example.settings) as [outcome figma'] eqn:E.
  cbn [fst] in Hout. subst outcome.
  destruct (update_is_local _ _ _ _ E)
    as (selected & section & section' & Hsel & _ & _ & _ & _ & Hnew & Hrest).
  injection Hsel as <-.
  exists figma', section'. split; [reflexivity |].
  split; [exact Hnew |].
  rewrite (Hrest [0%nat]); [reflexivity |].
  exists [], 1%nat, 0%nat, [], []. repeat split. discriminate.
Defined.

(** X17.  A section that [createSection] made answers both commands, from
    the section itself or from a node whose nearest section it is:
    [handleUpdateSection] posts the settings it was made with, not
    detected ones, and [handleRefreshSection] rearranges it with those
    settings and reports as many frames as were put in it. *)
Theorem created_section_commands (figma : Plugin.Figma)
    (selected path : Plugin.Path) (chosen : list Sections.SceneNode)
    (msg : Settings) (section : Sections.SceneNode) :
  Sections.createSection chosen msg = Some section ->
  Plugin.selection figma = [selected] ->
  Plugin.targetSection (Plugin.page figma) selected = Some path ->
  Plugin.nodeAt (Plugin.page figma) path = Some section ->
  fst (Plugin.handleUpdateSection figma)
  = Plugin.posted
      (Plugin.mkInit (Some (spacing msg)) (padding msg) (layout msg)
                     (alignment msg))
  /\ exists section',
       Sections.rearrange section msg = Some section'
       /\ Plugin.handleRefreshSection figma
          = (Plugin.closed
               (Plugin.SectionUpdated
                  (length (filter Sections.hasPositionAndSize chosen))),
             Plugin.mkFigma
               (Plugin.replaceAt (Plugin.page figma) path section')
               [path] None).
Proof.
  intros Hcreate Hsel Htarget Hnode.
  destruct (Fit.createSection_frames _ _ _ Hcreate)
    as (box & relative & Hfit & _ & Hdata & _ & Hframes).
  assert (Hlen : length (Sections.findFramesInSection section)
                 = length (filter Sections.hasPositionAndSize chosen)).
  { rewrite <- (length_map Sections.geometry), Hframes.
    rewrite Fit.withGeometry_geometry;
      rewrite (Fit.fitSection_length _ _ _ _ Hfit); apply length_map. }
  assert (Hsome : filter Sections.hasPositionAndSize chosen <> []).
  { intro Hnil. rewrite Hnil in Hfit. discriminate. }
  destruct (Sections.findFramesInSection section) as [| first rest] eqn:F.
  { exfalso. apply Hsome. apply length_zero_iff_nil. rewrite <- Hlen.
    reflexivity. }
  assert (Hsection : Plugin.isSection section = true).
  { unfold Sections.createSection in Hcreate. rewrite Hfit in Hcreate.
    injection Hcreate as <-. reflexivity. }
  split.
  - unfold Plugin.handleUpdateSection.
    rewrite Hsel, Htarget, Hnode, F, Hdata. reflexivity.
  - destruct (Sections.rearrange section msg) as [section' |] eqn:R.
    + exists section'. split; [reflexivity |].
      unfold Plugin.handleRefreshSection.
      rewrite Hsel, Htarget, Hnode, Hdata, F.
      unfold Plugin.updateSection. cbn [Plugin.selection Plugin.page].
      rewrite Hnode, Hsection, R, F, Hlen. reflexivity.
    + exfalso. unfold Sections.rearrange in R. rewrite F in R.
      cbn [map] in R.
      destruct (Fit.fitSection_some msg
                  (Sections.toAbsolute section (Sections.geometry first))
                  (map (Sections.toAbsolute section)
                       (map Sections.geometry rest))) as (? & ? & _ & Heq).
      rewrite Heq in R. discriminate.
Qed.

Lemma created_section_commands_witness :
  exists section,
    Sections.createSection Example.threeFrames Example.settings = Some section
    /\ fst (Plugin.handleUpdateSection
              (Plugin.mkFigma [section] [[0%nat; 0%nat]] None))
       = Plugin.posted
           (Plugin.mkInit (Some 10) (mkPadding 80 80 80 80) horizontal top)
    /\ fst (Plugin.handleRefreshSection
              (Plugin.mkFigma [section] [[0%nat; 0%nat]] None))
       = Plugin.closed (Plugin.SectionUpdated 3).
Proof.
  destruct (Sections.createSection Example.threeFrames Example.settings)
    as [section |] eqn:E; [| vm_compute in E; discriminate].
  exists section. split; [reflexivity |].
  assert (Htarget :
    Plugin.targetSection [section] [0%nat; 0%nat] = Some [0%nat]).
  { injection E as <-. reflexivity. }
  destruct (created_section_commands
              (Plugin.mkFigma [section] [[0%nat; 0%nat]] None)
              [0%nat; 0%nat] [0%nat] Example.threeFrames Example.settings
              section E eq_refl Htarget eq_refl)
    as (Hupdate & section' & _ & Hrefresh).
  split; [exact Hupdate |].
  rewrite Hrefresh. reflexivity.
Defined.

(* ------------------------------------------------------------------ *)
(** ** What a section keeps of its frames *)

Module Kept.
Import Geometry Sections Arranged.

(** A node after the plugin moved it: all but its [x] and [y] is what it
    was. *)
Definition movedOnly (before after : SceneNode) : Prop :=
  node_type after = node_type before
  /\ hasPositionAndSize after = hasPositionAndSize before
  /\ pluginData after = pluginData before
  /\ children after = children before
  /\ frame_width (geometry after) = frame_width (geometry before)
  /\ frame_height (geometry after) = frame_height (geometry before).

Lemma fitSection_sameSize (msg : Settings) (frames : list PositionedNode)
    (box : PositionedNode) (relative : list PositionedNode) :
  fitSection msg frames = Some (box, relative) ->
  Forall2 sameSize frames relative.
Proof.
  intro Hfit. destruct frames as [| first rest]; [discriminate |].
  destruct (Corner.fitSection_parts _ _ _ _ _ Hfit)
    as (moved & others & Harr & _ & _ & ->).
  pose proof (arrange_sameSize msg (first :: rest)
                (minX (boundingBox first rest))
                (minY (boundingBox first rest))) as H.
  rewrite Harr in H. revert H.
  generalize (first :: rest), (moved :: others).
  intros l l' H. induction H as [| f f' tl tl' Hf _ IH]; simpl;
    constructor; [exact Hf | exact IH].
Qed.

Lemma withGeometry_movedOnly (nodes : list SceneNode) :
  forall geometries,
    Forall2 sameSize (map geometry nodes) geometries ->
    Forall2 movedOnly nodes (withGeometry nodes geometries).
Proof.
  unfold withGeometry.
  induction nodes as [| n tl IH]; intros geometries H;
    inversion H as [| f g l l' (Hw & Hh) Htl]; subst; simpl; constructor.
  - unfold movedOnly. cbn [setGeometry node_type hasPositionAndSize
                             pluginData children geometry fst snd].
    repeat split; symmetry; assumption.
  - apply IH. exact Htl.
Qed.

Lemma absolute_sameSize (section : SceneNode) (l : list PositionedNode) :
  Forall2 sameSize l (map (toAbsolute section) l).
Proof. induction l; constructor; [split; reflexivity | assumption]. Qed.

Lemma sameSize_chain (l1 l2 l3 : list PositionedNode) :
  Forall2 sameSize l1 l2 -> Forall2 sameSize l2 l3 ->
  Forall2 sameSize l1 l3.
Proof.
  intro H. revert l3.
  induction H as [| a b tl tl' (Hw & Hh) _ IH]; intros l3 H';
    inversion H' as [| b' c tl2 tl3 (Hw' & Hh') Htl]; subst; constructor.
  - split; congruence.
  - apply IH. exact Htl.
Qed.

End Kept.

(** X18.  [createSection] and an update change of the frames nothing but
    their [x] and [y]: the section holds the selected nodes that have a
    position and a size, in their order, each with its type, its stored
    data, its children, its width and its height; an updated section
    keeps its type, has its other children first, as they were, and then
    its frames in their order; and both store the settings on the
    section. *)
Theorem section_keeps_frames (msg : Settings) :
  (forall selection section,
      Sections.createSection selection msg = Some section ->
      Sections.node_type section = Sections.SECTION
      /\ Sections.pluginData section = Sections.storedSettings msg
      /\ Forall2 Kept.movedOnly
           (filter Sections.hasPositionAndSize selection)
           (Sections.children section))
  /\ (forall section section',
         Sections.rearrange section msg = Some section' ->
         Sections.node_type section' = Sections.node_type section
         /\ Sections.pluginData section' = Sections.storedSettings msg
         /\ exists frames',
              Sections.children section'
              = filter (fun n => negb (Sections.hasPositionAndSize n))
                       (Sections.children section) ++ frames'
              /\ Sections.findFramesInSection section' = frames'
              /\ Forall2 Kept.movedOnly
                   (Sections.findFramesInSection section) frames').
Proof.
  split.
  - intros selection section Hcreate.
    destruct (Fit.createSection_frames _ _ _ Hcreate)
      as (box & relative & Hfit & _ & Hdata & Hchildren & _).
    split; [| split; [exact Hdata |]].
    + unfold Sections.createSection in Hcreate. rewrite Hfit in Hcreate.
      injection Hcreate as <-. reflexivity.
    + rewrite Hchildren. apply Kept.withGeometry_movedOnly.
      apply (Kept.fitSection_sameSize msg _ box). exact Hfit.
  - intros section section' Hupdate.
    destruct (Fit.rearrange_frames _ _ _ Hupdate)
      as (box & relative & Hfit & _ & Hdata & Hframes).
    unfold Sections.rearrange in Hupdate. rewrite Hfit in Hupdate.
    injection Hupdate as Hsection.
    split; [rewrite <- Hsection; reflexivity |].
    split; [exact Hdata |].
    exists (Sections.withGeometry (Sections.findFramesInSection section)
                                  relative).
    split; [rewrite <- Hsection; reflexivity |].
    split; [exact Hframes |].
    apply Kept.withGeometry_movedOnly.
    eapply Kept.sameSize_chain;
      [apply (Kept.absolute_sameSize section) |].
    apply (Kept.fitSection_sameSize msg _ box). exact Hfit.
Qed.

Lemma section_keeps_frames_witness :
  exists section,
    Sections.createSection Example.threeFrames Example.settings = Some section
    /\ Forall2 Kept.movedOnly Example.threeFrames
               (Sections.children section).
Proof.
  destruct (Sections.createSection Example.threeFrames Example.settings)
    as [section |] eqn:E; [| vm_compute in E; discriminate].
  exists section. split; [reflexivity |].
  apply (proj1 (section_keeps_frames Example.settings)
               Example.threeFrames section E).
Defined.

(** X19.  The create command and [createSection] agree on the selection:
    the command asks for a frame exactly on the empty selection, asks for
    an element with position and size exactly where no selected node has
    them, in which case [createSection] makes no section whatever the
    settings, and posts its message exactly where [createSection] makes a
    section for every settings. *)
Theorem create_command_agrees (selection : list Sections.SceneNode) :
  match Create.handleCreateSection selection with
  | Create.selectAFrame => selection = []
  | Create.selectAnElement =>
      selection <> []
      /\ Forall (fun n => Sections.hasPositionAndSize n = false) selection
      /\ forall msg, Sections.createSection selection msg = None
  | Create.createPosted init =>
      (exists n, In n selection /\ Sections.hasPositionAndSize n = true)
      /\ forall msg,
           exists section, Sections.createSection selection msg = Some section
  end.
Proof.
  unfold Create.handleCreateSection.
  destruct selection as [| n0 tl]; [reflexivity |].
  destruct (filter Sections.hasPositionAndSize (n0 :: tl))
    as [| first rest] eqn:F.
  - split; [discriminate |]. split.
    + apply Forall_forall. intros n Hn.
      destruct (Sections.hasPositionAndSize n) eqn:E; [| reflexivity].
      assert (Hin : In n (filter Sections.hasPositionAndSize (n0 :: tl)))
        by (apply filter_In; split; assumption).
      rewrite F in Hin. destruct Hin.
    + intro msg. unfold Sections.createSection. rewrite F. reflexivity.
  - split.
    + exists first.
      assert (Hin : In first (filter Sections.hasPositionAndSize (n0 :: tl)))
        by (rewrite F; left; reflexivity).
      apply filter_In in Hin. exact Hin.
    + intro msg. unfold Sections.createSection. rewrite F. cbn [map].
      destruct (Fit.fitSection_some msg (Sections.geometry first)
                  (map Sections.geometry rest)) as (? & ? & _ & Heq).
      rewrite Heq. eexists. reflexivity.
Qed.

(* ------------------------------------------------------------------ *)
(** ** The sections that the update of all sections finds *)

Module BatchFacts.
Import Sections Plugin Batch.

(** Induction on a node with the property of all its children. *)
Fixpoint SceneNode_nested (P : SceneNode -> Prop)
    (step : forall ty positioned g data kids,
        Forall P kids -> P (mkNode ty positioned g data kids))
    (node : SceneNode) {struct node} : P node :=
  match node with
  | mkNode ty positioned g data kids =>
      step ty positioned g data kids
        ((fix all (l : list SceneNode) : Forall P l :=
            match l with
            | [] => Forall_nil P
            | k :: tl => Forall_cons k (SceneNode_nested P step k) (all tl)
            end) kids)
  end.

Lemma findSections_eq (path : Path) (node : SceneNode) :
  findSections path node
  = entryOf path node ++ eachFrom path O (children node).
Proof.
  destruct node as [ty positioned g data kids]. cbn [findSections children].
  f_equal. generalize O. induction kids as [| k tl IH]; intro i.
  - reflexivity.
  - cbn [eachFrom]. rewrite <- IH. reflexivity.
Qed.

(** The node at the end of a way down that starts at a node: the node
    itself for the empty way. *)
Definition below (node : SceneNode) (route : list nat) : option SceneNode :=
  match route with
  | [] => Some node
  | _ :: _ => descend (children node) route
  end.

Lemma descend_below (nodes : list SceneNode) (k : nat) (route : list nat) :
  descend nodes (k :: route)
  = match nth_error nodes k with
    | Some child => below child route
    | None => None
    end.
Proof.
  cbn [descend]. destruct (nth_error nodes k); [| reflexivity].
  destruct route; reflexivity.
Qed.

Definition found (settings : Settings) (target : SceneNode) : Prop :=
  isSection target = true /\ pluginData target = storedSettings settings.

Lemma entryOf_found (path p : Path) (settings : Settings)
    (node : SceneNode) :
  In (p, settings) (entryOf path node) <-> p = path /\ found settings node.
Proof.
  unfold entryOf, found, isSection.
  destruct (node_type node), (pluginData node) as [| | stored]; simpl;
    try (split; [tauto | intros (_ & H1 & H2); congruence]).
  split.
  - intros [H | []]. injection H as <- <-. repeat split.
  - intros (-> & _ & H). injection H as <-. left. reflexivity.
Qed.

(** What [findSections] finds below a node, by the ways down. *)
Definition spec (node : SceneNode) : Prop :=
  forall path p settings,
    In (p, settings) (findSections path node)
    <-> exists route target,
          p = rev route ++ path
          /\ below node route = Some target
          /\ found settings target.

Lemma eachFrom_spec (kids : list SceneNode) :
  Forall spec kids ->
  forall path i p settings,
    In (p, settings) (eachFrom path i kids)
    <-> exists k route target,
          p = rev route ++ (i + k)%nat :: path
          /\ descend kids (k :: route) = Some target
          /\ found settings target.
Proof.
  intro H. induction H as [| child others Hchild _ IH];
    intros path i p settings.
  - cbn [eachFrom In]. split; [tauto |].
    intros (k & route & target & _ & Hd & _).
    rewrite descend_below in Hd. destruct k; discriminate.
  - cbn [eachFrom]. rewrite in_app_iff, (Hchild (i :: path)), IH. split.
    + intros [(route & target & Hp & Hb & Hf)
             | (k & route & target & Hp & Hd & Hf)].
      * exists O, route, target. rewrite Nat.add_0_r.
        rewrite descend_below. cbn [nth_error]. tauto.
      * exists (S k), route, target.
        rewrite descend_below in *. cbn [nth_error].
        replace (i + S k)%nat with (S i + k)%nat by lia. tauto.
    + intros (k & route & target & Hp & Hd & Hf).
      rewrite descend_below in Hd. destruct k as [| k].
      * left. exists route, target. rewrite Nat.add_0_r in Hp.
        cbn [nth_error] in Hd. tauto.
      * right. exists k, route, target. rewrite descend_below.
        cbn [nth_error] in Hd.
        replace (S i + k)%nat with (i + S k)%nat by lia. tauto.
Qed.

Lemma findSections_spec (node : SceneNode) : spec node.
Proof.
  induction node as [ty positioned g data kids Hkids]
    using SceneNode_nested.
  intros path p settings.
  rewrite findSections_eq, in_app_iff, entryOf_found.
  rewrite (eachFrom_spec kids Hkids). cbn [children]. split.
  - intros [(-> & Hf) | (k & route & target & Hp & Hd & Hf)].
    + exists [], (mkNode ty positioned g data kids). repeat split;
        apply Hf.
    + exists (k :: route), target. cbn [below children rev].
      rewrite <- app_assoc. cbn [app]. tauto.
  - intros (route & target & Hp & Hb & Hf).
    destruct route as [| k route].
    + left. cbn [below] in Hb. injection Hb as <-. tauto.
    + right. exists k, route, target. cbn [below children rev] in *.
      rewrite <- app_assoc in Hp. cbn [app] in Hp. tauto.
Qed.

End BatchFacts.

(** X20.  [findAllSectionsWithSettings] finds exactly the sections of the
    page whose stored settings can be read, however deep they lie, those
    inside other sections too: a node with settings is in its result if
    and only if it is on the page, is a section and stores these
    settings. *)
Theorem findAllSections_exact (page : list Sections.SceneNode)
    (path : Plugin.Path) (settings : Settings) :
  In (path, settings) (Batch.findAllSectionsWithSettings page)
  <-> exists section,
        Plugin.nodeAt page path = Some section
        /\ Plugin.isSection section = true
        /\ Sections.pluginData section = Sections.storedSettings settings.
Proof.
  unfold Batch.findAllSectionsWithSettings, Plugin.nodeAt.
  rewrite BatchFacts.eachFrom_spec.
  - split.
    + intros (k & route & target & -> & Hd & Hf).
      exists target. rewrite rev_app_distr, rev_involutive.
      cbn [rev app Nat.add]. split; [exact Hd | exact Hf].
    + intros (section & Hd & Hf).
      destruct (rev path) as [| k route] eqn:E; [discriminate |].
      exists k, route, section. cbn [Nat.add].
      split; [| split; [exact Hd | exact Hf]].
      rewrite <- (rev_involutive path), E. reflexivity.
  - apply Forall_forall. intros node _. apply BatchFacts.findSections_spec.
Qed.

Lemma findAllSections_exact_witness :
  In ([0%nat; 0%nat], Example.settings)
     (Batch.findAllSectionsWithSettings
        (Plugin.page
           (Samples.nested (Sections.storedSettings Example.settings)))).
Proof.
  apply (proj2 (findAllSections_exact _ [0%nat; 0%nat] Example.settings)).
  exists (Samples.innerSection (Sections.storedSettings Example.settings)).
  repeat split.
Defined.

(** X21.  On at least two frames whose bounding box is neither more than
    1.2 times as wide as it is high nor more than 1.2 times as high as it
    is wide, [detectLayoutAndAlignment] answers maintain with the
    alignment top, however the frames are aligned. *)
Theorem classify_maintain (frames : list PositionedNode)
    (left_edge right_edge top_edge bottom_edge : Q) :
  (2 <= length frames)%nat ->
  isMinOf left_edge (map frame_x frames) ->
  isMaxOf right_edge (map GeometryFacts.right_of frames) ->
  isMinOf top_edge (map frame_y frames) ->
  isMaxOf bottom_edge (map GeometryFacts.bottom_of frames) ->
  right_edge - left_edge <= (bottom_edge - top_edge) * (6 # 5) ->
  bottom_edge - top_edge <= (right_edge - left_edge) * (6 # 5) ->
  Classifier.detectLayoutAndAlignment frames = (maintain, top).
Proof.
  intros Hlen HminX HmaxX HminY HmaxY Hwide Htall.
  destruct frames as [| first [| second rest']];
    [simpl in Hlen; lia | simpl in Hlen; lia |].
  unfold Classifier.detectLayoutAndAlignment.
  set (b := Geometry.boundingBox first (second :: rest')).
  assert (EminX : Geometry.minX b == left_edge).
  { eapply isMinOf_unique; [apply GeometryFacts.boundingBox_minX |].
    exact HminX. }
  assert (EmaxX : Geometry.maxX b == right_edge).
  { eapply isMaxOf_unique; [apply GeometryFacts.boundingBox_maxX |].
    exact HmaxX. }
  assert (EminY : Geometry.minY b == top_edge).
  { eapply isMinOf_unique; [apply GeometryFacts.boundingBox_minY |].
    exact HminY. }
  assert (EmaxY : Geometry.maxY b == bottom_edge).
  { eapply isMaxOf_unique; [apply GeometryFacts.boundingBox_maxY |].
    exact HmaxY. }
  assert (Hhoriz : JS.ltb ((Geometry.maxY b - Geometry.minY b) * (6 # 5))
                     (Geometry.maxX b - Geometry.minX b) = false).
  { apply ltb_false_iff. lra. }
  assert (Hvert : JS.ltb ((Geometry.maxX b - Geometry.minX b) * (6 # 5))
                    (Geometry.maxY b - Geometry.minY b) = false).
  { apply ltb_false_iff. lra. }
  cbv zeta. rewrite Hhoriz, Hvert. reflexivity.
Qed.

Lemma classify_maintain_witness :
  Classifier.detectLayoutAndAlignment
    [mkFrame 0 0 100 100; mkFrame 110 0 100 100;
     mkFrame 0 110 100 100; mkFrame 110 110 100 100]
  = (maintain, top).
Proof.
  apply (classify_maintain
           [mkFrame 0 0 100 100; mkFrame 110 0 100 100;
            mkFrame 0 110 100 100; mkFrame 110 110 100 100]
           0 210 0 210).
  - simpl. lia.
  - extremum_at 0.
  - extremum_at (GeometryFacts.right_of (mkFrame 110 0 100 100)).
  - extremum_at 0.
  - extremum_at (GeometryFacts.bottom_of (mkFrame 0 110 100 100)).
  - vm_compute. discriminate.
  - vm_compute. discriminate.
Defined.
